(** * gentro: emulator resolution, command building, metadata fetcher and
      process monitor

    A shallow embedding of the launch and metadata core of gentro-ui
    ([services/games/emulator], [services/games/database],
    [services/games/metadata], [services/games/games.go]) together with the
    properties its design document states about it.

    Conventions.
    - A Go [string] is a Rocq [string] (a sequence of bytes).  The command
      parser only distinguishes the ASCII runes double quote, single quote
      and space; every byte of a multi-byte UTF-8 sequence is at least 0x80,
      so iterating over bytes and re-emitting them agrees with Go's
      iteration over runes on valid UTF-8 text.
    - A Go [error] is a value of [GoErr.error]; a function returning
      [(T, error)] returns [GoErr.result T].
    - A SQLite table is the list of its rows, in insertion order.
    - Goroutines are threads of a labelled transition system whose atomic
      steps are the critical sections of the source. *)

From Stdlib Require Import ZArith Lia Bool Ascii String.
From stdpp Require Import gmap strings list.

Local Open Scope string_scope.
Local Open Scope list_scope.

(** ** Go errors *)

Module GoErr.

(** [errors.New]/[fmt.Errorf] without [%w], [fmt.Errorf] with one [%w]
    operand, and the sentinel [sql.ErrNoRows]. *)
Inductive error : Type :=
| errorString (msg : string)
| wrapError (msg : string) (inner : error)
| ErrNoRows.

(** The [Error()] method. *)
Definition Error (e : error) : string :=
  match e with
  | errorString m => m
  | wrapError m _ => m
  | ErrNoRows => "sql: no rows in result set"
  end.

(** [fmt.Errorf(prefix + "%w", inner)]. *)
Definition Errorf_w (prefix : string) (inner : error) : error :=
  wrapError (prefix +:+ Error inner) inner.

Inductive result (A : Type) : Type :=
| Ok (a : A)
| Err (e : error).
Arguments Ok {A} a.
Arguments Err {A} e.

End GoErr.
Export GoErr.

(** ** The [strings] and [strconv] functions the command builder uses *)

Module GoStrings.

(** [strings.HasPrefix(s, p)]. *)
Fixpoint HasPrefix (s p : string) : bool :=
  match p, s with
  | EmptyString, _ => true
  | String _ _, EmptyString => false
  | String a p', String b s' => if Ascii.eqb a b then HasPrefix s' p' else false
  end.

(** [strings.Contains(s, sub)]. *)
Fixpoint Contains (s sub : string) : bool :=
  HasPrefix s sub ||
  match s with
  | EmptyString => false
  | String _ s' => Contains s' sub
  end.

(** [strings.ReplaceAll(s, old, new)] for a non-empty [old]: the
    non-overlapping occurrences of [old] are replaced from left to right.
    [skip] counts the bytes of a matched occurrence still to be dropped. *)
Fixpoint replace_from (skip : nat) (s old new : string) : string :=
  match s with
  | EmptyString => EmptyString
  | String c s' =>
      match skip with
      | S k => replace_from k s' old new
      | O =>
          if HasPrefix s old
          then new +:+ replace_from (String.length old - 1) s' old new
          else String c (replace_from 0 s' old new)
      end
  end.

Definition ReplaceAll (s old new : string) : string := replace_from 0 s old new.

(** The runes the builder and the parser test for. *)
Definition dquote : ascii := ascii_of_N 34.
Definition squote : ascii := ascii_of_N 39.
Definition space : ascii := ascii_of_N 32.
Definition backslash : ascii := ascii_of_N 92.

Definition hex_digit (n : N) : ascii :=
  ascii_of_N (if (n <? 10)%N then 48 + n else 87 + n)%N.

(** One rune of [strconv.Quote] (what [%q] prints), on ASCII.  Bytes from
    0x80 on are copied: that is what [Quote] does with the UTF-8 encoding
    of a printable rune. *)
Definition quote_rune (c : ascii) : string :=
  let n := N_of_ascii c in
  if (n =? 34)%N then String backslash (String dquote EmptyString)
  else if (n =? 92)%N then String backslash (String backslash EmptyString)
  else if (n =? 7)%N then "\a"
  else if (n =? 8)%N then "\b"
  else if (n =? 12)%N then "\f"
  else if (n =? 10)%N then "\n"
  else if (n =? 13)%N then "\r"
  else if (n =? 9)%N then "\t"
  else if (n =? 11)%N then "\v"
  else if ((n <? 32) || (n =? 127))%N
       then String backslash (String "x" (String (hex_digit (n / 16)) (String (hex_digit (n mod 16)) EmptyString)))
  else String c EmptyString.

Fixpoint quote_body (s : string) : string :=
  match s with
  | EmptyString => EmptyString
  | String c s' => quote_rune c +:+ quote_body s'
  end.

(** [fmt.Sprintf("%q", s)]. *)
Definition Sprintf_q (s : string) : string :=
  String dquote (quote_body s) +:+ String dquote EmptyString.

End GoStrings.

(** ** [models]: the records of the emulator subsystem *)

Module Models.

(** [type EmulatorType string] and its constants. *)
Definition EmulatorType := string.
Definition EmulatorTypeFlatpak : EmulatorType := "flatpak".
Definition EmulatorTypeNative : EmulatorType := "native".
Definition EmulatorTypeAppImage : EmulatorType := "appimage".

Record Emulator := {
  Emulator_ID : string;
  Emulator_Name : string;
  Emulator_DisplayName : string;
  Emulator_Type : EmulatorType;
  Emulator_ExecutablePath : string;
  Emulator_FlatpakID : string;
  Emulator_CommandTemplate : string;
  Emulator_DefaultArgs : string;
  Emulator_SupportedPlatforms : list string;
  Emulator_IsAvailable : bool;
  Emulator_CreatedAt : Z;
  Emulator_UpdatedAt : Z
}.

Record EmulatorCore := {
  Core_ID : string;
  Core_EmulatorID : string;
  Core_CoreID : string;
  Core_DisplayName : string;
  Core_SupportedPlatforms : list string;
  Core_IsAvailable : bool
}.

Record InstanceEmulatorSettings := {
  Settings_InstanceID : string;
  Settings_EmulatorID : string;
  Settings_CoreID : string;
  Settings_CustomArgs : string
}.

(** The fields of [GameInstance] that resolution and monitoring read. *)
Record GameInstance := {
  Instance_ID : string;
  Instance_GameID : string;
  Instance_Source : string;
  Instance_Platform : string;
  Instance_Path : string;
  Instance_InstallPath : string
}.

Record FetchRequest := {
  Req_GameID : string;
  Req_InstanceID : string;
  Req_Priority : Z;
  Req_Platforms : list string;
  Req_Name : string;
  Req_FileHash : string;
  Req_Source : string;
  Req_Platform : string
}.

(** [ResolvedMetadata], reduced to the game name, the other game-level
    fields and the art URLs; the fetcher only passes it on. *)
Record ResolvedMetadata := {
  Meta_Name : string;
  Meta_Description : string;
  Meta_ArtURLs : list (string * string)
}.

Inductive LaunchStatus :=
| LaunchStatusLaunching
| LaunchStatusRunning
| LaunchStatusStopped
| LaunchStatusFailed.

Record LaunchStatusUpdate := {
  Update_InstanceID : string;
  Update_GameID : string;
  Update_Status : LaunchStatus;
  Update_Error : string
}.

End Models.
Export Models.

(** ** [database]: the emulator tables and their queries *)

Module Database.

(** A row of [platform_emulators]; [priority] is the column the fallback
    query orders by ([INTEGER DEFAULT 0]). *)
Record PlatformEmulatorRow := {
  pe_id : string;
  pe_platform : string;
  pe_emulator_id : string;
  pe_core_id : string;
  pe_is_default : bool;
  pe_priority : Z
}.

(** The connection: the four tables and, when the connection is broken,
    the error every query then returns. *)
Record DB := {
  emulators : list Emulator;
  emulator_cores : list EmulatorCore;
  platform_emulators : list PlatformEmulatorRow;
  instance_emulator_settings : list InstanceEmulatorSettings;
  conn_err : option error
}.

(** [QueryRow(...).Scan(...)]: the first row, or [sql.ErrNoRows]. *)
Definition QueryRow {A : Type} (db : DB) (rows : list A) : result A :=
  match conn_err db with
  | Some e => Err e
  | None => match rows with
            | r :: _ => Ok r
            | [] => Err ErrNoRows
            end
  end.

(** [SELECT ... FROM emulators WHERE id = ?]. *)
Definition GetEmulator (db : DB) (id : string) : result Emulator :=
  QueryRow db (List.filter (fun e => String.eqb (Emulator_ID e) id) (emulators db)).

(** [SELECT ... FROM emulator_cores WHERE emulator_id = ? AND core_id = ?]. *)
Definition GetCore (db : DB) (emulatorID coreID : string) : result EmulatorCore :=
  QueryRow db
    (List.filter (fun c => String.eqb (Core_EmulatorID c) emulatorID
                           && String.eqb (Core_CoreID c) coreID)
                 (emulator_cores db)).

(** [SELECT ... FROM instance_emulator_settings WHERE instance_id = ?]. *)
Definition GetInstanceEmulatorSettings (db : DB) (instanceID : string)
  : result InstanceEmulatorSettings :=
  QueryRow db
    (List.filter (fun s => String.eqb (Settings_InstanceID s) instanceID)
                 (instance_emulator_settings db)).

(** A row of
    [emulators e JOIN platform_emulators pe ON e.id = pe.emulator_id
     LEFT JOIN emulator_cores c ON pe.core_id = c.core_id AND c.emulator_id = e.id];
    the core is [None] where the left join found no core ([c.* IS NULL]). *)
Record JoinRow := {
  row_e : Emulator;
  row_pe : PlatformEmulatorRow;
  row_c : option EmulatorCore
}.

Definition left_join_cores (db : DB) (e : Emulator) (pe : PlatformEmulatorRow)
  : list JoinRow :=
  match List.filter (fun c => String.eqb (pe_core_id pe) (Core_CoreID c)
                              && String.eqb (Core_EmulatorID c) (Emulator_ID e))
                    (emulator_cores db) with
  | [] => [ {| row_e := e; row_pe := pe; row_c := None |} ]
  | cs => List.map (fun c => {| row_e := e; row_pe := pe; row_c := Some c |}) cs
  end.

(** The join restricted by [WHERE pe.platform = ?], rows in the nested
    loop order of the [FROM] clause. *)
Definition platform_join (db : DB) (platform : string) : list JoinRow :=
  List.flat_map
    (fun e =>
       List.flat_map (left_join_cores db e)
         (List.filter (fun pe => String.eqb (Emulator_ID e) (pe_emulator_id pe)
                                 && String.eqb (pe_platform pe) platform)
                      (platform_emulators db)))
    (emulators db).

(** [e.is_available = 1 AND (c.core_id IS NULL OR c.is_available = 1)]. *)
Definition row_available (r : JoinRow) : bool :=
  Emulator_IsAvailable (row_e r) &&
  match row_c r with
  | None => true
  | Some c => Core_IsAvailable c
  end.

(** The joined queries do not select [e.supported_platforms]: the scanned
    emulator keeps the zero value in that field. *)
Definition scan_emulator (e : Emulator) : Emulator :=
  {| Emulator_ID := Emulator_ID e;
     Emulator_Name := Emulator_Name e;
     Emulator_DisplayName := Emulator_DisplayName e;
     Emulator_Type := Emulator_Type e;
     Emulator_ExecutablePath := Emulator_ExecutablePath e;
     Emulator_FlatpakID := Emulator_FlatpakID e;
     Emulator_CommandTemplate := Emulator_CommandTemplate e;
     Emulator_DefaultArgs := Emulator_DefaultArgs e;
     Emulator_SupportedPlatforms := [];
     Emulator_IsAvailable := Emulator_IsAvailable e;
     Emulator_CreatedAt := Emulator_CreatedAt e;
     Emulator_UpdatedAt := Emulator_UpdatedAt e |}.

Definition default_rows (db : DB) (platform : string) (requireAvailable : bool)
  : list JoinRow :=
  List.filter (fun r => pe_is_default (row_pe r)
                        && (if requireAvailable then row_available r else true))
              (platform_join db platform).

(** [GetDefaultEmulatorForPlatform]: on success the emulator pointer is
    never nil, so the pair is returned under [Ok]. *)
Definition GetDefaultEmulatorForPlatform (db : DB) (platform : string)
    (requireAvailable : bool) : result (Emulator * option EmulatorCore) :=
  match QueryRow db (default_rows db platform requireAvailable) with
  | Err e => Err e
  | Ok r => Ok (scan_emulator (row_e r), row_c r)
  end.

(** [ORDER BY pe.priority ASC], as a stable insertion sort: rows of equal
    priority keep the order of the join. *)
Fixpoint insert_by_priority (r : JoinRow) (l : list JoinRow) : list JoinRow :=
  match l with
  | [] => [r]
  | x :: l' =>
      if (pe_priority (row_pe r) <=? pe_priority (row_pe x))%Z
      then r :: l
      else x :: insert_by_priority r l'
  end.

Definition order_by_priority (l : list JoinRow) : list JoinRow :=
  List.fold_right insert_by_priority [] l.

Record AvailableEmulatorPair := {
  Pair_Emulator : Emulator;
  Pair_Core : option EmulatorCore
}.

Definition available_rows (db : DB) (platform : string) : list JoinRow :=
  order_by_priority (List.filter row_available (platform_join db platform)).

Definition GetAvailableEmulatorsForPlatform (db : DB) (platform : string)
  : result (list AvailableEmulatorPair) :=
  match conn_err db with
  | Some e => Err (Errorf_w "failed to get available emulators: " e)
  | None =>
      Ok (List.map (fun r => {| Pair_Emulator := scan_emulator (row_e r);
                                Pair_Core := row_c r |})
                   (available_rows db platform))
  end.

End Database.
Export Database.

(** ** [emulator]: resolution and command building *)

Module Emulator.
Import GoStrings.

(** [getEmulatorAndCore]: a core that cannot be fetched leaves the core
    pointer nil without failing the call. *)
Definition getEmulatorAndCore (db : DB) (emulatorID coreID : string)
  : result (Emulator * option EmulatorCore) :=
  match GetEmulator db emulatorID with
  | Err _ => Err (errorString ("emulator not found: " +:+ emulatorID))
  | Ok emulator =>
      let core :=
        if String.eqb coreID EmptyString then None
        else match GetCore db emulatorID coreID with
             | Ok c => Some c
             | Err _ => None
             end in
      Ok (emulator, core)
  end.

(** Step 1 of [ResolveEmulator]: the pair the instance override yields,
    [None] when resolution falls through to the later steps. *)
Definition resolve_override (db : DB) (instance : GameInstance)
  : option (Emulator * option EmulatorCore) :=
  match GetInstanceEmulatorSettings db (Instance_ID instance) with
  | Ok settings =>
      match getEmulatorAndCore db (Settings_EmulatorID settings)
                               (Settings_CoreID settings) with
      | Ok (emu, core) =>
          if Emulator_IsAvailable emu then
            match core with
            | None => Some (emu, core)
            | Some c => if Core_IsAvailable c then Some (emu, core) else None
            end
          else None
      | Err _ => None
      end
  | Err _ => None
  end.

(** [Service.ResolveEmulator], in the revision with the three-step chain
    (the one the database package and the emulated source are written
    against); the log calls have no effect on the result and are left
    out. *)
Definition ResolveEmulator (db : DB) (instance : GameInstance)
  : result (Emulator * option EmulatorCore) :=
  (* 1. Check instance override *)
  match resolve_override db instance with
  | Some found => Ok found
  | None =>
      (* 2. Check platform default (require available) *)
      match GetDefaultEmulatorForPlatform db (Instance_Platform instance) true with
      | Ok found => Ok found
      | Err _ =>
          (* 3. Check other available emulators as fallback *)
          match GetAvailableEmulatorsForPlatform db (Instance_Platform instance) with
          | Err err =>
              Err (Errorf_w ("no emulator available for platform "
                             +:+ Instance_Platform instance +:+ ": ") err)
          | Ok (first :: _) => Ok (Pair_Emulator first, Pair_Core first)
          | Ok [] =>
              Err (errorString ("no available emulator for platform "
                                +:+ Instance_Platform instance))
          end
      end
  end.

Section EarlierRevision.
(** [services/games/emulator/service.go] keeps an earlier revision of
    [ResolveEmulator]: the override is returned as it is found, and the
    platform default comes from a database call without the availability
    argument.  That call is not in the sources and is a parameter. *)
Variable GetDefaultEmulatorForPlatform_v1 :
  DB -> string -> result (option Emulator * option EmulatorCore).

Definition ResolveEmulator_v1 (db : DB) (instance : GameInstance)
  : result (option Emulator * option EmulatorCore) :=
  match GetInstanceEmulatorSettings db (Instance_ID instance) with
  | Ok settings =>
      match getEmulatorAndCore db (Settings_EmulatorID settings)
                               (Settings_CoreID settings) with
      | Ok (emu, core) => Ok (Some emu, core)
      | Err err => Err err
      end
  | Err _ =>
      match GetDefaultEmulatorForPlatform_v1 db (Instance_Platform instance) with
      | Err err => Err err
      | Ok (emu, core) => Ok (emu, core)
      end
  end.
End EarlierRevision.

(** [quotePathIfNeeded]. *)
Definition quotePathIfNeeded (path : string) : string :=
  if Contains path " " then Sprintf_q path else path.

(** The loop state of [parseCommandWithQuotes]; [quoteChar] is the zero
    rune outside a quoted span. *)
Record ParseState := {
  args : list string;
  currentArg : string;
  inQuote : bool;
  quoteChar : ascii
}.

Definition parse_init : ParseState :=
  {| args := []; currentArg := EmptyString; inQuote := false; quoteChar := zero |}.

Definition WriteRune (st : ParseState) (r : ascii) : ParseState :=
  {| args := args st;
     currentArg := currentArg st +:+ String r EmptyString;
     inQuote := inQuote st;
     quoteChar := quoteChar st |}.

(** One iteration of [for _, r := range cmd]. *)
Definition parse_rune (st : ParseState) (r : ascii) : ParseState :=
  if Ascii.eqb r dquote || Ascii.eqb r squote then
    if negb (inQuote st) then
      {| args := args st; currentArg := currentArg st;
         inQuote := true; quoteChar := r |}
    else if Ascii.eqb r (quoteChar st) then
      {| args := args st; currentArg := currentArg st;
         inQuote := false; quoteChar := zero |}
    else WriteRune st r
  else if Ascii.eqb r space && negb (inQuote st) then
    if (0 <? String.length (currentArg st))%nat then
      {| args := args st ++ [currentArg st]; currentArg := EmptyString;
         inQuote := inQuote st; quoteChar := quoteChar st |}
    else st
  else WriteRune st r.

Fixpoint parse_loop (st : ParseState) (cmd : string) : ParseState :=
  match cmd with
  | EmptyString => st
  | String r cmd' => parse_loop (parse_rune st r) cmd'
  end.

(** [parseCommandWithQuotes]. *)
Definition parseCommandWithQuotes (cmd : string) : list string :=
  let st := parse_loop parse_init cmd in
  if (0 <? String.length (currentArg st))%nat
  then args st ++ [currentArg st]
  else args st.

(** [Service.buildFlatpakCommand]. *)
Definition buildFlatpakCommand (emulator : Emulator)
    (coreLibPath romPath args : string) : list string :=
  let quotedRomPath := quotePathIfNeeded romPath in
  let quotedCorePath := quotePathIfNeeded coreLibPath in
  let cmd := Emulator_CommandTemplate emulator in
  let cmd := ReplaceAll cmd "{flatpak_id}" (Emulator_FlatpakID emulator) in
  let cmd := ReplaceAll cmd "{core_lib_path}" quotedCorePath in
  let cmd := ReplaceAll cmd "{args}" args in
  let cmd := ReplaceAll cmd "{rom}" quotedRomPath in
  parseCommandWithQuotes cmd.

(** [Service.buildNativeCommand]. *)
Definition buildNativeCommand (emulator : Emulator) (romPath args : string)
  : list string :=
  let quotedRomPath := quotePathIfNeeded romPath in
  let cmd := Emulator_CommandTemplate emulator in
  let cmd := ReplaceAll cmd "{executable}" (Emulator_ExecutablePath emulator) in
  let cmd := ReplaceAll cmd "{args}" args in
  let cmd := ReplaceAll cmd "{rom}" quotedRomPath in
  parseCommandWithQuotes cmd.

Section BuildCommand.
(** [filepath.Join(os.Getenv("HOME"), ".var", "app", ..., "cores",
    coreID + ".so")]: the environment and the path library are outside
    the repository, the joined path is taken as a function of the core
    id. *)
Variable coreLibraryPath : string -> string.

(** [Service.BuildCommand]; [None] is a nil emulator pointer. *)
Definition BuildCommand (emulator : option Emulator) (core : option EmulatorCore)
    (romPath customArgs : string) : result (list string) :=
  match emulator with
  | None => Err (errorString "emulator is nil")
  | Some emulator =>
      if negb (Emulator_IsAvailable emulator) then
        Err (errorString ("emulator " +:+ Emulator_ID emulator
                          +:+ " is not available"))
      else
        let coreLibPath :=
          match core with
          | Some c =>
              if String.eqb (Emulator_ID emulator) "retroarch"
              then coreLibraryPath (Core_CoreID c)
              else EmptyString
          | None => EmptyString
          end in
        let args := Emulator_DefaultArgs emulator in
        let args :=
          if negb (String.eqb customArgs EmptyString) then
            if negb (String.eqb args EmptyString)
            then args +:+ " " +:+ customArgs
            else customArgs
          else args in
        if String.eqb (Emulator_Type emulator) EmulatorTypeFlatpak
        then Ok (buildFlatpakCommand emulator coreLibPath romPath args)
        else Ok (buildNativeCommand emulator romPath args)
  end.
End BuildCommand.

End Emulator.
Export Emulator.

(** ** [metadata]: the fetch queue, the worker pool and the registry *)

Module Metadata.

(** The [Resolver] interface.  No resolver of the repository reads the
    context it is passed, so [Resolve] is a function of the request. *)
Record Resolver := {
  Name : string;
  Supports : string -> string -> bool;
  Resolve : FetchRequest -> result ResolvedMetadata
}.

(** The calls a worker makes on its collaborators: [Resolve] on the
    resolver registered at position [idx], and the on-resolve callback. *)
Inductive Event :=
| EvResolve (idx : nat) (name : string)
| EvCallback (req : FetchRequest) (resolved : ResolvedMetadata) (resolverName : string).

(** The three ways a fetch ends. *)
Inductive FetchOutcome := Resolved | Exhausted | Cancelled.

(** A worker goroutine, at the granularity of the critical sections of
    [worker] and [processRequest]:
    - [WReceiving]: blocked in [for req := range f.queue];
    - [WStarting req]: [processRequest(req)] entered, handle not yet
      registered;
    - [WResolving req ctx k rest tried]: at the top of the resolver loop,
      [rest] being the resolvers from position [k] on;
    - [WReturning req ctx o]: the loop is left with outcome [o], the
      deferred function has not run yet;
    - [WExited]: the queue was closed and drained, [wg.Done()] has run. *)
Inductive Worker :=
| WReceiving
| WStarting (req : FetchRequest)
| WResolving (req : FetchRequest) (ctx : nat) (k : nat)
             (rest : list Resolver) (sourcesTried : list string)
| WReturning (req : FetchRequest) (ctx : nat) (o : FetchOutcome)
| WExited.

(** The [Fetcher].  [queue] is the content of the buffered channel and
    [queue_closed] its closed flag; a context is named by a number and
    [cancelMap] maps an instance id to the context its [CancelFunc]
    cancels; [cancelled] collects the cancelled contexts; [onResolve]
    tells whether a callback is installed; [pool] holds the goroutines
    started by [Start]; [closing] and [waiting] count the [Stop] calls
    between their critical section and [close(f.queue)], and inside
    [f.wg.Wait()]. *)
Record Fetcher := {
  queue : list FetchRequest;
  queue_closed : bool;
  workers : Z;
  resolvers : list Resolver;
  cancelMap : gmap string nat;
  onResolve : bool;
  isRunning : bool;
  cancelled : gset nat;
  next_ctx : nat;
  pool : list Worker;
  closing : nat;
  waiting : nat;
  log : list Event
}.

(** [make(chan models.FetchRequest, 100)]. *)
Definition queue_capacity : nat := 100.

(** [NewFetcher(workers, logger)]. *)
Definition NewFetcher (workers : Z) : Fetcher :=
  {| queue := [];
     queue_closed := false;
     workers := if (workers <=? 0)%Z then 2%Z else workers;
     resolvers := [];
     cancelMap := ∅;
     onResolve := false;
     isRunning := false;
     cancelled := ∅;
     next_ctx := 0;
     pool := [];
     closing := 0;
     waiting := 0;
     log := [] |}.

Definition set_queue (q : list FetchRequest) (f : Fetcher) : Fetcher :=
  {| queue := q; queue_closed := queue_closed f; workers := workers f;
     resolvers := resolvers f; cancelMap := cancelMap f; onResolve := onResolve f;
     isRunning := isRunning f; cancelled := cancelled f; next_ctx := next_ctx f;
     pool := pool f; closing := closing f; waiting := waiting f; log := log f |}.

Definition set_worker (w : nat) (st : Worker) (f : Fetcher) : Fetcher :=
  {| queue := queue f; queue_closed := queue_closed f; workers := workers f;
     resolvers := resolvers f; cancelMap := cancelMap f; onResolve := onResolve f;
     isRunning := isRunning f; cancelled := cancelled f; next_ctx := next_ctx f;
     pool := <[w := st]> (pool f); closing := closing f; waiting := waiting f;
     log := log f |}.

Definition set_registry (m : gmap string nat) (cs : gset nat) (f : Fetcher) : Fetcher :=
  {| queue := queue f; queue_closed := queue_closed f; workers := workers f;
     resolvers := resolvers f; cancelMap := m; onResolve := onResolve f;
     isRunning := isRunning f; cancelled := cs; next_ctx := next_ctx f;
     pool := pool f; closing := closing f; waiting := waiting f; log := log f |}.

Definition add_log (ev : list Event) (f : Fetcher) : Fetcher :=
  {| queue := queue f; queue_closed := queue_closed f; workers := workers f;
     resolvers := resolvers f; cancelMap := cancelMap f; onResolve := onResolve f;
     isRunning := isRunning f; cancelled := cancelled f; next_ctx := next_ctx f;
     pool := pool f; closing := closing f; waiting := waiting f;
     log := log f ++ ev |}.

(** [RegisterResolver]. *)
Definition RegisterResolver (r : Resolver) (f : Fetcher) : Fetcher :=
  {| queue := queue f; queue_closed := queue_closed f; workers := workers f;
     resolvers := resolvers f ++ [r]; cancelMap := cancelMap f;
     onResolve := onResolve f; isRunning := isRunning f; cancelled := cancelled f;
     next_ctx := next_ctx f; pool := pool f; closing := closing f;
     waiting := waiting f; log := log f |}.

(** [SetOnResolveCallback] with a non-nil callback. *)
Definition SetOnResolveCallback (f : Fetcher) : Fetcher :=
  {| queue := queue f; queue_closed := queue_closed f; workers := workers f;
     resolvers := resolvers f; cancelMap := cancelMap f; onResolve := true;
     isRunning := isRunning f; cancelled := cancelled f; next_ctx := next_ctx f;
     pool := pool f; closing := closing f; waiting := waiting f; log := log f |}.

(** [Start]: one critical section. *)
Definition Start (f : Fetcher) : Fetcher :=
  if isRunning f then f
  else
    {| queue := queue f; queue_closed := queue_closed f; workers := workers f;
       resolvers := resolvers f; cancelMap := cancelMap f; onResolve := onResolve f;
       isRunning := true; cancelled := cancelled f; next_ctx := next_ctx f;
       pool := pool f ++ replicate (Z.to_nat (workers f)) WReceiving;
       closing := closing f; waiting := waiting f; log := log f |}.

(** The two ways out of the critical section of [Stop]. *)
Inductive StopBranch := StopReturnsEarly | StopProceeds.

(** The critical section of [Stop]: the early return when the fetcher is
    not running, else the flag is cleared, every registered context is
    cancelled and the registry is replaced by an empty one. *)
Definition Stop_locked (f : Fetcher) : StopBranch * Fetcher :=
  if negb (isRunning f) then (StopReturnsEarly, f)
  else
    (StopProceeds,
     {| queue := queue f; queue_closed := queue_closed f; workers := workers f;
        resolvers := resolvers f; cancelMap := ∅; onResolve := onResolve f;
        isRunning := false;
        cancelled := cancelled f ∪ map_img (cancelMap f);
        next_ctx := next_ctx f; pool := pool f;
        closing := S (closing f); waiting := waiting f; log := log f |}).

(** What a step of a goroutine or an API call does: it completes, it is
    blocked in the present state, or it panics. *)
Inductive Outcome :=
| Done (f : Fetcher)
| Blocked
| Panic (msg : string).

(** [close(f.queue)] in [Stop]. *)
Definition Stop_close (f : Fetcher) : Outcome :=
  match closing f with
  | O => Blocked
  | S n =>
      if queue_closed f then Panic "close of closed channel"
      else
        Done {| queue := queue f; queue_closed := true; workers := workers f;
                resolvers := resolvers f; cancelMap := cancelMap f;
                onResolve := onResolve f; isRunning := isRunning f;
                cancelled := cancelled f; next_ctx := next_ctx f; pool := pool f;
                closing := n; waiting := S (waiting f); log := log f |}
  end.

Definition exited (w : Worker) : bool :=
  match w with WExited => true | _ => false end.

(** [f.wg.Wait()] returning in [Stop]: every worker has called
    [wg.Done()]. *)
Definition Stop_wait (f : Fetcher) : Outcome :=
  match waiting f with
  | O => Blocked
  | S n =>
      if forallb exited (pool f) then
        Done {| queue := queue f; queue_closed := queue_closed f;
                workers := workers f; resolvers := resolvers f;
                cancelMap := cancelMap f; onResolve := onResolve f;
                isRunning := isRunning f; cancelled := cancelled f;
                next_ctx := next_ctx f; pool := pool f; closing := closing f;
                waiting := n; log := log f |}
      else Blocked
  end.

Definition ErrNotRunning : error := errorString "fetcher is not running".
Definition ErrQueueFull : error := errorString "queue is full".

(** What [Queue] returns, with the fetcher it leaves. *)
Inductive QueueResult :=
| QueueReturns (err : option error) (f : Fetcher)
| QueuePanics (msg : string).

(** [Queue(req)]: one critical section under the read lock.  The [select]
    sends when the channel has room; on a channel that stays at capacity
    for the whole wait the timer case is taken.  (A worker that receives
    during the wait takes no lock: that schedule is the one in which its
    receive comes first.) *)
Definition Queue (req : FetchRequest) (f : Fetcher) : QueueResult :=
  if negb (isRunning f) then QueueReturns (Some ErrNotRunning) f
  else if queue_closed f then QueuePanics "send on closed channel"
  else if (length (queue f) <? queue_capacity)%nat
       then QueueReturns None (set_queue (queue f ++ [req]) f)
       else QueueReturns (Some ErrQueueFull) f.

(** [Cancel(instanceID)]. *)
Definition Cancel (instanceID : string) (f : Fetcher) : Fetcher :=
  match cancelMap f !! instanceID with
  | Some ctx => set_registry (delete instanceID (cancelMap f))
                             (cancelled f ∪ {[ctx]}) f
  | None => f
  end.

(** One pass through the body of the resolver loop of [processRequest]:
    either the loop goes on with the next resolver, or the function
    returns. *)
Inductive Iteration :=
| Continue (sourcesTried : list string) (ev : list Event)
| Return (o : FetchOutcome) (ev : list Event).

Definition loop_body (callback : bool) (ctxDone : bool) (req : FetchRequest)
    (k : nat) (resolver : Resolver) (sourcesTried : list string) : Iteration :=
  if ctxDone then Return Cancelled []
  else if negb (Supports resolver (Req_Source req) (Req_Platform req))
       then Continue sourcesTried []
  else
    let sourcesTried := sourcesTried ++ [Name resolver] in
    match Resolve resolver req with
    | Err _ => Continue sourcesTried [EvResolve k (Name resolver)]
    | Ok resolved =>
        Return Resolved
          (EvResolve k (Name resolver) ::
           if callback then [EvCallback req resolved (Name resolver)] else [])
    end.

(** The resolver loop run to its end; [ctxDone k] tells whether the
    context is found cancelled at the check that precedes the resolver
    at position [k]. *)
Fixpoint resolver_chain (callback : bool) (ctxDone : nat -> bool)
    (req : FetchRequest) (k : nat) (rest : list Resolver)
    (sourcesTried : list string) : FetchOutcome * list Event :=
  match rest with
  | [] => (Exhausted, [])
  | resolver :: rest' =>
      match loop_body callback (ctxDone k) req k resolver sourcesTried with
      | Return o ev => (o, ev)
      | Continue sourcesTried' ev =>
          let '(o, ev') := resolver_chain callback ctxDone req (S k) rest' sourcesTried' in
          (o, ev ++ ev')
      end
  end.

(** A step of worker [w]. *)
Definition worker_step (w : nat) (f : Fetcher) : Outcome :=
  match pool f !! w with
  | None | Some WExited => Blocked
  | Some WReceiving =>
      match queue f with
      | req :: q => Done (set_worker w (WStarting req) (set_queue q f))
      | [] => if queue_closed f then Done (set_worker w WExited f) else Blocked
      end
  | Some (WStarting req) =>
      let ctx := next_ctx f in
      Done (set_worker w (WResolving req ctx 0 (resolvers f) [])
              {| queue := queue f; queue_closed := queue_closed f;
                 workers := workers f; resolvers := resolvers f;
                 cancelMap := <[Req_InstanceID req := ctx]> (cancelMap f);
                 onResolve := onResolve f; isRunning := isRunning f;
                 cancelled := cancelled f; next_ctx := S ctx; pool := pool f;
                 closing := closing f; waiting := waiting f; log := log f |})
  | Some (WResolving req ctx k rest sourcesTried) =>
      match rest with
      | [] => Done (set_worker w (WReturning req ctx Exhausted) f)
      | resolver :: rest' =>
          match loop_body (onResolve f) (bool_decide (ctx ∈ cancelled f))
                          req k resolver sourcesTried with
          | Continue sourcesTried' ev =>
              Done (set_worker w (WResolving req ctx (S k) rest' sourcesTried')
                               (add_log ev f))
          | Return o ev =>
              Done (set_worker w (WReturning req ctx o) (add_log ev f))
          end
      end
  | Some (WReturning req ctx o) =>
      (* the deferred function: delete under the lock, then cancel() *)
      Done (set_worker w WReceiving
              (set_registry (delete (Req_InstanceID req) (cancelMap f))
                            (cancelled f ∪ {[ctx]}) f))
  end.

(** The atomic actions of the system. *)
Inductive Action :=
| ActRegister (r : Resolver)
| ActSetCallback
| ActStart
| ActStop
| ActStopClose
| ActStopWait
| ActQueue (req : FetchRequest)
| ActCancel (instanceID : string)
| ActWorker (w : nat).

Definition exec (a : Action) (f : Fetcher) : Outcome :=
  match a with
  | ActRegister r => Done (RegisterResolver r f)
  | ActSetCallback => Done (SetOnResolveCallback f)
  | ActStart => Done (Start f)
  | ActStop => Done (snd (Stop_locked f))
  | ActStopClose => Stop_close f
  | ActStopWait => Stop_wait f
  | ActQueue req =>
      match Queue req f with
      | QueueReturns _ f' => Done f'
      | QueuePanics msg => Panic msg
      end
  | ActCancel id => Done (Cancel id f)
  | ActWorker w => worker_step w f
  end.

(** Running a schedule from a state. *)
Fixpoint run (tr : list Action) (f : Fetcher) : Outcome :=
  match tr with
  | [] => Done f
  | a :: tr' =>
      match exec a f with
      | Done f' => run tr' f'
      | other => other
      end
  end.

(** The states a fetcher created by [NewFetcher] reaches, with the
    schedule that leads there. *)
Definition reaches (n : Z) (tr : list Action) (f : Fetcher) : Prop :=
  run tr (NewFetcher n) = Done f.

(** Where the fetcher stands in its life cycle, read off the calls made
    so far: before [Start], running, or after [Stop]. *)
Inductive Phase := BeforeStart | Running | AfterStop.

Definition phase_step (ph : Phase) (a : Action) : Phase :=
  match a, ph with
  | ActStart, _ => Running
  | ActStop, Running => AfterStop
  | _, _ => ph
  end.

Definition lifecycle (tr : list Action) : Phase :=
  fold_left phase_step tr BeforeStart.

(** A schedule in which [Start] is called on a fetcher that was stopped
    before. *)
Fixpoint restarts_from (ph : Phase) (tr : list Action) : bool :=
  match tr with
  | [] => false
  | a :: tr' =>
      match a, ph with
      | ActStart, AfterStop => true
      | _, _ => restarts_from (phase_step ph a) tr'
      end
  end.

Definition restarts (tr : list Action) : bool := restarts_from BeforeStart tr.

(** A worker that is inside [processRequest] for instance [id], between
    the registration of its handle and the end of its deferred function. *)
Definition in_flight (id : string) (w : Worker) : Prop :=
  match w with
  | WResolving req _ _ _ _ | WReturning req _ _ => Req_InstanceID req = id
  | _ => False
  end.

(** The value of the running flag in each phase. *)
Definition running_phase (ph : Phase) : bool :=
  match ph with Running => true | _ => false end.

(** The channel is open, with no [Stop] on its way to close it, in every
    phase before [Stop]; and it holds no more than its capacity. *)
Definition queue_open (ph : Phase) (f : Fetcher) : Prop :=
  (ph <> AfterStop -> closing f = 0%nat /\ queue_closed f = false)
  /\ (length (queue f) <= queue_capacity)%nat.

(** A worker whose [processRequest] owns the context [ctx]. *)
Definition holds (ctx : nat) (w : Worker) : Prop :=
  match w with
  | WResolving _ c _ _ _ | WReturning _ c _ => c = ctx
  | _ => False
  end.

(** The invariant of the registry:
    - every handle in it is live (its context is not cancelled) and is
      owned by a worker that is processing that instance;
    - the contexts owned by workers have been created, each by one worker;
    - the cancelled contexts have been created. *)
Record registry_invariant (f : Fetcher) : Prop := {
  inv_handle : forall id ctx, cancelMap f !! id = Some ctx ->
    (ctx ∉ cancelled f)
    /\ exists w wk, pool f !! w = Some wk /\ in_flight id wk /\ holds ctx wk;
  inv_fresh : forall w wk ctx, pool f !! w = Some wk -> holds ctx wk ->
    (ctx < next_ctx f)%nat;
  inv_owner : forall w1 w2 wk1 wk2 ctx,
    pool f !! w1 = Some wk1 -> pool f !! w2 = Some wk2 ->
    holds ctx wk1 -> holds ctx wk2 -> w1 = w2;
  inv_cancelled : forall ctx, ctx ∈ cancelled f -> (ctx < next_ctx f)%nat
}.

(** [LocalCacheResolver]. *)
Definition LocalCacheResolver : Resolver :=
  {| Name := "local_cache";
     Supports := fun _ _ => true;
     Resolve := fun _ =>
       Err (errorString "local cache only provides fallback data") |}.

(** A resolver that supports every request and answers with the given
    metadata, standing for a catalogue that knows the game. *)
Definition catalogue (name : string) (answer : ResolvedMetadata) : Resolver :=
  {| Name := name; Supports := fun _ _ => true; Resolve := fun _ => Ok answer |}.

(** The events of a log that are calls of [Resolve]. *)
Definition is_resolve (ev : Event) : bool :=
  match ev with EvResolve _ _ => true | EvCallback _ _ _ => false end.

(** Metadata with only a name. *)
Definition named (name : string) : ResolvedMetadata :=
  {| Meta_Name := name; Meta_Description := EmptyString; Meta_ArtURLs := [] |}.

(** A request of the kind [queueMetadataFetch] builds. *)
Definition rom_request (instanceID name platform : string) : FetchRequest :=
  {| Req_GameID := "game-" +:+ instanceID; Req_InstanceID := instanceID;
     Req_Priority := 1; Req_Platforms := [platform]; Req_Name := name;
     Req_FileHash := EmptyString; Req_Source := "emulated";
     Req_Platform := platform |}.

End Metadata.
Export Metadata.

(** ** [games]: activity-based process monitoring *)

Module Games.
Import GoStrings.

(** What the process library reports about one host process. *)
Record Process := {
  Exe : result string;
  Cmdline : result string
}.

(** [normalizeWinePath]. *)
Definition normalizeWinePath (path : string) : string :=
  let path :=
    match path with
    | String _ (String c rest) =>
        if (2 <? String.length path)%nat && Ascii.eqb c ":" then rest else path
    | _ => path
    end in
  ReplaceAll path (String backslash EmptyString) "/".

Fixpoint scan_processes (installPath : string) (ps : list Process) : bool :=
  match ps with
  | [] => false
  | p :: ps' =>
      match Exe p with
      | Ok exe => HasPrefix exe installPath
      | Err _ => false
      end
      || match Cmdline p with
         | Ok cmdline => Contains (normalizeWinePath cmdline) installPath
         | Err _ => false
         end
      || scan_processes installPath ps'
  end.

(** [isProcessRunningInPath], on the process table the host reports. *)
Definition isProcessRunningInPath (installPath : string)
    (processes : result (list Process)) : result bool :=
  match processes with
  | Err err => Err err
  | Ok ps => Ok (scan_processes installPath ps)
  end.

(** [emitLaunchStatus]: nothing is emitted when [application.Get()] is
    nil. *)
Definition emitLaunchStatus (app : bool) (instanceID gameID : string)
    (status : LaunchStatus) (errMsg : string) : list LaunchStatusUpdate :=
  if app then
    [ {| Update_InstanceID := instanceID; Update_GameID := gameID;
         Update_Status := status; Update_Error := errMsg |} ]
  else [].

(** [time.Duration] and monotonic clock readings, in nanoseconds. *)
Definition Second : Z := 1000000000.
Definition stopThreshold : Z := 10 * Second.

(** One delivery of the ticker: the process table found by the probe and
    the clock reading of that iteration. *)
Record Tick := {
  tick_processes : result (list Process);
  tick_now : Z
}.

Record MonitorState := {
  lastSeenRunning : Z;
  hasBeenRunning : bool
}.

Definition monitor_init : MonitorState :=
  {| lastSeenRunning := 0; hasBeenRunning := false |}.

(** The body of the ticker loop: the new state, the events emitted, and
    whether the function returns. *)
Definition monitor_tick (app : bool) (instance : GameInstance)
    (st : MonitorState) (t : Tick) : MonitorState * list LaunchStatusUpdate * bool :=
  match isProcessRunningInPath (Instance_InstallPath instance) (tick_processes t) with
  | Err _ => (st, [], false)
  | Ok running =>
      if running then
        ({| lastSeenRunning := tick_now t; hasBeenRunning := true |},
         if negb (hasBeenRunning st)
         then emitLaunchStatus app (Instance_ID instance) (Instance_GameID instance)
                               LaunchStatusRunning EmptyString
         else [],
         false)
      else if hasBeenRunning st && (stopThreshold <? tick_now t - lastSeenRunning st)%Z
      then (st,
            emitLaunchStatus app (Instance_ID instance) (Instance_GameID instance)
                             LaunchStatusStopped EmptyString,
            true)
      else (st, [], false)
  end.

Fixpoint monitor_loop (app : bool) (instance : GameInstance)
    (st : MonitorState) (ticks : list Tick) : list LaunchStatusUpdate * bool :=
  match ticks with
  | [] => ([], false)
  | t :: ticks' =>
      let '(st', ev, returned) := monitor_tick app instance st t in
      if returned then (ev, true)
      else let '(ev', r) := monitor_loop app instance st' ticks' in (ev ++ ev', r)
  end.

(** [monitorGameProcess] over the ticks the ticker delivers: the events
    emitted and whether the function has returned by the end of them. *)
Definition monitorGameProcess (app : bool) (instance : GameInstance)
    (ticks : list Tick) : list LaunchStatusUpdate * bool :=
  monitor_loop app instance monitor_init ticks.

(** The ticks of an ideal one-second ticker started at time [t0]: the
    [k]-th probe finds [probes !! k] at time [t0 + (first + k)] seconds. *)
Fixpoint ticks_from (t0 : Z) (first : Z) (probes : list (result (list Process)))
  : list Tick :=
  match probes with
  | [] => []
  | p :: probes' =>
      {| tick_processes := p; tick_now := t0 + first * Second |}
      :: ticks_from t0 (first + 1) probes'
  end.

Definition detected (installPath : string) (p : result (list Process)) : Prop :=
  isProcessRunningInPath installPath p = Ok true.

Definition undetected (installPath : string) (p : result (list Process)) : Prop :=
  isProcessRunningInPath installPath p = Ok false.

(** The update [emitLaunchStatus] sends for an instance. *)
Definition status_update (instance : GameInstance) (status : LaunchStatus)
  : LaunchStatusUpdate :=
  {| Update_InstanceID := Instance_ID instance;
     Update_GameID := Instance_GameID instance;
     Update_Status := status; Update_Error := EmptyString |}.

(** A process table with the game's executable under the install path, and
    one without it. *)
Definition game_process (exe : string) : Process :=
  {| Exe := Ok exe; Cmdline := Ok exe |}.

End Games.
Export Games.

(** ** Vocabulary of the command-builder properties *)

Module CommandText.
Import GoStrings.

(** A rune [%q] prints as itself: printable ASCII or a byte of a multi-byte
    rune, other than the double quote and the backslash. *)
Definition plain_rune (c : ascii) : bool :=
  let n := N_of_ascii c in
  (32 <=? n)%N && negb (n =? 34)%N && negb (n =? 92)%N && negb (n =? 127)%N.

Fixpoint all_runes (ok : ascii -> bool) (s : string) : bool :=
  match s with
  | EmptyString => true
  | String c s' => ok c && all_runes ok s'
  end.

(** A path made of such runes. *)
Definition plain (s : string) : bool := all_runes plain_rune s.

(** A text without quote characters and without an opening brace: it
    neither opens a quoted span nor forms a placeholder. *)
Definition inert_rune (c : ascii) : bool :=
  negb (Ascii.eqb c dquote) && negb (Ascii.eqb c squote) && negb (Ascii.eqb c "{").

Definition inert (s : string) : bool := all_runes inert_rune s.

End CommandText.
Export CommandText.

(** ** Vocabulary of the resolution properties *)

Module Resolution.

(** The override names an emulator that is missing or not available. *)
Definition override_emulator_unavailable (db : DB) (s : InstanceEmulatorSettings)
  : bool :=
  match GetEmulator db (Settings_EmulatorID s) with
  | Ok e => negb (Emulator_IsAvailable e)
  | Err _ => true
  end.

(** The override names a core whose record is marked not available. *)
Definition override_core_unavailable (db : DB) (s : InstanceEmulatorSettings)
  : bool :=
  negb (String.eqb (Settings_CoreID s) EmptyString) &&
  match GetCore db (Settings_EmulatorID s) (Settings_CoreID s) with
  | Ok c => negb (Core_IsAvailable c)
  | Err _ => false
  end.

(** An instance override exists and names an available emulator and no
    unavailable core. *)
Definition override_in_effect (db : DB) (instance : GameInstance) : bool :=
  match GetInstanceEmulatorSettings db (Instance_ID instance) with
  | Err _ => false
  | Ok s => negb (override_emulator_unavailable db s || override_core_unavailable db s)
  end.

(** The message names the platform. *)
Definition mentions (msg platform : string) : Prop :=
  exists before after, msg = before +:+ platform +:+ after.


End Resolution.
Export Resolution.

(** ** The seed data of the repository, as a database *)

Module Seed.

Definition seed_emulator (id display flatpak template defaults : string)
    (platforms : list string) (available : bool) : Emulator :=
  {| Emulator_ID := id; Emulator_Name := id; Emulator_DisplayName := display;
     Emulator_Type := EmulatorTypeFlatpak; Emulator_ExecutablePath := EmptyString;
     Emulator_FlatpakID := flatpak; Emulator_CommandTemplate := template;
     Emulator_DefaultArgs := defaults; Emulator_SupportedPlatforms := platforms;
     Emulator_IsAvailable := available;
     Emulator_CreatedAt := 0; Emulator_UpdatedAt := 0 |}.

(** [DefaultEmulators()], with the availability found by discovery. *)
Definition retroarch (available : bool) : Emulator :=
  seed_emulator "retroarch" "RetroArch" "org.libretro.RetroArch"
    "flatpak run {flatpak_id} -L {core_lib_path} {args} {rom}" "--fullscreen"
    [] available.
Definition nestopia (available : bool) : Emulator :=
  seed_emulator "nestopia" "Nestopia UE" "ca._0ldsk00l.Nestopia"
    "flatpak run {flatpak_id} {args} {rom}" "--fullscreen" ["nes"] available.
Definition dolphin (available : bool) : Emulator :=
  seed_emulator "dolphin" "Dolphin" "org.DolphinEmu.dolphin-emu"
    "flatpak run {flatpak_id} {args} {rom}" "-b -e" ["wii"; "gamecube"] available.

Definition seed_core (id coreID display platform : string) (available : bool)
  : EmulatorCore :=
  {| Core_ID := id; Core_EmulatorID := "retroarch"; Core_CoreID := coreID;
     Core_DisplayName := display; Core_SupportedPlatforms := [platform];
     Core_IsAvailable := available |}.

(** [DefaultCores()]. *)
Definition mesen := seed_core "retroarch_mesen" "mesen_libretro" "Mesen" "nes".
Definition nestopia_core :=
  seed_core "retroarch_nestopia" "nestopia_libretro" "Nestopia" "nes".
Definition snes9x := seed_core "retroarch_snes9x" "snes9x_libretro" "Snes9x" "snes".
Definition bsnes := seed_core "retroarch_bsnes" "bsnes_libretro" "bsnes" "snes".

Definition mapping (id platform emulatorID coreID : string) (isDefault : bool)
  : PlatformEmulatorRow :=
  {| pe_id := id; pe_platform := platform; pe_emulator_id := emulatorID;
     pe_core_id := coreID; pe_is_default := isDefault; pe_priority := 0 |}.

(** The rows [regeneratePlatformMappings] writes for the seed data, the
    defaults being those of [DefaultEmulatorsByPlatform]. *)
Definition seed_mappings : list PlatformEmulatorRow :=
  [ mapping "nes_nestopia" "nes" "nestopia" EmptyString false;
    mapping "wii_dolphin" "wii" "dolphin" EmptyString true;
    mapping "gamecube_dolphin" "gamecube" "dolphin" EmptyString false;
    mapping "nes_retroarch_mesen_libretro" "nes" "retroarch" "mesen_libretro" true;
    mapping "nes_retroarch_nestopia_libretro" "nes" "retroarch" "nestopia_libretro" false;
    mapping "snes_retroarch_snes9x_libretro" "snes" "retroarch" "snes9x_libretro" true;
    mapping "snes_retroarch_bsnes_libretro" "snes" "retroarch" "bsnes_libretro" false ].

(** The seeded database on a host where the listed emulators and cores
    were found, with the given instance overrides. *)
Definition seed_db (emus cores : list string)
    (overrides : list InstanceEmulatorSettings) : DB :=
  let emu_found id := existsb (String.eqb id) emus in
  let core_found id := existsb (String.eqb id) cores in
  {| emulators := [ retroarch (emu_found "retroarch");
                    nestopia (emu_found "nestopia");
                    dolphin (emu_found "dolphin") ];
     emulator_cores := [ mesen (core_found "mesen_libretro");
                         nestopia_core (core_found "nestopia_libretro");
                         snes9x (core_found "snes9x_libretro");
                         bsnes (core_found "bsnes_libretro") ];
     platform_emulators := seed_mappings;
     instance_emulator_settings := overrides;
     conn_err := None |}.

Definition rom_instance (id platform path : string) : GameInstance :=
  {| Instance_ID := id; Instance_GameID := "game-" +:+ id;
     Instance_Source := "emulated"; Instance_Platform := platform;
     Instance_Path := path; Instance_InstallPath := EmptyString |}.

Definition override (instanceID emulatorID coreID : string)
  : InstanceEmulatorSettings :=
  {| Settings_InstanceID := instanceID; Settings_EmulatorID := emulatorID;
     Settings_CoreID := coreID; Settings_CustomArgs := EmptyString |}.

End Seed.


(** ** Vocabulary of the resolver-chain properties *)

Module ChainLog.

(** The positions of the [Resolve] calls of a log, in order. *)
Fixpoint resolve_positions (log : list Event) : list nat :=
  match log with
  | [] => []
  | EvResolve i _ :: log' => i :: resolve_positions log'
  | EvCallback _ _ _ :: log' => resolve_positions log'
  end.

(** The callbacks of a log. *)
Definition callbacks (log : list Event) : list Event :=
  List.filter (fun ev => negb (is_resolve ev)) log.

(** The calls of [Resolve] on the resolvers that support the request, from
    position [k] on. *)
Fixpoint supported_calls (req : FetchRequest) (k : nat) (rs : list Resolver)
  : list Event :=
  match rs with
  | [] => []
  | r :: rs' =>
      (if Supports r (Req_Source req) (Req_Platform req)
       then [EvResolve k (Name r)] else [])
      ++ supported_calls req (S k) rs'
  end.

(** The resolver supports the request and its [Resolve] succeeds. *)
Definition succeeds (req : FetchRequest) (r : Resolver) : bool :=
  Supports r (Req_Source req) (Req_Platform req) &&
  match Resolve r req with Ok _ => true | Err _ => false end.

(** Strictly increasing positions. *)
Fixpoint increasing_from (lo : nat) (l : list nat) : Prop :=
  match l with
  | [] => True
  | i :: l' => (lo <= i)%nat /\ increasing_from (S i) l'
  end.

End ChainLog.
Export ChainLog.


(** ** Observers of a schedule of the fetcher *)

Module QueueTrace.

(** The requests for which [Queue] returned nil along the schedule [tr]
    run from [f], in the order of the calls. *)
Fixpoint accepted (tr : list Action) (f : Fetcher) : list FetchRequest :=
  match tr with
  | [] => []
  | a :: tr' =>
      match exec a f with
      | Done f' =>
          match a with
          | ActQueue req =>
              match Queue req f with
              | QueueReturns None _ => [req]
              | _ => []
              end
          | _ => []
          end ++ accepted tr' f'
      | _ => []
      end
  end.

(** The requests the workers received from the channel along the
    schedule, in the order of the receives. *)
Fixpoint received (tr : list Action) (f : Fetcher) : list FetchRequest :=
  match tr with
  | [] => []
  | a :: tr' =>
      match exec a f with
      | Done f' =>
          match a with
          | ActWorker w =>
              match pool f !! w, queue f with
              | Some WReceiving, req :: _ => [req]
              | _, _ => []
              end
          | _ => []
          end ++ received tr' f'
      | _ => []
      end
  end.

(** The worker count [NewFetcher] stores for the argument [n]. *)
Definition worker_count (n : Z) : nat := Z.to_nat (workers (NewFetcher n)).

(** Once some worker has exited, the channel is closed and empty. *)
Definition drained_after_exit (f : Fetcher) : Prop :=
  (exists w, pool f !! w = Some WExited) -> queue f = [] /\ queue_closed f = true.

(** The worker count is positive, and the pool is not empty while the
    fetcher runs or a [Stop] is under way. *)
Definition pool_started (f : Fetcher) : Prop :=
  (0 < workers f)%Z
  /\ (isRunning f = true \/ (0 < closing f)%nat \/ (0 < waiting f)%nat ->
      (0 < length (pool f))%nat).

End QueueTrace.
Export QueueTrace.


(** ** [emulated]: the availability flag and the launch of a ROM *)

Module Emulated.

(** The flag one pass of the loop of [populateEmulatorAvailabilityCache]
    stores for a platform. *)
Definition platform_has_emulator (db : DB) (platform : string) : bool :=
  match GetDefaultEmulatorForPlatform db platform true with
  | Ok _ => true
  | Err _ =>
      match GetAvailableEmulatorsForPlatform db platform with
      | Ok (_ :: _) => true
      | _ => false
      end
  end.

(** [populateEmulatorAvailabilityCache]; [emuService] is [None] for a nil
    service, [platforms] lists the keys of [s.platforms] in the order the
    [range] visits them, and a nil cache is the empty map. *)
Definition populateEmulatorAvailabilityCache (emuService : option DB)
    (platforms : list string) (cache : gmap string bool) : gmap string bool :=
  match emuService with
  | None => cache
  | Some db =>
      fold_left (fun c platform => <[platform := platform_has_emulator db platform]> c)
                platforms cache
  end.

(** [getEmulatorAvailabilityForPlatform]. *)
Definition getEmulatorAvailabilityForPlatform (cache : gmap string bool)
    (emuService : option DB) (platform : string) : bool :=
  match cache !! platform with
  | Some available => available
  | None =>
      match emuService with
      | Some db =>
          match GetAvailableEmulatorsForPlatform db platform with
          | Ok (_ :: _) => true
          | _ => false
          end
      | None => false
      end
  end.

(** How far [Launch] gets before it starts the process: it returns an
    error, it panics on [cmd[0]], or it reaches
    [exec.Command(cmd[0], cmd[1:]...)]. *)
Inductive LaunchPlan :=
| LaunchError (err : error)
| LaunchPanics (msg : string)
| LaunchExec (name : string) (arguments : list string).

Section Launch.
Variable coreLibraryPath : string -> string.

(** [Launch] up to [exec.Command]; the log calls are left out.
    [ResolveEmulator] returns no nil emulator without an error, so the
    check [emu == nil] has no case here. *)
Definition Launch (emuService : option DB) (instance : GameInstance) : LaunchPlan :=
  match emuService with
  | None => LaunchError (errorString "emulator service not configured")
  | Some db =>
      match ResolveEmulator db instance with
      | Err err =>
          LaunchError (Errorf_w ("no emulator available for "
                                 +:+ Instance_Platform instance +:+ ": ") err)
      | Ok (emu, core) =>
          if negb (Emulator_IsAvailable emu) then
            LaunchError (errorString ("emulator " +:+ Emulator_DisplayName emu
                                      +:+ " is not installed"))
          else
            let customArgs :=
              match GetInstanceEmulatorSettings db (Instance_ID instance) with
              | Ok settings => Settings_CustomArgs settings
              | Err _ => EmptyString
              end in
            match BuildCommand coreLibraryPath (Some emu) core
                               (Instance_Path instance) customArgs with
            | Err err => LaunchError (Errorf_w "failed to build emulator command: " err)
            | Ok [] => LaunchPanics "index out of range [0] with length 0"
            | Ok (name :: arguments) => LaunchExec name arguments
            end
      end
  end.
End Launch.

(** A rune that opens a word of a command template: no space, no quote
    character and no opening brace. *)
Definition word_rune (c : ascii) : bool :=
  inert_rune c && negb (Ascii.eqb c GoStrings.space).

(** The command line [BuildCommand] hands to the parser for an available
    emulator. *)
Definition joined_args (defaults customArgs : string) : string :=
  if negb (String.eqb customArgs EmptyString) then
    if negb (String.eqb defaults EmptyString)
    then defaults +:+ " " +:+ customArgs
    else customArgs
  else defaults.

End Emulated.
Export Emulated.


(** ** [emulator]: discovery of the installed emulators and cores *)

Module Discovery.

Definition set_emulator_available (e : Emulator) (available : bool) : Emulator :=
  {| Emulator_ID := Emulator_ID e;
     Emulator_Name := Emulator_Name e;
     Emulator_DisplayName := Emulator_DisplayName e;
     Emulator_Type := Emulator_Type e;
     Emulator_ExecutablePath := Emulator_ExecutablePath e;
     Emulator_FlatpakID := Emulator_FlatpakID e;
     Emulator_CommandTemplate := Emulator_CommandTemplate e;
     Emulator_DefaultArgs := Emulator_DefaultArgs e;
     Emulator_SupportedPlatforms := Emulator_SupportedPlatforms e;
     Emulator_IsAvailable := available;
     Emulator_CreatedAt := Emulator_CreatedAt e;
     Emulator_UpdatedAt := Emulator_UpdatedAt e |}.

Definition set_core_available (c : EmulatorCore) (available : bool) : EmulatorCore :=
  {| Core_ID := Core_ID c; Core_EmulatorID := Core_EmulatorID c;
     Core_CoreID := Core_CoreID c; Core_DisplayName := Core_DisplayName c;
     Core_SupportedPlatforms := Core_SupportedPlatforms c;
     Core_IsAvailable := available |}.

Definition set_emulators (l : list Emulator) (db : DB) : DB :=
  {| emulators := l; emulator_cores := emulator_cores db;
     platform_emulators := platform_emulators db;
     instance_emulator_settings := instance_emulator_settings db;
     conn_err := conn_err db |}.

Definition set_emulator_cores (l : list EmulatorCore) (db : DB) : DB :=
  {| emulators := emulators db; emulator_cores := l;
     platform_emulators := platform_emulators db;
     instance_emulator_settings := instance_emulator_settings db;
     conn_err := conn_err db |}.

(** [SELECT ... FROM emulators]. *)
Definition GetEmulators (db : DB) : result (list Emulator) :=
  match conn_err db with
  | Some e => Err e
  | None => Ok (emulators db)
  end.

(** [GetEmulatorCores(emulatorID)]: every core for the empty id, else
    [WHERE emulator_id = ?]. *)
Definition GetEmulatorCores (db : DB) (emulatorID : string) : result (list EmulatorCore) :=
  match conn_err db with
  | Some e => Err e
  | None =>
      Ok (if String.eqb emulatorID EmptyString then emulator_cores db
          else List.filter (fun c => String.eqb (Core_EmulatorID c) emulatorID)
                           (emulator_cores db))
  end.

(** [UPDATE emulators SET is_available = ? WHERE id = ?]; the callers drop
    the error, so only the table is returned. *)
Definition UpdateEmulatorAvailability (db : DB) (id : string) (available : bool) : DB :=
  match conn_err db with
  | Some _ => db
  | None =>
      set_emulators
        (List.map (fun e => if String.eqb (Emulator_ID e) id
                            then set_emulator_available e available else e)
                  (emulators db)) db
  end.

(** [UPDATE emulator_cores SET is_available = ? WHERE id = ?]. *)
Definition UpdateEmulatorCoreAvailability (db : DB) (id : string) (available : bool)
  : DB :=
  match conn_err db with
  | Some _ => db
  | None =>
      set_emulator_cores
        (List.map (fun c => if String.eqb (Core_ID c) id
                            then set_core_available c available else c)
                  (emulator_cores db)) db
  end.

Section Host.
(** What the host answers: whether [flatpak info id] exits with 0, whether
    [exec.LookPath] finds the executable, and whether [os.Stat] finds the
    library of a core in the cores directory of RetroArch. *)
Variable flatpak_info : string -> bool.
Variable LookPath : string -> bool.
Variable core_file : string -> bool.

Definition checkFlatpakInstalled (flatpakID : string) : bool :=
  if String.eqb flatpakID EmptyString then false else flatpak_info flatpakID.

Definition checkNativeInstalled (executablePath : string) : bool :=
  if String.eqb executablePath EmptyString then false else LookPath executablePath.

(** The value of [available] in the loop of [DiscoverAvailable]. *)
Definition host_has (emu : Emulator) : bool :=
  if String.eqb (Emulator_Type emu) EmulatorTypeFlatpak
  then checkFlatpakInstalled (Emulator_FlatpakID emu)
  else if String.eqb (Emulator_Type emu) EmulatorTypeNative
  then checkNativeInstalled (Emulator_ExecutablePath emu)
  else false.

(** The loop over the emulators read at the start: the database and the
    slice are both updated. *)
Fixpoint discover_emulators (emulators : list Emulator) (db : DB)
  : DB * list Emulator :=
  match emulators with
  | [] => (db, [])
  | emu :: rest =>
      let available := host_has emu in
      let '(db1, emu1) :=
        if negb (Bool.eqb available (Emulator_IsAvailable emu))
        then (UpdateEmulatorAvailability db (Emulator_ID emu) available,
              set_emulator_available emu available)
        else (db, emu) in
      let '(db2, rest') := discover_emulators rest db1 in
      (db2, emu1 :: rest')
  end.

(** [getEmulatorByID]. *)
Definition getEmulatorByID (emulators : list Emulator) (id : string) : option Emulator :=
  List.find (fun e => String.eqb (Emulator_ID e) id) emulators.

Fixpoint discover_cores (cores : list EmulatorCore) (db : DB) : DB :=
  match cores with
  | [] => db
  | core :: rest =>
      let available := core_file (Core_CoreID core) in
      discover_cores rest
        (if negb (Bool.eqb available (Core_IsAvailable core))
         then UpdateEmulatorCoreAvailability db (Core_ID core) available
         else db)
  end.

(** [discoverRetroArchCores]. *)
Definition discoverRetroArchCores (db : DB) : DB :=
  match GetEmulatorCores db "retroarch" with
  | Err _ => db
  | Ok cores => discover_cores cores db
  end.

(** [DiscoverAvailable]: the error it returns and the database it
    leaves. *)
Definition DiscoverAvailable (db : DB) : option error * DB :=
  match GetEmulators db with
  | Err err => (Some (Errorf_w "failed to get emulators: " err), db)
  | Ok emulators =>
      let '(db1, emulators') := discover_emulators emulators db in
      (None,
       match getEmulatorByID emulators' "retroarch" with
       | Some retroarch =>
           if Emulator_IsAvailable retroarch then discoverRetroArchCores db1 else db1
       | None => db1
       end)
  end.

(** The tables a discovery is expected to leave: every emulator carries
    the answer of the host, and so does every core of RetroArch when
    RetroArch itself was found. *)
Definition found_emulators (db : DB) : list Emulator :=
  List.map (fun e => set_emulator_available e (host_has e)) (emulators db).

Definition found_core (c : EmulatorCore) : EmulatorCore :=
  if String.eqb (Core_EmulatorID c) "retroarch"
  then set_core_available c (core_file (Core_CoreID c)) else c.

Definition retroarch_found (db : DB) : bool :=
  existsb (fun e => String.eqb (Emulator_ID e) "retroarch" && host_has e) (emulators db).

Definition discovered (db : DB) : DB :=
  {| emulators := found_emulators db;
     emulator_cores := if retroarch_found db
                       then List.map found_core (emulator_cores db)
                       else emulator_cores db;
     platform_emulators := platform_emulators db;
     instance_emulator_settings := instance_emulator_settings db;
     conn_err := conn_err db |}.

End Host.

(** The primary keys of the two tables. *)
Definition emulator_ids (db : DB) : list string := List.map Emulator_ID (emulators db).
Definition core_ids (db : DB) : list string := List.map Core_ID (emulator_cores db).

End Discovery.
Export Discovery.


(** ** [igdb]: the resolver behind the catalogue, and the resolvers the
       service registers *)

Module IGDB.

(** [PlatformIDs]. *)
Definition PlatformIDs : gmap string Z :=
  list_to_map
    [ ("nes", 18%Z); ("snes", 19%Z); ("n64", 4%Z); ("gamecube", 21%Z);
      ("wii", 5%Z); ("ps1", 7%Z); ("ps2", 8%Z); ("genesis", 29%Z);
      ("saturn", 32%Z); ("dreamcast", 23%Z); ("gba", 24%Z); ("nds", 20%Z);
      ("3ds", 37%Z); ("psp", 38%Z) ].

Section Resolver.
(** [strings.ToLower], and what [Resolve] builds from the answers of the
    IGDB client once the platform id is known: [SearchGame] and the calls
    that follow it go to the network. *)
Variable ToLower : string -> string.
Variable remote : FetchRequest -> Z -> result ResolvedMetadata.

(** [Resolver.Supports]. *)
Definition Supports (source platform : string) : bool :=
  if negb (String.eqb source "emulated") then false
  else match PlatformIDs !! ToLower platform with
       | Some _ => true
       | None => false
       end.

(** [Resolver.Resolve]: the platform lookup, then the client. *)
Definition Resolve (req : FetchRequest) : result ResolvedMetadata :=
  match PlatformIDs !! ToLower (Req_Platform req) with
  | None => Err (errorString ("unsupported platform: " +:+ Req_Platform req))
  | Some platformID => remote req platformID
  end.

Definition Resolver : Metadata.Resolver :=
  {| Metadata.Name := "igdb";
     Metadata.Supports := Supports;
     Metadata.Resolve := Resolve |}.

(** The resolvers [NewGamesService] registers, in order: the local cache,
    then IGDB when both credentials are set. *)
Definition service_resolvers (credentials : bool) : list Metadata.Resolver :=
  LocalCacheResolver :: (if credentials then [Resolver] else []).

End Resolver.

End IGDB.


(** ** [database]: choosing the default emulator of a platform *)

Module PlatformDefault.

Definition set_is_default (pe : PlatformEmulatorRow) (isDefault : bool)
  : PlatformEmulatorRow :=
  {| pe_id := pe_id pe; pe_platform := pe_platform pe;
     pe_emulator_id := pe_emulator_id pe; pe_core_id := pe_core_id pe;
     pe_is_default := isDefault; pe_priority := pe_priority pe |}.

Definition set_platform_emulators (l : list PlatformEmulatorRow) (db : DB) : DB :=
  {| emulators := emulators db; emulator_cores := emulator_cores db;
     platform_emulators := l;
     instance_emulator_settings := instance_emulator_settings db;
     conn_err := conn_err db |}.

(** [UPDATE platform_emulators SET is_default = 0 WHERE platform = ?]. *)
Definition clear_default (platform : string) (pe : PlatformEmulatorRow)
  : PlatformEmulatorRow :=
  if String.eqb (pe_platform pe) platform then set_is_default pe false else pe.

(** [UPDATE platform_emulators SET is_default = 1
     WHERE platform = ? AND emulator_id = ? AND core_id = ?]. *)
Definition mark_default (platform emulatorID coreID : string)
    (pe : PlatformEmulatorRow) : PlatformEmulatorRow :=
  if String.eqb (pe_platform pe) platform
     && String.eqb (pe_emulator_id pe) emulatorID
     && String.eqb (pe_core_id pe) coreID
  then set_is_default pe true else pe.

(** [SetPlatformDefaultEmulator]: the error returned and the database
    left. *)
Definition SetPlatformDefaultEmulator (db : DB) (platform emulatorID coreID : string)
  : option error * DB :=
  match conn_err db with
  | Some err => (Some err, db)
  | None =>
      let db1 := set_platform_emulators
                   (List.map (clear_default platform) (platform_emulators db)) db in
      (None,
       set_platform_emulators
         (List.map (mark_default platform emulatorID coreID) (platform_emulators db1))
         db1)
  end.

(** The platform has a mapping for the pair. *)
Definition mapped (db : DB) (platform emulatorID coreID : string) : bool :=
  existsb (fun pe => String.eqb (pe_platform pe) platform
                     && String.eqb (pe_emulator_id pe) emulatorID
                     && String.eqb (pe_core_id pe) coreID)
          (platform_emulators db).

End PlatformDefault.
Export PlatformDefault.


(** ** Vocabulary of the round trips through the command parser *)

Module CommandWords.





End CommandWords.
Export CommandWords.


(** ** Where a delivered callback comes from *)

Module Provenance.

(** A worker that has received the request and has not finished with
    it. *)
Definition processing (req : FetchRequest) (w : Worker) : Prop :=
  match w with
  | WStarting r | WResolving r _ _ _ _ | WReturning r _ _ => r = req
  | _ => False
  end.

(** Some resolver of the list goes by the name, supports the request and
    answers it with the metadata. *)
Definition answered_by (rs : list Resolver) (req : FetchRequest)
    (resolved : ResolvedMetadata) (name : string) : Prop :=
  exists r, In r rs /\ Name r = name
            /\ Supports r (Req_Source req) (Req_Platform req) = true
            /\ Resolve r req = Ok resolved.

(** The request is in the fetcher: in a delivered callback, with a worker,
    or in the channel. *)
Definition origin (f : Fetcher) (req : FetchRequest) : Prop :=
  (exists resolved name, In (EvCallback req resolved name) (log f))
  \/ (exists w wk, pool f !! w = Some wk /\ processing req wk)
  \/ In req (queue f).

(** The resolvers a worker still has to try are registered, and so is the
    resolver behind every delivered callback. *)
Definition resolvers_registered (f : Fetcher) : Prop :=
  (forall w req ctx k rest tried,
     pool f !! w = Some (WResolving req ctx k rest tried) ->
     forall r, In r rest -> In r (resolvers f))
  /\ (forall req resolved name,
        In (EvCallback req resolved name) (log f) ->
        answered_by (resolvers f) req resolved name).

End Provenance.
Export Provenance.


(** ** [config]: the configuration manager, as one goroutine uses it *)

Module ConfigManager.

(** [Config], down to its one setting [Filters.Steam.ExcludeTools]. *)
Record Config := { ExcludeTools : bool }.

(** The initial value of the package variable [defaultConfig]. *)
Definition defaultConfig : Config := {| ExcludeTools := true |}.

(** The configuration file: missing, not decodable, or holding an encoded
    [Config]. *)
Inductive FileState :=
| Missing
| Malformed (err : error)
| Holds (c : Config).

(** What the file system answers: the error of [os.MkdirAll] and of
    [os.Create], if any, and the file. *)
Record Disk := {
  mkdir_err : option error;
  create_err : option error;
  file : FileState
}.

(** The process: the package variable [defaultConfig], which [m.data] of
    every manager points to, and the disk. *)
Record Process := {
  data : Config;
  disk : Disk
}.

(** A [sync.RWMutex] used by one goroutine: the read locks it holds and
    whether it holds the write lock. *)
Record RWMutex := {
  readers : nat;
  writer : bool
}.

Definition unlocked : RWMutex := {| readers := 0; writer := false |}.

(** How a call ends: it returns, it blocks for ever, or the runtime stops
    the process with a fatal error. *)
Inductive Outcome (A : Type) :=
| Returns (a : A) (mu : RWMutex) (p : Process)
| Deadlock
| Fatal (msg : string) (p : Process).
Arguments Returns {A} a mu p.
Arguments Deadlock {A}.
Arguments Fatal {A} msg p.

(** [mu.Lock()], [mu.Unlock()], [mu.RLock()] and [mu.RUnlock()]: a lock
    that cannot be taken blocks the goroutine, releasing a lock that is
    not held is fatal. *)
Definition Lock (mu : RWMutex) : option RWMutex :=
  if writer mu || (0 <? readers mu)%nat then None
  else Some {| readers := readers mu; writer := true |}.

Definition Unlock (mu : RWMutex) : result RWMutex :=
  if writer mu then Ok {| readers := readers mu; writer := false |}
  else Err (errorString "sync: Unlock of unlocked RWMutex").

Definition RLock (mu : RWMutex) : option RWMutex :=
  if writer mu then None
  else Some {| readers := S (readers mu); writer := false |}.

Definition RUnlock (mu : RWMutex) : result RWMutex :=
  match readers mu with
  | O => Err (errorString "sync: RUnlock of unlocked RWMutex")
  | S n => Ok {| readers := n; writer := writer mu |}
  end.

Definition set_data (c : Config) (p : Process) : Process :=
  {| data := c; disk := disk p |}.

Definition set_file (s : FileState) (p : Process) : Process :=
  {| data := data p;
     disk := {| mkdir_err := mkdir_err (disk p); create_err := create_err (disk p);
                file := s |} |}.

(** What [toml.DecodeFile(m.path, m.data)] returns on a missing file. *)
Definition ErrNotExist : error := errorString "no such file or directory".

(** [Load]: the read lock, the decoding into [m.data], the deferred
    [RUnlock]. *)
Definition Load (mu : RWMutex) (p : Process) : Outcome (option error) :=
  match RLock mu with
  | None => Deadlock
  | Some mu1 =>
      let '(err, p1) :=
        match file (disk p) with
        | Missing => (Some ErrNotExist, p)
        | Malformed e => (Some e, p)
        | Holds c => (None, set_data c p)
        end in
      match RUnlock mu1 with
      | Err e => Fatal (Error e) p1
      | Ok mu2 => Returns err mu2 p1
      end
  end.

(** [Save]: the write lock, then the file is created and [m.data] is
    encoded into it; the deferred call is [m.mu.RUnlock()]. *)
Definition Save (mu : RWMutex) (p : Process) : Outcome (option error) :=
  match Lock mu with
  | None => Deadlock
  | Some mu1 =>
      let '(err, p1) :=
        match create_err (disk p) with
        | Some e => (Some (Errorf_w "failed to create config file: " e), p)
        | None => (None, set_file (Holds (data p)) p)
        end in
      match RUnlock mu1 with
      | Err e => Fatal (Error e) p1
      | Ok mu2 => Returns err mu2 p1
      end
  end.

(** [Get]. *)
Definition Get (mu : RWMutex) (p : Process) : Outcome Config :=
  match RLock mu with
  | None => Deadlock
  | Some mu1 =>
      match RUnlock mu1 with
      | Err e => Fatal (Error e) p
      | Ok mu2 => Returns (data p) mu2 p
      end
  end.

(** [SetFilters]. *)
Definition SetFilters (filters : Config) (mu : RWMutex) (p : Process)
  : Outcome (option error) :=
  match Lock mu with
  | None => Deadlock
  | Some mu1 =>
      let p1 := set_data filters p in
      match Unlock mu1 with
      | Err e => Fatal (Error e) p1
      | Ok mu2 => Save mu2 p1
      end
  end.

(** [NewManager]: [Ok tt] stands for the manager returned, whose mutex is
    the one of the outcome.  [os.IsNotExist(err)] holds of the error of
    [Load] exactly when the file is missing. *)
Definition NewManager (p : Process) : Outcome (result unit) :=
  match mkdir_err (disk p) with
  | Some e =>
      Returns (Err (Errorf_w "failed to create config directory: " e)) unlocked p
  | None =>
      match Load unlocked p with
      | Deadlock => Deadlock
      | Fatal msg p1 => Fatal msg p1
      | Returns None mu p1 => Returns (Ok tt) mu p1
      | Returns (Some err) mu p1 =>
          match file (disk p) with
          | Missing =>
              match Save mu p1 with
              | Deadlock => Deadlock
              | Fatal msg p2 => Fatal msg p2
              | Returns (Some e) mu2 p2 =>
                  Returns (Err (Errorf_w "failed to save default config: " e)) mu2 p2
              | Returns None mu2 p2 => Returns (Ok tt) mu2 p2
              end
          | _ => Returns (Err (Errorf_w "failed to load config: " err)) mu p1
          end
      end
  end.

(** A process at its start, on a given disk. *)
Definition start (d : Disk) : Process := {| data := defaultConfig; disk := d |}.

(** The calls one goroutine makes on a manager, one after the other. *)
Inductive Call :=
| CallLoad
| CallSave
| CallGet
| CallSetFilters (filters : Config).

Definition call (c : Call) (mu : RWMutex) (p : Process) : Outcome unit :=
  match c with
  | CallLoad =>
      match Load mu p with
      | Returns _ mu1 p1 => Returns tt mu1 p1
      | Deadlock => Deadlock
      | Fatal msg p1 => Fatal msg p1
      end
  | CallSave =>
      match Save mu p with
      | Returns _ mu1 p1 => Returns tt mu1 p1
      | Deadlock => Deadlock
      | Fatal msg p1 => Fatal msg p1
      end
  | CallGet =>
      match Get mu p with
      | Returns _ mu1 p1 => Returns tt mu1 p1
      | Deadlock => Deadlock
      | Fatal msg p1 => Fatal msg p1
      end
  | CallSetFilters filters =>
      match SetFilters filters mu p with
      | Returns _ mu1 p1 => Returns tt mu1 p1
      | Deadlock => Deadlock
      | Fatal msg p1 => Fatal msg p1
      end
  end.

Fixpoint calls (cs : list Call) (mu : RWMutex) (p : Process) : Outcome unit :=
  match cs with
  | [] => Returns tt mu p
  | c :: cs' =>
      match call c mu p with
      | Returns _ mu1 p1 => calls cs' mu1 p1
      | other => other
      end
  end.

(** The calls that end in [Save]. *)
Definition saves (c : Call) : bool :=
  match c with
  | CallSave | CallSetFilters _ => true
  | CallLoad | CallGet => false
  end.

End ConfigManager.


(** ** Vocabulary of the order of the fallback candidates *)

Module FallbackOrder.



End FallbackOrder.
Export FallbackOrder.

(** * Properties *)

(** ** Emulator resolution *)

Section ResolutionFacts.

Variable db : DB.

Lemma QueryRow_Ok {A : Type} (rows : list A) (r : A) :
  QueryRow db rows = Ok r -> conn_err db = None /\ exists rest, rows = r :: rest.
Proof.
  unfold QueryRow. destruct (conn_err db); [discriminate|].
  destruct rows as [|x rest]; [discriminate|].
  intros [= ->]. eauto.
Qed.


(** The override step yields a pair exactly when an override is in
    effect. *)
Lemma resolve_override_None (instance : GameInstance) :
  resolve_override db instance = None <-> override_in_effect db instance = false.
Proof.
  unfold resolve_override, override_in_effect, getEmulatorAndCore,
    override_emulator_unavailable, override_core_unavailable.
  destruct (GetInstanceEmulatorSettings db (Instance_ID instance)) as [s|e]; [|tauto].
  destruct (GetEmulator db (Settings_EmulatorID s)) as [emu|e]; [|tauto].
  destruct (Emulator_IsAvailable emu); simpl; [|tauto].
  destruct (String.eqb (Settings_CoreID s) EmptyString); simpl.
  { split; discriminate. }
  destruct (GetCore db (Settings_EmulatorID s) (Settings_CoreID s)) as [c|e].
  - destruct (Core_IsAvailable c); simpl; split; congruence.
  - split; discriminate.
Qed.


(** What the default query returns is a default mapping of the platform
    whose emulator, and core if any, are available. *)
Lemma GetDefaultEmulatorForPlatform_available (platform : string)
    (emu : Emulator) (core : option EmulatorCore) :
  GetDefaultEmulatorForPlatform db platform true = Ok (emu, core) ->
  exists r, In r (platform_join db platform)
            /\ pe_is_default (row_pe r) = true
            /\ row_available r = true
            /\ emu = scan_emulator (row_e r) /\ core = row_c r.
Proof.
  unfold GetDefaultEmulatorForPlatform.
  destruct (QueryRow db (default_rows db platform true)) as [r|e] eqn:Hq; [|discriminate].
  intros [= <- <-]. apply QueryRow_Ok in Hq as [_ [rest Hrows]].
  assert (Hin : In r (default_rows db platform true)) by (rewrite Hrows; left; reflexivity).
  unfold default_rows in Hin. apply List.filter_In in Hin as [Hin Hc].
  apply andb_true_iff in Hc as [Hd Ha].
  exists r. auto.
Qed.

End ResolutionFacts.

Section PriorityOrder.

Local Abbreviation prio r := (pe_priority (row_pe r)).

Lemma insert_by_priority_In (r x : JoinRow) (l : list JoinRow) :
  In x (insert_by_priority r l) <-> x = r \/ In x l.
Proof.
  induction l as [|y l IH]; simpl.
  - intuition.
  - destruct (prio r <=? prio y)%Z; simpl; [intuition|].
    rewrite IH. intuition.
Qed.

Lemma order_by_priority_In (x : JoinRow) (l : list JoinRow) :
  In x (order_by_priority l) <-> In x l.
Proof.
  induction l as [|y l IH]; simpl; [tauto|].
  rewrite insert_by_priority_In, IH. intuition.
Qed.




End PriorityOrder.





(** Equations of string concatenation. *)
Lemma append_cons (c : ascii) (s t : string) :
  String c s +:+ t = String c (s +:+ t).
Proof. reflexivity. Qed.

Lemma append_nil_l (s : string) : EmptyString +:+ s = s.
Proof. reflexivity. Qed.

Lemma append_nil_r (s : string) : s +:+ EmptyString = s.
Proof. induction s as [|c s IH]; [reflexivity|]. rewrite append_cons, IH. reflexivity. Qed.

Lemma string_app_assoc (a b c : string) : (a +:+ b) +:+ c = a +:+ (b +:+ c).
Proof.
  induction a as [|x a IH]; [reflexivity|].
  rewrite !append_cons, IH. reflexivity.
Qed.

(** A message that ends in the platform names it. *)
Lemma mentions_suffix (before platform : string) :
  mentions (before +:+ platform) platform.
Proof. exists before, EmptyString. rewrite append_nil_r. reflexivity. Qed.

Lemma filter_all_false {A : Type} (f : A -> bool) (l : list A) :
  (forall x, In x l -> f x = false) -> List.filter f l = [].
Proof.
  induction l as [|x l IH]; intros Hall; [reflexivity|]. simpl.
  rewrite (Hall x (or_introl eq_refl)). apply IH.
  intros y Hy. apply Hall. right. exact Hy.
Qed.

(** C4.  When no instance override is in effect and no mapping of the
    platform has its emulator (and core, if any) available, so that neither
    the default step nor the fallback step finds a pair, [ResolveEmulator]
    fails, and the message of the error names the platform. *)
Theorem ResolveEmulator_none_available_fails
    (db : DB) (instance : GameInstance) :
  override_in_effect db instance = false ->
  (forall r, In r (platform_join db (Instance_Platform instance)) ->
             row_available r = false) ->
  exists err,
    ResolveEmulator db instance = Err err
    /\ mentions (Error err) (Instance_Platform instance)
    /\ (conn_err db = None ->
        err = errorString ("no available emulator for platform "
                           +:+ Instance_Platform instance)).
Proof.
  intros Hov Hnone. set (platform := Instance_Platform instance) in *.
  assert (Hfilter : List.filter row_available (platform_join db platform) = []).
  { apply filter_all_false. exact Hnone. }
  assert (Hdefault : default_rows db platform true = []).
  { apply filter_all_false. intros r Hr. rewrite (Hnone r Hr). apply andb_false_r. }
  unfold ResolveEmulator. apply resolve_override_None in Hov. rewrite Hov.
  unfold GetDefaultEmulatorForPlatform, GetAvailableEmulatorsForPlatform, available_rows.
  fold platform. rewrite Hdefault, Hfilter. unfold QueryRow.
  destruct (conn_err db) as [e|]; simpl.
  - eexists. split; [reflexivity|]. split; [|discriminate].
    unfold Errorf_w. simpl.
    exists "no emulator available for platform ",
           (": " +:+ Error (Errorf_w "failed to get available emulators: " e)).
    rewrite !string_app_assoc. reflexivity.
  - eexists. split; [reflexivity|]. split; [|reflexivity].
    apply mentions_suffix.
Qed.

Lemma ResolveEmulator_none_available_fails_witness :
  exists err,
    ResolveEmulator (Seed.seed_db ["nestopia"] ["mesen_libretro"]
                                  [Seed.override "i3" "retroarch" "snes9x_libretro"])
                    (Seed.rom_instance "i3" "snes" "/roms/F-Zero.sfc") = Err err
    /\ Error err = "no available emulator for platform snes".
Proof.
  destruct (ResolveEmulator_none_available_fails
              (Seed.seed_db ["nestopia"] ["mesen_libretro"]
                            [Seed.override "i3" "retroarch" "snes9x_libretro"])
              (Seed.rom_instance "i3" "snes" "/roms/F-Zero.sfc"))
    as (err & Hres & _ & Hmsg).
  - reflexivity.
  - intros r Hin. vm_compute in Hin.
    destruct Hin as [<-|[<-|[]]]; reflexivity.
  - exists err. split; [exact Hres|]. rewrite (Hmsg eq_refl). reflexivity.
Defined.

(** The earlier revision performs no availability check on the override:
    the fall-through belongs to the three-step revision. *)
Example ResolveEmulator_v1_returns_unavailable_override :
  forall default_query,
    ResolveEmulator_v1 default_query
      (Seed.seed_db ["retroarch"] ["mesen_libretro"]
                    [Seed.override "i1" "nestopia" EmptyString])
      (Seed.rom_instance "i1" "nes" "/roms/Metroid.nes")
    = Ok (Some (Seed.nestopia false), None).
Proof. reflexivity. Qed.

(** An override whose core id has no record in [emulator_cores] does not
    count as unavailable: [getEmulatorAndCore] leaves the core nil and the
    override emulator is returned without a core. *)
Lemma ResolveEmulator_override_unknown_core :
  ResolveEmulator (Seed.seed_db ["retroarch"] []
                                [Seed.override "i4" "retroarch" "ghost_libretro"])
                  (Seed.rom_instance "i4" "snes" "/roms/F-Zero.sfc")
  = Ok (Seed.retroarch true, None).
Proof. reflexivity. Qed.

(** ** Command building *)

Section ParserFacts.

Local Abbreviation nonempty := (fun t : string => (0 < String.length t)%nat).

Lemma parse_rune_args_nonempty (st : ParseState) (r : ascii) :
  Forall nonempty (args st) -> Forall nonempty (args (parse_rune st r)).
Proof.
  intros Hargs. unfold parse_rune, WriteRune.
  destruct (Ascii.eqb r GoStrings.dquote || Ascii.eqb r GoStrings.squote).
  - destruct (negb (inQuote st)); [exact Hargs|].
    destruct (Ascii.eqb r (quoteChar st)); exact Hargs.
  - destruct (Ascii.eqb r GoStrings.space && negb (inQuote st)); [|exact Hargs].
    destruct (0 <? String.length (currentArg st))%nat eqn:Hlen; [|exact Hargs].
    simpl. apply Forall_app. split; [exact Hargs|].
    constructor; [|constructor]. apply Nat.ltb_lt. exact Hlen.
Qed.

Lemma parse_loop_args_nonempty (cmd : string) (st : ParseState) :
  Forall nonempty (args st) -> Forall nonempty (args (parse_loop st cmd)).
Proof.
  revert st. induction cmd as [|r cmd IH]; intros st Hargs; simpl; [exact Hargs|].
  apply IH, parse_rune_args_nonempty, Hargs.
Qed.

Lemma parseCommandWithQuotes_nonempty (cmd : string) :
  Forall nonempty (parseCommandWithQuotes cmd).
Proof.
  unfold parseCommandWithQuotes.
  pose proof (parse_loop_args_nonempty cmd parse_init (List.Forall_nil _)) as Hargs.
  destruct (0 <? String.length (currentArg (parse_loop parse_init cmd)))%nat eqn:Hlen;
    [|exact Hargs].
  apply Forall_app. split; [exact Hargs|].
  constructor; [|constructor]. apply Nat.ltb_lt. exact Hlen.
Qed.

(** A space met outside a quoted span while no argument is being built
    changes nothing: a run of spaces yields no token. *)
Lemma parse_rune_space_idle (st : ParseState) :
  inQuote st = false -> currentArg st = EmptyString ->
  parse_rune st GoStrings.space = st.
Proof.
  intros Hq Hcur. unfold parse_rune. rewrite Hq, Hcur. reflexivity.
Qed.

(** An empty quoted span leaves the argument under construction as it
    was. *)
Lemma parse_rune_empty_span (st : ParseState) (q : ascii) :
  q = GoStrings.dquote \/ q = GoStrings.squote ->
  inQuote st = false ->
  currentArg (parse_rune (parse_rune st q) q) = currentArg st
  /\ args (parse_rune (parse_rune st q) q) = args st
  /\ inQuote (parse_rune (parse_rune st q) q) = false.
Proof.
  intros [-> | ->] Hq; unfold parse_rune; rewrite Hq; simpl; auto.
Qed.

End ParserFacts.

(** C10.  Every token [parseCommandWithQuotes] returns is a non-empty
    string, for every command string; hence neither command builder ever
    puts an empty entry in the argument vector, whatever the placeholders
    are replaced with. *)
Theorem parseCommandWithQuotes_tokens_nonempty :
  (forall cmd : string,
      Forall (fun t => (0 < String.length t)%nat) (parseCommandWithQuotes cmd))
  /\ (forall (emulator : Emulator) (coreLibPath romPath args : string),
        Forall (fun t => (0 < String.length t)%nat)
               (buildFlatpakCommand emulator coreLibPath romPath args))
  /\ (forall (emulator : Emulator) (romPath args : string),
        Forall (fun t => (0 < String.length t)%nat)
               (buildNativeCommand emulator romPath args)).
Proof.
  split; [|split]; intros; apply parseCommandWithQuotes_nonempty.
Qed.

(** Placeholders replaced by the empty string, runs of spaces and empty
    quoted spans leave no trace in the argument vector. *)
Example buildFlatpakCommand_empty_placeholders :
  buildFlatpakCommand (Seed.retroarch true) EmptyString "/roms/Metroid.nes" EmptyString
  = ["flatpak"; "run"; "org.libretro.RetroArch"; "-L"; "/roms/Metroid.nes"].
Proof. reflexivity. Qed.

Example parseCommandWithQuotes_spaces_and_empty_spans :
  parseCommandWithQuotes "  run   '' -L  ''  "
  = ["run"; "-L"].
Proof. reflexivity. Qed.

(** C7, on a ROM path with a space and a backslash.  [%q] doubles the
    backslash, the parser copies both: the token differs from the path, and
    the path is not among the tokens. *)
Theorem buildFlatpakCommand_backslash_path_not_preserved :
  let emulator :=
    Seed.seed_emulator "retroarch" "RetroArch" "org.libretro.RetroArch"
      "run {flatpak_id} -L {core_lib_path} {args} {rom}" "--fullscreen" [] true in
  let romPath := "/roms/AC\DC Live.nes" in
  let argv := buildFlatpakCommand emulator "/cores/mesen_libretro.so" romPath
                                  "--fullscreen" in
  argv = ["run"; "org.libretro.RetroArch"; "-L"; "/cores/mesen_libretro.so";
          "--fullscreen"; "/roms/AC\\DC Live.nes"]
  /\ ~ In romPath argv.
Proof.
  split; [reflexivity|].
  vm_compute. intros H.
  repeat (destruct H as [H|H]; [discriminate H|]). exact H.
Qed.

(** ** The fetcher: life cycle, queue and shutdown *)

Section RunInduction.

(** An invariant indexed by the life-cycle phase holds along every
    schedule once it holds at the start and every step keeps it. *)
Lemma run_phase_invariant (Inv : Phase -> Fetcher -> Prop) :
  (forall a ph f f', Inv ph f -> exec a f = Done f' -> Inv (phase_step ph a) f') ->
  forall tr ph f f',
    Inv ph f -> run tr f = Done f' -> Inv (fold_left phase_step tr ph) f'.
Proof.
  intros Hstep tr. induction tr as [|a tr IH]; intros ph f f' Hinv Hrun; simpl in *.
  - injection Hrun as <-. exact Hinv.
  - destruct (exec a f) as [f1| |msg] eqn:Hexec; try discriminate.
    eapply IH; [|exact Hrun]. eapply Hstep; eauto.
Qed.

(** The same along the schedules that never start a stopped fetcher
    again. *)
Lemma run_phase_invariant_no_restart (Inv : Phase -> Fetcher -> Prop) :
  (forall a ph f f',
      Inv ph f -> (a = ActStart -> ph <> AfterStop) ->
      exec a f = Done f' -> Inv (phase_step ph a) f') ->
  forall tr ph f f',
    Inv ph f -> restarts_from ph tr = false -> run tr f = Done f' ->
    Inv (fold_left phase_step tr ph) f'.
Proof.
  intros Hstep tr. induction tr as [|a tr IH]; intros ph f f' Hinv Hres Hrun; simpl in *.
  - injection Hrun as <-. exact Hinv.
  - destruct (exec a f) as [f1| |msg] eqn:Hexec; try discriminate.
    assert (Hok : a = ActStart -> ph <> AfterStop).
    { intros -> ->. simpl in Hres. discriminate. }
    assert (Hres' : restarts_from (phase_step ph a) tr = false).
    { destruct a, ph; simpl in *; try exact Hres; discriminate. }
    eapply IH; [|exact Hres'|exact Hrun]. eapply Hstep; eauto.
Qed.

(** An invariant of the state alone. *)
Lemma run_invariant (Inv : Fetcher -> Prop) :
  (forall a f f', Inv f -> exec a f = Done f' -> Inv f') ->
  forall tr f f', Inv f -> run tr f = Done f' -> Inv f'.
Proof.
  intros Hstep tr f f' Hinv Hrun.
  exact (run_phase_invariant (fun _ => Inv)
           (fun a _ f f' => Hstep a f f') tr BeforeStart f f' Hinv Hrun).
Qed.

End RunInduction.

(** What a worker step leaves alone. *)
Lemma worker_step_frame (w : nat) (f f' : Fetcher) :
  worker_step w f = Done f' ->
  isRunning f' = isRunning f
  /\ queue_closed f' = queue_closed f
  /\ closing f' = closing f
  /\ waiting f' = waiting f
  /\ (length (queue f') <= length (queue f))%nat.
Proof.
  unfold worker_step. intros H.
  repeat case_match; simplify_eq; simpl; repeat split; auto.
  match goal with Hq : queue f = _ |- _ => rewrite Hq end. simpl. lia.
Qed.

(** The running flag follows the life cycle. *)
Lemma exec_isRunning (a : Action) (ph : Phase) (f f' : Fetcher) :
  isRunning f = running_phase ph -> exec a f = Done f' ->
  isRunning f' = running_phase (phase_step ph a).
Proof.
  intros Hinv Hexec. destruct a; simpl in Hexec.
  - injection Hexec as <-. destruct ph; exact Hinv.
  - injection Hexec as <-. destruct ph; exact Hinv.
  - injection Hexec as <-. unfold Start.
    destruct (isRunning f) eqn:Hr; destruct ph; simpl; auto.
  - injection Hexec as <-. unfold Stop_locked.
    destruct (isRunning f) eqn:Hr; destruct ph; simpl in *; congruence.
  - unfold Stop_close in Hexec. repeat case_match; simplify_eq.
    destruct ph; exact Hinv.
  - unfold Stop_wait in Hexec. repeat case_match; simplify_eq.
    destruct ph; exact Hinv.
  - unfold Queue in Hexec. repeat case_match; simplify_eq; destruct ph; exact Hinv.
  - injection Hexec as <-. unfold Cancel. case_match; destruct ph; exact Hinv.
  - apply worker_step_frame in Hexec as (-> & _). destruct ph; exact Hinv.
Qed.

Lemma reaches_isRunning (n : Z) (tr : list Action) (f : Fetcher) :
  reaches n tr f -> isRunning f = running_phase (lifecycle tr).
Proof.
  intros Hrun.
  exact (run_phase_invariant (fun ph f => isRunning f = running_phase ph)
           exec_isRunning tr BeforeStart (NewFetcher n) f eq_refl Hrun).
Qed.

(** While no stopped fetcher is started again, the channel is open until
    [Stop] has been called, and never holds more than its capacity. *)
Lemma exec_queue_open (a : Action) (ph : Phase) (f f' : Fetcher) :
  isRunning f = running_phase ph /\ queue_open ph f ->
  (a = ActStart -> ph <> AfterStop) ->
  exec a f = Done f' ->
  isRunning f' = running_phase (phase_step ph a) /\ queue_open (phase_step ph a) f'.
Proof.
  intros [Hrun [Hopen Hcap]] Hok Hexec.
  split; [eapply exec_isRunning; eauto|].
  unfold queue_open in *. destruct a; simpl in Hexec.
  - injection Hexec as <-. destruct ph; simpl; auto.
  - injection Hexec as <-. destruct ph; simpl; auto.
  - injection Hexec as <-. unfold Start.
    destruct (isRunning f); destruct ph; simpl; auto; split; auto;
      intros _; try (apply Hopen; discriminate); exfalso; apply Hok; reflexivity.
  - injection Hexec as <-. unfold Stop_locked.
    destruct (isRunning f) eqn:Hr; destruct ph; simpl in *; try discriminate; auto.
    split; [congruence|exact Hcap].
  - unfold Stop_close in Hexec.
    destruct (closing f) as [|k] eqn:Hc; [discriminate|].
    destruct (queue_closed f); [discriminate|]. injection Hexec as <-. simpl.
    split; [|exact Hcap]. intros Hph.
    destruct ph; simpl in *; try (destruct (Hopen ltac:(discriminate)); discriminate).
    congruence.
  - unfold Stop_wait in Hexec. repeat case_match; simplify_eq. simpl.
    destruct ph; simpl; auto.
  - unfold Queue in Hexec.
    destruct (negb (isRunning f)); [injection Hexec as <-; destruct ph; simpl; auto|].
    destruct (queue_closed f) eqn:Hclosed; [discriminate|].
    destruct (length (queue f) <? queue_capacity)%nat eqn:Hlen;
      injection Hexec as <-; simpl; [|destruct ph; simpl; rewrite ?Hclosed; auto].
    apply Nat.ltb_lt in Hlen. rewrite length_app, Hclosed. simpl.
    destruct ph; simpl; (split; [auto|lia]).
  - injection Hexec as <-. unfold Cancel. case_match; destruct ph; simpl; auto.
  - apply worker_step_frame in Hexec as (_ & -> & -> & _ & Hlen).
    destruct ph; simpl; split; auto; lia.
Qed.

Lemma reaches_queue_open (n : Z) (tr : list Action) (f : Fetcher) :
  reaches n tr f -> restarts tr = false -> queue_open (lifecycle tr) f.
Proof.
  intros Hrun Hres.
  refine (proj2 (run_phase_invariant_no_restart
           (fun ph f => isRunning f = running_phase ph /\ queue_open ph f)
           exec_queue_open tr BeforeStart (NewFetcher n) f _ Hres Hrun)).
  split; [reflexivity|]. split; [auto|]. simpl. unfold queue_capacity. lia.
Qed.

(** C5.  On a fetcher created by [NewFetcher] and driven by any schedule,
    [Queue] returns the not-running error exactly when it is called before
    [Start] or after [Stop].  While the fetcher is running (and was not
    started again after a [Stop]), the queue never holds more than 100
    requests; [Queue] returns the queue-full error when the channel is at
    capacity for the whole wait, and otherwise appends the request and
    returns no error. *)
Theorem Queue_errors (n : Z) (tr : list Action) (f : Fetcher) (req : FetchRequest) :
  reaches n tr f ->
  ((exists f', Queue req f = QueueReturns (Some ErrNotRunning) f')
   <-> lifecycle tr = BeforeStart \/ lifecycle tr = AfterStop)
  /\ (lifecycle tr <> Running -> Queue req f = QueueReturns (Some ErrNotRunning) f)
  /\ (lifecycle tr = Running -> restarts tr = false ->
      (length (queue f) <= queue_capacity)%nat
      /\ ((length (queue f) < queue_capacity)%nat ->
          Queue req f = QueueReturns None (set_queue (queue f ++ [req]) f))
      /\ (length (queue f) = queue_capacity ->
          Queue req f = QueueReturns (Some ErrQueueFull) f)).
Proof.
  intros Hreach. pose proof (reaches_isRunning n tr f Hreach) as Hrun.
  split; [|split].
  - unfold Queue. rewrite Hrun. split.
    + intros [f' Hq]. destruct (lifecycle tr); simpl in *; auto.
      repeat case_match; discriminate.
    + intros [-> | ->]; simpl; eauto.
  - intros Hph. unfold Queue. rewrite Hrun.
    destruct (lifecycle tr); simpl; congruence.
  - intros Hph Hres.
    destruct (reaches_queue_open n tr f Hreach Hres) as [Hopen Hcap].
    rewrite Hph in Hopen, Hrun. destruct (Hopen ltac:(discriminate)) as [_ Hclosed].
    split; [exact Hcap|]. unfold Queue. rewrite Hrun, Hclosed. simpl. split.
    + intros Hlt. apply Nat.ltb_lt in Hlt. rewrite Hlt. reflexivity.
    + intros ->. rewrite Nat.ltb_irrefl. reflexivity.
Qed.

Lemma Queue_errors_witness :
  let f := Start (NewFetcher 2) in
  let req := rom_request "i1" "Metroid" "nes" in
  Queue req f = QueueReturns None (set_queue [req] f)
  /\ Queue req (NewFetcher 2) = QueueReturns (Some ErrNotRunning) (NewFetcher 2).
Proof.
  intros f req. split.
  - destruct (Queue_errors 2 [ActStart] f req eq_refl) as (_ & _ & Hrunning).
    destruct (Hrunning eq_refl eq_refl) as (_ & Haccept & _).
    apply Haccept. vm_compute. lia.
  - destruct (Queue_errors 2 [] (NewFetcher 2) req eq_refl) as (_ & Hnot & _).
    apply Hnot. discriminate.
Defined.

(** A queue filled to capacity refuses the next request. *)
Example Queue_full_after_100 :
  let req := rom_request "i1" "Metroid" "nes" in
  exists f,
    run (ActStart :: replicate 100 (ActQueue req)) (NewFetcher 2) = Done f
    /\ length (queue f) = 100%nat
    /\ Queue req f = QueueReturns (Some ErrQueueFull) f.
Proof.
  intros req. eexists. split; [vm_compute; reflexivity|].
  split; reflexivity.
Qed.

(** [Start] does not make a new channel: on a fetcher that is started
    again after [Stop], [Queue] sends on the closed channel. *)
Example Queue_after_restart_panics :
  exists f,
    run [ActStart; ActStop; ActStopClose; ActStart] (NewFetcher 2) = Done f
    /\ isRunning f = true
    /\ Queue (rom_request "i1" "Metroid" "nes") f
       = QueuePanics "send on closed channel".
Proof. eexists. split; [vm_compute; reflexivity|]. split; reflexivity. Qed.

Lemma run_app (tr tr' : list Action) (f : Fetcher) :
  run (tr ++ tr') f
  = match run tr f with
    | Done f' => run tr' f'
    | other => other
    end.
Proof.
  revert f. induction tr as [|a tr IH]; intros f; simpl; [reflexivity|].
  destruct (exec a f); auto.
Qed.

(** C8.  Once [Stop] has taken effect, and until [Start] is called again,
    a further call of [Stop] takes the early return of its critical
    section: it leaves the fetcher as it is, and so reaches neither
    [close(f.queue)] nor [f.wg.Wait()]. *)
Theorem Stop_idempotent (n : Z) (tr : list Action) (f : Fetcher) :
  reaches n tr f ->
  lifecycle tr = AfterStop ->
  Stop_locked f = (StopReturnsEarly, f)
  /\ exec ActStop f = Done f
  /\ reaches n (tr ++ [ActStop]) f.
Proof.
  intros Hreach Hph. pose proof (reaches_isRunning n tr f Hreach) as Hrun.
  rewrite Hph in Hrun. simpl in Hrun.
  assert (Hstop : Stop_locked f = (StopReturnsEarly, f)).
  { unfold Stop_locked. rewrite Hrun. reflexivity. }
  split; [exact Hstop|]. split.
  - simpl. rewrite Hstop. reflexivity.
  - unfold reaches in *. rewrite run_app, Hreach. simpl.
    rewrite Hstop. reflexivity.
Qed.

Lemma Stop_idempotent_witness :
  exists f,
    run [ActStart; ActStop; ActStopClose; ActWorker 0; ActWorker 1; ActStopWait]
        (NewFetcher 2) = Done f
    /\ pool f = [WExited; WExited]
    /\ queue_closed f = true
    /\ Stop_locked f = (StopReturnsEarly, f).
Proof.
  eexists. split; [vm_compute; reflexivity|].
  split; [reflexivity|]. split; [reflexivity|].
  refine (proj1 (Stop_idempotent 2
    [ActStart; ActStop; ActStopClose; ActWorker 0; ActWorker 1; ActStopWait]
    _ _ _)).
  - vm_compute. reflexivity.
  - reflexivity.
Defined.

(** ** The cancellation registry *)

Lemma in_flight_fun (id1 id2 : string) (wk : Worker) :
  in_flight id1 wk -> in_flight id2 wk -> id1 = id2.
Proof. destruct wk; simpl; try tauto; congruence. Qed.

Lemma registry_invariant_frame (f f' : Fetcher) :
  cancelMap f' = cancelMap f -> cancelled f' = cancelled f ->
  pool f' = pool f -> next_ctx f' = next_ctx f ->
  registry_invariant f -> registry_invariant f'.
Proof.
  intros Hm Hc Hp Hn [H1 H2 H3 H4].
  split; rewrite ?Hm, ?Hc, ?Hp, ?Hn; auto.
Qed.

Lemma pool_insert_lookup (workers : list Worker) (w w1 : nat) (new wk1 : Worker) :
  <[w := new]> workers !! w1 = Some wk1 ->
  (w1 = w /\ wk1 = new) \/ (w1 <> w /\ workers !! w1 = Some wk1).
Proof.
  intros H. apply list_lookup_insert_Some in H as [(-> & -> & _)|[Hne H]]; auto.
Qed.

(** Replacing the state of worker [w] by one that holds no other context
    and is in flight for no other instance. *)
Lemma registry_invariant_worker (f f' : Fetcher) (w : nat) (old new : Worker) :
  pool f !! w = Some old ->
  pool f' = <[w := new]> (pool f) ->
  cancelMap f' = cancelMap f -> cancelled f' = cancelled f ->
  next_ctx f' = next_ctx f ->
  (forall ctx, holds ctx new -> holds ctx old) ->
  (forall id ctx, in_flight id old -> holds ctx old ->
                  in_flight id new /\ holds ctx new) ->
  registry_invariant f -> registry_invariant f'.
Proof.
  intros Hold Hp Hm Hc Hn Hsub Hkeep [H1 H2 H3 H4].
  assert (Hlt : (w < length (pool f))%nat) by (eapply lookup_lt_Some, Hold).
  assert (Hback : forall w1 wk1 ctx, pool f' !! w1 = Some wk1 -> holds ctx wk1 ->
            exists wk0, pool f !! w1 = Some wk0 /\ holds ctx wk0).
  { intros w1 wk1 ctx Hw1 Hh. rewrite Hp in Hw1.
    apply pool_insert_lookup in Hw1 as [[-> ->]|[Hne Hw1]]; eauto. }
  split; rewrite ?Hm, ?Hc, ?Hn.
  - intros id ctx Hid. destruct (H1 id ctx Hid) as (Hnc & w' & wk & Hw' & Hfl & Hh).
    split; [exact Hnc|]. rewrite Hp.
    destruct (decide (w' = w)) as [->|Hne].
    + assert (wk = old) as -> by congruence.
      destruct (Hkeep id ctx Hfl Hh). exists w, new.
      rewrite list_lookup_insert_eq by exact Hlt. auto.
    + exists w', wk. rewrite list_lookup_insert_ne by auto. auto.
  - intros w1 wk1 ctx Hw1 Hh.
    destruct (Hback w1 wk1 ctx Hw1 Hh) as (wk0 & Hw0 & Hh0). eauto.
  - intros w1 w2 wk1 wk2 ctx Hw1 Hw2 Hh1 Hh2.
    destruct (Hback w1 wk1 ctx Hw1 Hh1) as (wk1' & Hw1' & Hh1').
    destruct (Hback w2 wk2 ctx Hw2 Hh2) as (wk2' & Hw2' & Hh2'). eauto.
  - exact H4.
Qed.

Lemma worker_step_registry_invariant (w : nat) (f f' : Fetcher) :
  registry_invariant f -> worker_step w f = Done f' -> registry_invariant f'.
Proof.
  intros Hinv. unfold worker_step.
  destruct (pool f !! w) as [[|req|req ctx k rest tried|req ctx o|]|] eqn:Hw;
    try discriminate.
  - (* receiving *)
    destruct (queue f) as [|req q].
    + destruct (queue_closed f); [|discriminate]. intros [= <-].
      eapply (registry_invariant_worker f _ w WReceiving WExited); eauto;
        simpl; tauto.
    + intros [= <-].
      eapply (registry_invariant_worker f _ w WReceiving (WStarting req)); eauto;
        simpl; tauto.
  - (* the handle is registered *)
    intros [= <-]. destruct Hinv as [H1 H2 H3 H4].
    assert (Hlt : (w < length (pool f))%nat) by (eapply lookup_lt_Some, Hw).
    assert (Hback : forall w1 wk1 c,
              <[w := WResolving req (next_ctx f) 0 (resolvers f) []]> (pool f) !! w1
              = Some wk1 -> holds c wk1 ->
              (w1 = w /\ c = next_ctx f)
              \/ (w1 <> w /\ pool f !! w1 = Some wk1)).
    { intros w1 wk1 c Hw1 Hh.
      apply pool_insert_lookup in Hw1 as [[-> ->]|[Hne Hw1]]; simpl in Hh; auto. }
    split; simpl.
    + intros id c Hc. destruct (decide (Req_InstanceID req = id)) as [Heq|Hne].
      * subst id. rewrite lookup_insert_eq in Hc. injection Hc as <-. split.
        -- intros Hin. apply H4 in Hin. lia.
        -- exists w, (WResolving req (next_ctx f) 0 (resolvers f) []).
           rewrite list_lookup_insert_eq by exact Hlt. simpl. auto.
      * rewrite lookup_insert_ne in Hc by exact Hne.
        destruct (H1 id c Hc) as (Hnc & w' & wk & Hw' & Hfl & Hh).
        split; [exact Hnc|]. exists w', wk.
        rewrite list_lookup_insert_ne; auto.
        intros ->. rewrite Hw in Hw'. injection Hw' as <-. destruct Hfl.
    + intros w1 wk1 c Hw1 Hh.
      destruct (Hback w1 wk1 c Hw1 Hh) as [[_ ->]|[_ Hold]]; [lia|].
      specialize (H2 w1 wk1 c Hold Hh). lia.
    + intros w1 w2 wk1 wk2 c Hw1 Hw2 Hh1 Hh2.
      destruct (Hback w1 wk1 c Hw1 Hh1) as [[-> Hc1]|[Hn1 Ho1]];
        destruct (Hback w2 wk2 c Hw2 Hh2) as [[-> Hc2]|[Hn2 Ho2]]; auto.
      * specialize (H2 w2 wk2 c Ho2 Hh2). lia.
      * specialize (H2 w1 wk1 c Ho1 Hh1). lia.
      * eauto.
    + intros c Hc. specialize (H4 c Hc). lia.
  - (* one pass of the resolver loop *)
    destruct rest as [|resolver rest'].
    + intros [= <-].
      eapply (registry_invariant_worker f _ w _ (WReturning req ctx Exhausted)); eauto;
        simpl; tauto.
    + destruct (loop_body _ _ _ _ _ _) as [tried' ev|o ev]; intros [= <-].
      * eapply (registry_invariant_worker f _ w _ (WResolving req ctx (S k) rest' tried'));
          eauto; simpl; tauto.
      * eapply (registry_invariant_worker f _ w _ (WReturning req ctx o)); eauto;
          simpl; tauto.
  - (* the deferred function *)
    intros [= <-]. destruct Hinv as [H1 H2 H3 H4].
    assert (Hback : forall w1 wk1 c,
              <[w := WReceiving]> (pool f) !! w1 = Some wk1 -> holds c wk1 ->
              w1 <> w /\ pool f !! w1 = Some wk1).
    { intros w1 wk1 c Hw1 Hh.
      apply pool_insert_lookup in Hw1 as [[-> ->]|[Hne Hw1]]; [destruct Hh|auto]. }
    split; simpl.
    + intros id c Hc. apply lookup_delete_Some in Hc as [Hne Hc].
      destruct (H1 id c Hc) as (Hnc & w' & wk & Hw' & Hfl & Hh).
      assert (Hw'w : w' <> w).
      { intros ->. rewrite Hw in Hw'. injection Hw' as <-. simpl in Hfl. auto. }
      split.
      * intros [Hin| ->%elem_of_singleton]%elem_of_union; [auto|].
        apply Hw'w. eapply (H3 w' w wk _ ctx); eauto. reflexivity.
      * exists w', wk. rewrite list_lookup_insert_ne; auto.
    + intros w1 wk1 c Hw1 Hh. destruct (Hback w1 wk1 c Hw1 Hh). eauto.
    + intros w1 w2 wk1 wk2 c Hw1 Hw2 Hh1 Hh2.
      destruct (Hback w1 wk1 c Hw1 Hh1). destruct (Hback w2 wk2 c Hw2 Hh2). eauto.
    + intros c [Hin| ->%elem_of_singleton]%elem_of_union; [auto|].
      eapply H2; eauto. reflexivity.
Qed.

Lemma exec_registry_invariant (a : Action) (f f' : Fetcher) :
  registry_invariant f -> exec a f = Done f' -> registry_invariant f'.
Proof.
  intros Hinv Hexec. destruct a; simpl in Hexec.
  - injection Hexec as <-. apply (registry_invariant_frame f); [reflexivity..|exact Hinv].
  - injection Hexec as <-. apply (registry_invariant_frame f); [reflexivity..|exact Hinv].
  - injection Hexec as <-. unfold Start. destruct (isRunning f); [exact Hinv|].
    destruct Hinv as [H1 H2 H3 H4].
    assert (Hback : forall w1 wk1 c,
              (pool f ++ replicate (Z.to_nat (workers f)) WReceiving) !! w1 = Some wk1 ->
              holds c wk1 -> pool f !! w1 = Some wk1).
    { intros w1 wk1 c Hw1 Hh. apply lookup_app_Some in Hw1 as [Hw1|[_ Hw1]]; [auto|].
      apply lookup_replicate in Hw1 as [-> _]. destruct Hh. }
    split; simpl.
    + intros id c Hc. destruct (H1 id c Hc) as (Hnc & w & wk & Hw & Hfl & Hh).
      split; [exact Hnc|]. exists w, wk. split; [|auto].
      apply lookup_app_l_Some. exact Hw.
    + intros w1 wk1 c Hw1 Hh. eauto.
    + intros w1 w2 wk1 wk2 c Hw1 Hw2 Hh1 Hh2. eauto.
    + exact H4.
  - injection Hexec as <-. unfold Stop_locked. destruct (isRunning f); [|exact Hinv].
    destruct Hinv as [H1 H2 H3 H4]. split; simpl; auto.
    + intros id c Hc. rewrite lookup_empty in Hc. discriminate.
    + intros c [Hin|Hin]%elem_of_union; [auto|].
      apply elem_of_map_img in Hin as [id Hid].
      destruct (H1 id c Hid) as (_ & w & wk & Hw & _ & Hh). eauto.
  - unfold Stop_close in Hexec. repeat case_match; simplify_eq.
    apply (registry_invariant_frame f); [reflexivity..|exact Hinv].
  - unfold Stop_wait in Hexec. repeat case_match; simplify_eq.
    apply (registry_invariant_frame f); [reflexivity..|exact Hinv].
  - unfold Queue in Hexec. repeat case_match; simplify_eq; auto.
    apply (registry_invariant_frame f); [reflexivity..|exact Hinv].
  - injection Hexec as <-. unfold Cancel.
    destruct (cancelMap f !! instanceID) as [c0|] eqn:Hlook; [|exact Hinv].
    destruct Hinv as [H1 H2 H3 H4]. split; simpl; auto.
    + intros id c Hc. apply lookup_delete_Some in Hc as [Hne Hc].
      destruct (H1 id c Hc) as (Hnc & w & wk & Hw & Hfl & Hh).
      split; [|eauto].
      intros [Hin| ->%elem_of_singleton]%elem_of_union; [auto|].
      destruct (H1 instanceID c0 Hlook) as (_ & w0 & wk0 & Hw0 & Hfl0 & Hh0).
      assert (w = w0) as -> by eauto.
      assert (wk = wk0) as -> by congruence.
      apply Hne. eapply in_flight_fun; eauto.
    + intros c [Hin| ->%elem_of_singleton]%elem_of_union; [auto|].
      destruct (H1 instanceID c0 Hlook) as (_ & w0 & wk0 & Hw0 & _ & Hh0). eauto.
  - eapply worker_step_registry_invariant; eauto.
Qed.

Lemma reaches_registry_invariant (n : Z) (tr : list Action) (f : Fetcher) :
  reaches n tr f -> registry_invariant f.
Proof.
  intros Hreach.
  refine (run_invariant registry_invariant exec_registry_invariant tr _ f _ Hreach).
  split; simpl.
  - intros id c Hc. rewrite lookup_empty in Hc. discriminate.
  - intros w wk c Hw. rewrite lookup_nil in Hw. discriminate.
  - intros w1 w2 wk1 wk2 c Hw1. rewrite lookup_nil in Hw1. discriminate.
  - intros c Hc. apply not_elem_of_empty in Hc. destruct Hc.
Qed.

(** C6.  In every state the fetcher reaches:
    - the registry holds at most one handle for an instance id, and that
      handle is live: its context is not cancelled and is owned by a worker
      that is processing the instance;
    - an instance that no worker is processing has no handle in the
      registry;
    - the step that starts processing a request registers a fresh handle
      under its instance id;
    - the resolver loop is left only towards the deferred function,
      whether the fetch was resolved, exhausted or cancelled;
    - the deferred function removes the entry of the instance. *)
Theorem registry_tracks_in_flight_fetches (n : Z) (tr : list Action) (f : Fetcher) :
  reaches n tr f ->
  (forall id c1 c2,
      cancelMap f !! id = Some c1 -> cancelMap f !! id = Some c2 -> c1 = c2)
  /\ (forall id ctx,
        cancelMap f !! id = Some ctx ->
        (ctx ∉ cancelled f)
        /\ exists w wk, pool f !! w = Some wk /\ in_flight id wk /\ holds ctx wk)
  /\ (forall id,
        (forall w wk, pool f !! w = Some wk -> ~ in_flight id wk) ->
        cancelMap f !! id = None)
  /\ (forall w req f',
        pool f !! w = Some (WStarting req) -> worker_step w f = Done f' ->
        cancelMap f' !! Req_InstanceID req = Some (next_ctx f)
        /\ pool f' !! w = Some (WResolving req (next_ctx f) 0 (resolvers f) []))
  /\ (forall w req ctx k rest tried f',
        pool f !! w = Some (WResolving req ctx k rest tried) ->
        worker_step w f = Done f' ->
        cancelMap f' = cancelMap f
        /\ ((exists rest' tried',
               pool f' !! w = Some (WResolving req ctx (S k) rest' tried'))
            \/ (exists o, pool f' !! w = Some (WReturning req ctx o))))
  /\ (forall w req ctx o f',
        pool f !! w = Some (WReturning req ctx o) -> worker_step w f = Done f' ->
        cancelMap f' !! Req_InstanceID req = None
        /\ pool f' !! w = Some WReceiving).
Proof.
  intros Hreach. pose proof (reaches_registry_invariant n tr f Hreach) as Hinv.
  split; [|split; [|split; [|split; [|split]]]].
  - congruence.
  - exact (inv_handle f Hinv).
  - intros id Hnone. destruct (cancelMap f !! id) as [c|] eqn:Hc; [|reflexivity].
    destruct (inv_handle f Hinv id c Hc) as (_ & w & wk & Hw & Hfl & _).
    destruct (Hnone w wk Hw Hfl).
  - intros w req f' Hw Hstep. pose proof (lookup_lt_Some _ _ _ Hw) as Hlt.
    unfold worker_step in Hstep. rewrite Hw in Hstep. injection Hstep as <-. simpl.
    split; [apply lookup_insert_eq|apply list_lookup_insert_eq, Hlt].
  - intros w req ctx k rest tried f' Hw Hstep.
    pose proof (lookup_lt_Some _ _ _ Hw) as Hlt.
    unfold worker_step in Hstep. rewrite Hw in Hstep.
    repeat case_match; simplify_eq; simpl;
      (split; [reflexivity|]);
      rewrite list_lookup_insert_eq by (simpl; exact Hlt); eauto.
  - intros w req ctx o f' Hw Hstep. pose proof (lookup_lt_Some _ _ _ Hw) as Hlt.
    unfold worker_step in Hstep. rewrite Hw in Hstep. injection Hstep as <-. simpl.
    split; [apply lookup_delete_eq|apply list_lookup_insert_eq, Hlt].
Qed.

Lemma registry_tracks_in_flight_fetches_witness :
  exists f,
    run [ActRegister LocalCacheResolver; ActStart;
         ActQueue (rom_request "i1" "Metroid" "nes"); ActWorker 0; ActWorker 0]
        (NewFetcher 2) = Done f
    /\ cancelMap f !! "i1" = Some 0%nat
    /\ cancelMap f !! "i2" = None.
Proof.
  eexists. split; [vm_compute; reflexivity|]. split; [reflexivity|].
  refine (proj1 (proj2 (proj2 (registry_tracks_in_flight_fetches 2
    [ActRegister LocalCacheResolver; ActStart;
     ActQueue (rom_request "i1" "Metroid" "nes"); ActWorker 0; ActWorker 0]
    _ _))) "i2" _).
  - vm_compute. reflexivity.
  - intros w wk Hw Hfl.
    destruct w as [|[|w]]; vm_compute in Hw; try discriminate;
      injection Hw as <-; vm_compute in Hfl;
      first [discriminate | contradiction].
Defined.

(** ** The resolver chain *)

(** The calls logged by the chain started at position [k] are on
    positions from [k] on. *)
Lemma resolver_chain_calls_from (ctxDone : nat -> bool) (req : FetchRequest) :
  forall (rs : list Resolver) (k : nat) (tried : list string) (j : nat) (name : string),
    In (EvResolve j name) (snd (resolver_chain true ctxDone req k rs tried)) ->
    (k <= j)%nat.
Proof.
  induction rs as [|y rs IH]; intros k tried j name Hj; [destruct Hj|].
  simpl in Hj. unfold loop_body in Hj.
  destruct (ctxDone k); [destruct Hj|].
  destruct (Supports y (Req_Source req) (Req_Platform req)); simpl in Hj.
  - destruct (Resolve y req).
    + destruct Hj as [Hj|[Hj|[]]]; [injection Hj; lia|discriminate].
    + destruct (resolver_chain true ctxDone req (S k) rs (tried ++ [Name y]))
        as [o ev] eqn:Hc. simpl in Hj.
      destruct Hj as [Hj|Hj]; [injection Hj; lia|].
      specialize (IH (S k) (tried ++ [Name y]) j name).
      rewrite Hc in IH. specialize (IH Hj). lia.
  - destruct (resolver_chain true ctxDone req (S k) rs tried) as [o ev] eqn:Hc.
    simpl in Hj.
    specialize (IH (S k) tried j name). rewrite Hc in IH.
    specialize (IH Hj). lia.
Qed.

(** If the call of [Resolve] on the resolver at position [k + n] is in the
    log of the chain started at position [k], and that call succeeds, the
    log ends with that call and the callback; before it there are only
    calls on earlier resolvers. *)
Lemma resolver_chain_success (ctxDone : nat -> bool) (req : FetchRequest)
    (A : Resolver) (md : ResolvedMetadata) (rest : list Resolver) :
  forall (n k : nat) (tried : list string),
    rest !! n = Some A ->
    Resolve A req = Ok md ->
    In (EvResolve (k + n) (Name A)) (snd (resolver_chain true ctxDone req k rest tried)) ->
    exists before,
      resolver_chain true ctxDone req k rest tried
      = (Resolved, before ++ [EvResolve (k + n) (Name A); EvCallback req md (Name A)])
      /\ forall ev, In ev before ->
           exists j name, ev = EvResolve j name /\ (k <= j < k + n)%nat.
Proof.
  induction rest as [|x rest IH]; intros n k tried Hn Hok Hin; [discriminate|].
  simpl in Hin |- *. unfold loop_body in *.
  destruct (ctxDone k); [destruct Hin|].
  destruct (Supports x (Req_Source req) (Req_Platform req)); simpl in *.
  - destruct (Resolve x req) as [md'|e] eqn:Hres.
    + simpl in Hin. destruct Hin as [Hin|[Hin|[]]]; [|discriminate].
      injection Hin as Hk _. assert (n = 0)%nat as -> by lia.
      injection Hn as ->. rewrite Hok in Hres. injection Hres as <-.
      exists []. split; [rewrite Nat.add_0_r; reflexivity|]. intros ev [].
    + destruct n as [|n]; [injection Hn as ->; congruence|]. simpl in Hn.
      destruct (resolver_chain true ctxDone req (S k) rest (tried ++ [Name x]))
        as [o ev'] eqn:Hchain.
      simpl in Hin. destruct Hin as [Hin|Hin]; [injection Hin; lia|].
      replace (k + S n)%nat with (S k + n)%nat in * by lia.
      destruct (IH n (S k) (tried ++ [Name x]) Hn Hok) as (before & Heq & Hbefore).
      { rewrite Hchain. exact Hin. }
      rewrite Hchain in Heq. injection Heq as -> ->.
      exists (EvResolve k (Name x) :: before). split; [reflexivity|].
      intros ev [<-|Hev]; [exists k, (Name x); split; [reflexivity|lia]|].
      destruct (Hbefore ev Hev) as (j & name & -> & Hj).
      exists j, name. split; [reflexivity|lia].
  - destruct (resolver_chain true ctxDone req (S k) rest tried) as [o ev'] eqn:Hchain.
    simpl in Hin.
    destruct n as [|n].
    + exfalso. clear IH Hn.
      pose proof (resolver_chain_calls_from ctxDone req) as Hge.
      specialize (Hge rest (S k) tried (k + 0)%nat (Name A)).
      rewrite Hchain in Hge. specialize (Hge Hin). lia.
    + simpl in Hn. replace (k + S n)%nat with (S k + n)%nat in * by lia.
      destruct (IH n (S k) tried Hn Hok) as (before & Heq & Hbefore).
      { rewrite Hchain. exact Hin. }
      rewrite Hchain in Heq. injection Heq as -> ->.
      exists before. split; [reflexivity|].
      intros ev Hev. destruct (Hbefore ev Hev) as (j & name & -> & Hj).
      exists j, name. split; [reflexivity|lia].
Qed.

(** C2.  Whenever a resolver of the list supports the request and the
    worker's call of its [Resolve] succeeds, the chain ends as resolved,
    delivers that result through the installed on-resolve callback, once,
    and calls [Resolve] on no resolver registered after it: the log ends
    with that call and the callback, and the calls before it are on
    earlier resolvers. *)
Theorem resolver_chain_first_success_short_circuits
    (ctxDone : nat -> bool) (req : FetchRequest) (rs : list Resolver)
    (i : nat) (A : Resolver) (md : ResolvedMetadata) :
  rs !! i = Some A ->
  Supports A (Req_Source req) (Req_Platform req) = true ->
  Resolve A req = Ok md ->
  In (EvResolve i (Name A)) (snd (resolver_chain true ctxDone req 0 rs [])) ->
  fst (resolver_chain true ctxDone req 0 rs []) = Resolved
  /\ (exists before,
        snd (resolver_chain true ctxDone req 0 rs [])
        = before ++ [EvResolve i (Name A); EvCallback req md (Name A)]
        /\ forallb is_resolve before = true)
  /\ (forall j name,
        In (EvResolve j name) (snd (resolver_chain true ctxDone req 0 rs [])) ->
        (j <= i)%nat).
Proof.
  intros Hi _ Hok Hin.
  destruct (resolver_chain_success ctxDone req A md rs i 0 [] Hi Hok Hin)
    as (before & Heq & Hbefore).
  simpl in Heq. rewrite Heq. simpl. split; [reflexivity|]. split.
  - exists before. split; [reflexivity|]. apply forallb_forall.
    intros ev Hev. destruct (Hbefore ev Hev) as (j & name & -> & _). reflexivity.
  - intros j name Hj. apply in_app_or in Hj as [Hj|[Hj|[Hj|[]]]].
    + destruct (Hbefore _ Hj) as (j' & name' & [= -> ->] & Hlt). lia.
    + injection Hj as -> _. lia.
    + discriminate.
Qed.

Lemma resolver_chain_first_success_short_circuits_witness :
  let req := rom_request "i1" "Metroid" "nes" in
  let igdb := catalogue "igdb" (named "Metroid") in
  let rs := [LocalCacheResolver; igdb; catalogue "fallback" (named "metroid.nes")] in
  fst (resolver_chain true (fun _ => false) req 0 rs []) = Resolved
  /\ snd (resolver_chain true (fun _ => false) req 0 rs [])
     = [EvResolve 0 "local_cache"; EvResolve 1 "igdb";
        EvCallback req (named "Metroid") "igdb"].
Proof.
  intros req igdb rs.
  destruct (resolver_chain_first_success_short_circuits
              (fun _ => false) req rs 1 igdb (named "Metroid"))
    as (Hres & _ & _).
  - reflexivity.
  - reflexivity.
  - reflexivity.
  - vm_compute. right. left. reflexivity.
  - split; [exact Hres|reflexivity].
Defined.

(** The chain is what a worker runs.  Scheduled without interruption from
    the top of the resolver loop, worker [w] reaches its deferred function
    with the outcome of the chain, having appended the calls of the chain
    to the log; the context is found cancelled at every check or at
    none. *)
Lemma worker_runs_resolver_chain (w : nat) (req : FetchRequest) (ctx : nat) :
  forall (rest : list Resolver) (k : nat) (tried : list string) (f : Fetcher),
    pool f !! w = Some (WResolving req ctx k rest tried) ->
    let chain := resolver_chain (onResolve f)
                   (fun _ => bool_decide (ctx ∈ cancelled f)) req k rest tried in
    exists m f',
      run (replicate m (ActWorker w)) f = Done f'
      /\ pool f' !! w = Some (WReturning req ctx (fst chain))
      /\ log f' = log f ++ snd chain
      /\ cancelMap f' = cancelMap f.
Proof.
  induction rest as [|x rest IH]; intros k tried f Hw chain;
    pose proof (lookup_lt_Some _ _ _ Hw) as Hlt.
  - exists 1%nat. eexists. simpl. unfold worker_step. rewrite Hw.
    split; [reflexivity|]. simpl.
    rewrite list_lookup_insert_eq by exact Hlt. rewrite app_nil_r. auto.
  - subst chain. simpl.
    destruct (loop_body (onResolve f) (bool_decide (ctx ∈ cancelled f)) req k x tried)
      as [tried' ev|o ev] eqn:Hbody.
    + set (f1 := set_worker w (WResolving req ctx (S k) rest tried') (add_log ev f)).
      assert (Hw1 : pool f1 !! w = Some (WResolving req ctx (S k) rest tried')).
      { simpl. apply list_lookup_insert_eq. exact Hlt. }
      destruct (IH (S k) tried' f1 Hw1) as (m & f' & Hrun & Hpool & Hlog & Hmap).
      simpl in Hpool, Hlog, Hmap.
      destruct (resolver_chain (onResolve f)
                  (fun _ => bool_decide (ctx ∈ cancelled f)) req (S k) rest tried')
        as [o ev'] eqn:Hchain.
      exists (S m), f'. simpl. unfold worker_step. rewrite Hw, Hbody.
      fold f1. rewrite Hrun, Hpool, Hlog, Hmap, app_assoc. auto.
    + exists 1%nat. eexists. simpl. unfold worker_step. rewrite Hw, Hbody.
      split; [reflexivity|]. simpl.
      rewrite list_lookup_insert_eq by exact Hlt. auto.
Qed.

(** On a concrete request: the handle is registered, the chain runs, the
    deferred function empties the registry. *)
Example worker_processes_request :
  let req := rom_request "i1" "Metroid" "nes" in
  let igdb := catalogue "igdb" (named "Metroid") in
  exists f,
    run [ActRegister LocalCacheResolver; ActRegister igdb; ActSetCallback; ActStart;
         ActQueue req; ActWorker 0; ActWorker 0; ActWorker 0; ActWorker 0; ActWorker 0]
        (NewFetcher 2) = Done f
    /\ log f = [EvResolve 0 "local_cache"; EvResolve 1 "igdb";
                EvCallback req (named "Metroid") "igdb"]
    /\ pool f !! 0%nat = Some WReceiving
    /\ cancelMap f = ∅.
Proof.
  intros req igdb. eexists. split; [vm_compute; reflexivity|].
  split; [reflexivity|]. split; reflexivity.
Qed.

(** Without a callback installed the successful resolver still ends the
    chain, and nothing is delivered. *)
Example resolver_chain_without_callback :
  resolver_chain false (fun _ => false) (rom_request "i1" "Metroid" "nes") 0
                 [catalogue "igdb" (named "Metroid");
                  catalogue "fallback" (named "metroid.nes")] []
  = (Resolved, [EvResolve 0 "igdb"]).
Proof. reflexivity. Qed.

(** A cancellation seen at the check before a resolver ends the chain
    without a call and without a callback. *)
Example resolver_chain_cancelled :
  resolver_chain true (fun k => (0 <? k)%nat) (rom_request "i1" "Metroid" "nes") 0
                 [LocalCacheResolver; catalogue "igdb" (named "Metroid")] []
  = (Cancelled, [EvResolve 0 "local_cache"]).
Proof. reflexivity. Qed.

(** ** Activity-based monitoring *)

Section MonitorFacts.

Variable attached : bool.
Variable instance : GameInstance.
Variable t0 : Z.

Local Abbreviation installPath := (Instance_InstallPath instance).

Lemma ticks_from_app (a : Z) (l1 l2 : list (result (list Process))) :
  ticks_from t0 a (l1 ++ l2)
  = ticks_from t0 a l1 ++ ticks_from t0 (a + Z.of_nat (length l1)) l2.
Proof.
  revert a. induction l1 as [|p l1 IH]; intros a.
  - simpl. rewrite Z.add_0_r. reflexivity.
  - cbn [List.app ticks_from length]. rewrite IH. do 3 f_equal. lia.
Qed.

(** The loop over a run of detections: [running] is emitted if it was not
    before, and the last detection is remembered. *)
Lemma monitor_loop_detected (run : list (result (list Process))) :
  forall (a last : Z) (st : MonitorState) (rest : list Tick),
    Forall (detected installPath) run -> run <> [] ->
    last = (a + Z.of_nat (length run) - 1)%Z ->
    monitor_loop attached instance st (ticks_from t0 a run ++ rest)
    = let '(ev, r) :=
        monitor_loop attached instance
          {| lastSeenRunning := t0 + last * Second; hasBeenRunning := true |} rest in
      ((if hasBeenRunning st then []
        else emitLaunchStatus attached (Instance_ID instance) (Instance_GameID instance)
                              LaunchStatusRunning EmptyString) ++ ev, r).
Proof.
  induction run as [|p run IH]; intros a last st rest Hall Hne Hlast; [congruence|].
  apply Forall_cons in Hall as [Hp Hall].
  cbn [ticks_from List.app monitor_loop]. unfold monitor_tick.
  cbn [tick_processes tick_now]. unfold detected in Hp. rewrite Hp.
  destruct run as [|p' run].
  - assert (last = a) as -> by (cbn [length] in Hlast; lia).
    cbn [ticks_from List.app].
    destruct (monitor_loop attached instance _ rest) as [ev r].
    destruct (hasBeenRunning st); reflexivity.
  - rewrite (IH (a + 1)%Z last _ rest Hall ltac:(discriminate))
      by (cbn [length] in Hlast |- *; lia).
    cbn [hasBeenRunning].
    destruct (monitor_loop attached instance _ rest) as [ev r].
    destruct (hasBeenRunning st); cbn [negb List.app]; rewrite ?app_nil_r; reflexivity.
Qed.

(** Probes without detection within ten seconds of the last detection
    change nothing. *)
Lemma monitor_loop_undetected_quiet (idle : list (result (list Process))) :
  forall (a b : Z) (rest : list Tick),
    Forall (undetected installPath) idle ->
    (a + Z.of_nat (length idle) - 1 - b <= 10)%Z ->
    monitor_loop attached instance
      {| lastSeenRunning := t0 + b * Second; hasBeenRunning := true |}
      (ticks_from t0 a idle ++ rest)
    = monitor_loop attached instance
        {| lastSeenRunning := t0 + b * Second; hasBeenRunning := true |} rest.
Proof.
  induction idle as [|p idle IH]; intros a b rest Hall Hle; [reflexivity|].
  apply Forall_cons in Hall as [Hp Hall].
  simpl. unfold monitor_tick. simpl. unfold undetected in Hp. rewrite Hp.
  simpl in Hle.
  assert (Hq : (stopThreshold <? t0 + a * Second - (t0 + b * Second))%Z = false).
  { apply Z.ltb_ge. unfold stopThreshold, Second. lia. }
  rewrite Hq. rewrite IH; [|exact Hall|lia].
  destruct (monitor_loop attached instance _ rest). reflexivity.
Qed.

(** The first probe without detection more than ten seconds after the last
    detection emits [stopped] and ends the loop. *)
Lemma monitor_loop_undetected_stop (p : result (list Process)) (a b : Z)
    (rest : list Tick) :
  undetected installPath p -> (10 < a - b)%Z ->
  monitor_loop attached instance
    {| lastSeenRunning := t0 + b * Second; hasBeenRunning := true |}
    ({| tick_processes := p; tick_now := t0 + a * Second |} :: rest)
  = (emitLaunchStatus attached (Instance_ID instance) (Instance_GameID instance)
                      LaunchStatusStopped EmptyString, true).
Proof.
  intros Hp Hlt. simpl. unfold monitor_tick. simpl. unfold undetected in Hp.
  rewrite Hp.
  assert (Hq : (stopThreshold <? t0 + a * Second - (t0 + b * Second))%Z = true).
  { apply Z.ltb_lt. unfold stopThreshold, Second. lia. }
  rewrite Hq. reflexivity.
Qed.

End MonitorFacts.

(** C9.  With one probe per second and the ten-second threshold: when the
    process is detected at nine consecutive probes and then not detected at
    the next eleven, the monitor emits [running] once, at the first
    detection, and [stopped] once, at the eleventh probe without detection
    (eleven seconds after the last detection), and returns there, whatever
    the ticker delivers afterwards.  As long as fewer than eleven probes
    without detection have passed, [stopped] is not emitted and the monitor
    goes on.  Without an application to emit to, nothing is emitted and the
    monitor returns at the same probe. *)
Theorem monitorGameProcess_debounce
    (instance : GameInstance) (t0 : Z)
    (run idle : list (result (list Process))) (more : list Tick) :
  length run = 9%nat ->
  Forall (detected (Instance_InstallPath instance)) run ->
  length idle = 11%nat ->
  Forall (undetected (Instance_InstallPath instance)) idle ->
  monitorGameProcess true instance (ticks_from t0 1 (run ++ idle) ++ more)
  = ([status_update instance LaunchStatusRunning;
      status_update instance LaunchStatusStopped], true)
  /\ (forall m, (m < 11)%nat ->
        monitorGameProcess true instance (ticks_from t0 1 (run ++ take m idle))
        = ([status_update instance LaunchStatusRunning], false))
  /\ monitorGameProcess false instance (ticks_from t0 1 (run ++ idle) ++ more)
     = ([], true).
Proof.
  intros Hrun Hdet Hidle Hund.
  assert (Hne : run <> []) by (intros ->; discriminate).
  assert (Hsplit : exists quiet p, idle = quiet ++ [p] /\ length quiet = 10%nat).
  { exists (take 10 idle).
    destruct (drop 10 idle) as [|p [|q tl]] eqn:Hdrop.
    - apply (f_equal length) in Hdrop. rewrite length_drop, Hidle in Hdrop. discriminate.
    - exists p. split; [rewrite <- Hdrop; symmetry; apply take_drop|].
      rewrite length_take, Hidle. reflexivity.
    - apply (f_equal length) in Hdrop. rewrite length_drop, Hidle in Hdrop. discriminate. }
  destruct Hsplit as (quiet & p & -> & Hquiet).
  apply Forall_app in Hund as [Hquiet_und Hp]. apply Forall_cons in Hp as [Hp _].
  assert (Hloop : forall attached,
    monitor_loop attached instance monitor_init
      (ticks_from t0 1 (run ++ quiet ++ [p]) ++ more)
    = (emitLaunchStatus attached (Instance_ID instance) (Instance_GameID instance)
                        LaunchStatusRunning EmptyString
       ++ emitLaunchStatus attached (Instance_ID instance) (Instance_GameID instance)
                           LaunchStatusStopped EmptyString, true)).
  { intros attached. rewrite !ticks_from_app, Hrun, Hquiet, <- !app_assoc.
    rewrite (monitor_loop_detected attached instance t0 run 1 9) by (auto; lia).
    rewrite (monitor_loop_undetected_quiet attached instance t0 quiet) by (auto; lia).
    cbn [ticks_from List.app].
    rewrite (monitor_loop_undetected_stop attached instance t0 p) by (auto; lia).
    reflexivity. }
  unfold monitorGameProcess. split; [|split].
  - rewrite Hloop. reflexivity.
  - intros m Hm. rewrite ticks_from_app, Hrun.
    rewrite (monitor_loop_detected true instance t0 run 1 9) by (auto; lia).
    rewrite <- (app_nil_r (ticks_from t0 _ (take m (quiet ++ [p])))).
    rewrite (monitor_loop_undetected_quiet true instance t0 (take m (quiet ++ [p]))).
    + reflexivity.
    + apply Forall_take, Forall_app. auto.
    + rewrite length_take, length_app, Hquiet. simpl. lia.
  - rewrite Hloop. reflexivity.
Qed.

Lemma monitorGameProcess_debounce_witness :
  let instance :=
    {| Instance_ID := "steam-620"; Instance_GameID := "game-620";
       Instance_Source := "steam"; Instance_Platform := "pc";
       Instance_Path := EmptyString; Instance_InstallPath := "/games/portal2" |} in
  let seen := Ok [game_process "/usr/bin/steam";
                  game_process "/games/portal2/portal2_linux"] in
  let unseen := Ok [game_process "/usr/bin/steam"] in
  monitorGameProcess true instance
    (ticks_from 0 1 (replicate 9 seen ++ replicate 11 unseen))
  = ([status_update instance LaunchStatusRunning;
      status_update instance LaunchStatusStopped], true).
Proof.
  intros instance seen unseen.
  destruct (monitorGameProcess_debounce instance 0
              (replicate 9 seen) (replicate 11 unseen) []) as (Hfull & _ & _).
  - reflexivity.
  - repeat constructor.
  - reflexivity.
  - repeat constructor.
  - rewrite app_nil_r in Hfull. exact Hfull.
Defined.

(** ** Command building: the paths that survive quoting *)

Section QuotedPaths.
Import GoStrings.

Lemma all_runes_app (ok : ascii -> bool) (a b : string) :
  all_runes ok (a +:+ b) = all_runes ok a && all_runes ok b.
Proof.
  induction a as [|c a IH]; [reflexivity|].
  rewrite append_cons. simpl. rewrite IH, andb_assoc. reflexivity.
Qed.

Lemma quote_rune_plain (c : ascii) :
  plain_rune c = true -> quote_rune c = String c EmptyString.
Proof.
  destruct c as [[] [] [] [] [] [] [] []]; intros H;
    first [discriminate H | reflexivity].
Qed.

Lemma quote_body_plain (s : string) : plain s = true -> quote_body s = s.
Proof.
  induction s as [|c s IH]; [reflexivity|]. unfold plain. simpl.
  intros [Hc Hs]%andb_true_iff. rewrite (quote_rune_plain c Hc), (IH Hs).
  reflexivity.
Qed.

Lemma plain_rune_not_dquote (c : ascii) :
  plain_rune c = true -> Ascii.eqb c dquote = false.
Proof.
  destruct c as [[] [] [] [] [] [] [] []]; intros H;
    first [discriminate H | reflexivity].
Qed.

Lemma replace_from_cons (c : ascii) (s old new : string) :
  replace_from 0 (String c s) old new
  = if HasPrefix (String c s) old
    then new +:+ replace_from (String.length old - 1) s old new
    else String c (replace_from 0 s old new).
Proof. reflexivity. Qed.

Lemma HasPrefix_cons (a b : ascii) (s p : string) :
  HasPrefix (String b s) (String a p)
  = if Ascii.eqb a b then HasPrefix s p else false.
Proof. reflexivity. Qed.

(** Replacing a placeholder passes over a text without braces. *)
Lemma replace_from_inert (s t old' new : string) :
  inert s = true ->
  replace_from 0 (s +:+ t) (String "{" old') new
  = s +:+ replace_from 0 t (String "{" old') new.
Proof.
  induction s as [|c s IH]; [reflexivity|]. unfold inert. cbn [all_runes].
  intros [Hc Hs]%andb_true_iff. rewrite !append_cons.
  assert (Hb : Ascii.eqb "{" c = false).
  { unfold inert_rune in Hc. apply andb_true_iff in Hc as [_ Hc].
    rewrite Ascii.eqb_sym. apply negb_true_iff. exact Hc. }
  rewrite replace_from_cons, HasPrefix_cons, Hb. f_equal. apply IH. exact Hs.
Qed.

Lemma parse_loop_app (a b : string) (st : ParseState) :
  parse_loop st (a +:+ b) = parse_loop (parse_loop st a) b.
Proof.
  revert st. induction a as [|c a IH]; intros st; [reflexivity|].
  rewrite append_cons. simpl. apply IH.
Qed.

(** A text without quote characters leaves the parser outside a quoted
    span. *)
Lemma parse_loop_inert (s : string) (st : ParseState) :
  inert s = true -> inQuote st = false -> inQuote (parse_loop st s) = false.
Proof.
  revert st. induction s as [|c s IH]; intros st; [auto|]. unfold inert. simpl.
  intros [Hc Hs]%andb_true_iff Hq. apply IH; [exact Hs|].
  unfold inert_rune in Hc. apply andb_true_iff in Hc as [Hc _].
  apply andb_true_iff in Hc as [Hd Hsq].
  apply negb_true_iff in Hd, Hsq.
  unfold parse_rune. rewrite Hd, Hsq, Hq. simpl.
  destruct (Ascii.eqb c space); simpl; auto.
  destruct (0 <? String.length (currentArg st))%nat; simpl; auto.
Qed.

(** After a space outside a quoted span no argument is under
    construction. *)
Lemma parse_rune_space_flushes (st : ParseState) :
  inQuote st = false ->
  currentArg (parse_rune st space) = EmptyString
  /\ inQuote (parse_rune st space) = false.
Proof.
  intros Hq. unfold parse_rune. rewrite Hq. simpl.
  destruct (currentArg st) as [|c s] eqn:Hcur; simpl; auto.
Qed.

(** Inside a double-quoted span every rune but the double quote is
    copied. *)
Lemma parse_loop_in_dquote (s : string) :
  forall (st : ParseState) (t : string),
    inQuote st = true -> quoteChar st = dquote ->
    all_runes (fun c => negb (Ascii.eqb c dquote)) s = true ->
    parse_loop st (s +:+ t)
    = parse_loop {| args := args st; currentArg := currentArg st +:+ s;
                    inQuote := true; quoteChar := dquote |} t.
Proof.
  induction s as [|c s IH]; intros st t Hq Hch Hs.
  - rewrite append_nil_l, append_nil_r. destruct st; simpl in *; subst; reflexivity.
  - simpl in Hs. apply andb_true_iff in Hs as [Hc Hs]. apply negb_true_iff in Hc.
    rewrite append_cons. simpl.
    assert (Hstep : parse_rune st c = WriteRune st c).
    { unfold parse_rune. rewrite Hc, Hq, Hch, Hc. simpl.
      destruct (Ascii.eqb c squote); simpl; [reflexivity|].
      rewrite andb_false_r. reflexivity. }
    rewrite Hstep, (IH (WriteRune st c) t Hq Hch Hs). simpl.
    rewrite string_app_assoc. reflexivity.
Qed.

(** A plain path printed with [%q] is read back as itself, appended to the
    argument under construction. *)
Lemma parse_loop_quoted_plain (path : string) (st : ParseState) :
  plain path = true -> inQuote st = false ->
  parse_loop st (Sprintf_q path)
  = {| args := args st; currentArg := currentArg st +:+ path;
       inQuote := false; quoteChar := zero |}.
Proof.
  intros Hplain Hq. unfold Sprintf_q. rewrite (quote_body_plain path Hplain).
  rewrite append_cons. simpl.
  assert (Hopen : parse_rune st dquote
                  = {| args := args st; currentArg := currentArg st;
                       inQuote := true; quoteChar := dquote |}).
  { unfold parse_rune. rewrite Hq. reflexivity. }
  rewrite Hopen, parse_loop_in_dquote; simpl; auto.
  unfold plain in Hplain. clear -Hplain.
  induction path as [|c s IH]; [reflexivity|]. simpl in *.
  apply andb_true_iff in Hplain as [Hc Hs].
  rewrite (plain_rune_not_dquote c Hc), (IH Hs). reflexivity.
Qed.

Lemma Contains_nonempty (s sub : string) :
  Contains s (String " " sub) = true -> (0 <? String.length s)%nat = true.
Proof. destruct s; [discriminate|reflexivity]. Qed.

(** On the template of the design document, with inert texts for the
    package id, the core path and the arguments, a plain ROM path that
    contains a space is the last entry of the argument vector, as one
    token equal to the path. *)
Lemma buildFlatpakCommand_plain_path_preserved
    (emulator : Emulator) (coreLibPath romPath args : string) :
  Emulator_CommandTemplate emulator
  = "run {flatpak_id} -L {core_lib_path} {args} {rom}" ->
  inert (Emulator_FlatpakID emulator) = true ->
  inert coreLibPath = true -> Contains coreLibPath " " = false ->
  inert args = true ->
  Contains romPath " " = true -> plain romPath = true ->
  exists before,
    buildFlatpakCommand emulator coreLibPath romPath args = before ++ [romPath].
Proof.
  intros Htpl Hid Hcore Hcore_sp Hargs Hsp Hplain.
  unfold buildFlatpakCommand, quotePathIfNeeded. rewrite Htpl, Hcore_sp, Hsp.
  set (fid := Emulator_FlatpakID emulator) in *.
  assert (Hcmd :
    ReplaceAll (ReplaceAll (ReplaceAll (ReplaceAll
      "run {flatpak_id} -L {core_lib_path} {args} {rom}"
      "{flatpak_id}" fid) "{core_lib_path}" coreLibPath) "{args}" args)
      "{rom}" (Sprintf_q romPath)
    = ("run " +:+ fid +:+ " -L " +:+ coreLibPath +:+ " " +:+ args)
      +:+ String space (Sprintf_q romPath)).
  { unfold ReplaceAll.
    change (replace_from 0 "run {flatpak_id} -L {core_lib_path} {args} {rom}"
                         "{flatpak_id}" fid)
      with ("run " +:+ fid +:+ " -L {core_lib_path} {args} {rom}").
    rewrite (replace_from_inert "run " _ _ coreLibPath eq_refl).
    rewrite (replace_from_inert fid _ _ coreLibPath Hid).
    change (replace_from 0 " -L {core_lib_path} {args} {rom}" "{core_lib_path}"
                         coreLibPath)
      with (" -L " +:+ coreLibPath +:+ " {args} {rom}").
    rewrite (replace_from_inert "run " _ _ args eq_refl).
    rewrite (replace_from_inert fid _ _ args Hid).
    rewrite (replace_from_inert " -L " _ _ args eq_refl).
    rewrite (replace_from_inert coreLibPath _ _ args Hcore).
    change (replace_from 0 " {args} {rom}" "{args}" args)
      with (" " +:+ args +:+ " {rom}").
    rewrite (replace_from_inert "run " _ _ (Sprintf_q romPath) eq_refl).
    rewrite (replace_from_inert fid _ _ (Sprintf_q romPath) Hid).
    rewrite (replace_from_inert " -L " _ _ (Sprintf_q romPath) eq_refl).
    rewrite (replace_from_inert coreLibPath _ _ (Sprintf_q romPath) Hcore).
    rewrite (replace_from_inert " " _ _ (Sprintf_q romPath) eq_refl).
    rewrite (replace_from_inert args _ _ (Sprintf_q romPath) Hargs).
    change (replace_from 0 " {rom}" "{rom}" (Sprintf_q romPath))
      with (String space (Sprintf_q romPath +:+ EmptyString)).
    rewrite append_nil_r, !string_app_assoc. reflexivity. }
  rewrite Hcmd. unfold parseCommandWithQuotes.
  set (pre := "run " +:+ fid +:+ " -L " +:+ coreLibPath +:+ " " +:+ args).
  rewrite parse_loop_app.
  set (st1 := parse_loop parse_init pre).
  change (parse_loop st1 (String space (Sprintf_q romPath)))
    with (parse_loop (parse_rune st1 space) (Sprintf_q romPath)).
  assert (Hq1 : inQuote st1 = false).
  { apply parse_loop_inert; [|reflexivity].
    unfold pre, inert in *. rewrite !all_runes_app, Hid, Hcore, Hargs. reflexivity. }
  destruct (parse_rune_space_flushes st1 Hq1) as [Hcur Hq2].
  rewrite (parse_loop_quoted_plain romPath _ Hplain Hq2).
  cbn [Emulator.currentArg Emulator.args].
  rewrite Hcur, append_nil_l, (Contains_nonempty romPath EmptyString Hsp).
  eauto.
Qed.

End QuotedPaths.

(** A ROM path with a space and double quotes: [%q] escapes the inner
    quotes with backslashes, the parser reads each of them as the end or
    the start of a quoted span and keeps the backslashes. *)
Example buildFlatpakCommand_quoted_title_not_preserved :
  let q := String GoStrings.dquote EmptyString in
  let romPath := "/roms/The " +:+ q +:+ "Best" +:+ q +:+ " Game.nes" in
  buildFlatpakCommand
    (Seed.seed_emulator "retroarch" "RetroArch" "org.libretro.RetroArch"
       "run {flatpak_id} -L {core_lib_path} {args} {rom}" "--fullscreen" [] true)
    "/cores/mesen_libretro.so" romPath "--fullscreen"
  = ["run"; "org.libretro.RetroArch"; "-L"; "/cores/mesen_libretro.so";
     "--fullscreen"; "/roms/The \Best\ Game.nes"].
Proof. reflexivity. Qed.

(** The converse of the registry invariant does not hold: [Cancel] removes
    the handle at once, while the worker stays inside [processRequest]
    until its next check of the context. *)
Example handle_removed_before_fetch_ends :
  exists f,
    run [ActRegister LocalCacheResolver; ActStart;
         ActQueue (rom_request "i1" "Metroid" "nes"); ActWorker 0; ActWorker 0;
         ActCancel "i1"]
        (NewFetcher 2) = Done f
    /\ cancelMap f !! "i1" = None
    /\ (exists wk, pool f !! 0%nat = Some wk /\ in_flight "i1" wk).
Proof.
  eexists. split; [vm_compute; reflexivity|]. split; [reflexivity|].
  eexists. split; reflexivity.
Qed.

(** ** The resolver chain: what is called, in which order, and what is
       delivered *)

Lemma increasing_from_weaken (l : list nat) :
  forall lo lo', (lo' <= lo)%nat -> increasing_from lo l -> increasing_from lo' l.
Proof.
  destruct l as [|i l]; intros lo lo' Hle; simpl; [auto|].
  intros [Hi Hl]. split; [lia|exact Hl].
Qed.

(** The shape of every log of the chain, from any position. *)
Lemma resolver_chain_log_shape (callback : bool) (ctxDone : nat -> bool)
    (req : FetchRequest) (rs : list Resolver) :
  forall (k : nat) (tried : list string),
    let '(o, log) := resolver_chain callback ctxDone req k rs tried in
    increasing_from k (resolve_positions log)
    /\ (forall i name, In (EvResolve i name) log ->
          exists r, rs !! (i - k)%nat = Some r /\ (k <= i)%nat /\ Name r = name
                    /\ Supports r (Req_Source req) (Req_Platform req) = true)
    /\ (callbacks log = []
        \/ exists i r md,
             rs !! i = Some r /\ Resolve r req = Ok md
             /\ callback = true /\ o = Resolved
             /\ callbacks log = [EvCallback req md (Name r)]
             /\ last log = Some (EvCallback req md (Name r))).
Proof.
  induction rs as [|x rs IH]; intros k tried; simpl.
  - split; [exact I|]. split; [intros i name []|auto].
  - unfold loop_body. destruct (ctxDone k).
    { simpl. split; [exact I|]. split; [intros i name []|auto]. }
    destruct (Supports x (Req_Source req) (Req_Platform req)) eqn:Hsup; simpl.
    + destruct (Resolve x req) as [md|e] eqn:Hres.
      * split; [destruct callback; simpl; auto|]. split.
        -- intros i name Hin.
           assert (i = k /\ name = Name x) as [-> ->].
           { destruct callback; simpl in Hin;
               destruct Hin as [Hin|Hin]; try (injection Hin; auto);
               try destruct Hin as [Hin|Hin]; try discriminate; destruct Hin. }
           exists x. rewrite Nat.sub_diag. auto.
        -- destruct callback; simpl; [right|left; reflexivity].
           exists 0%nat, x, md. auto 10.
      * specialize (IH (S k) (tried ++ [Name x])).
        destruct (resolver_chain callback ctxDone req (S k) rs (tried ++ [Name x]))
          as [o log]. destruct IH as (Hinc & Hcalls & Hcb).
        simpl. split; [split; [lia|exact Hinc]|]. split.
        -- intros i name [Hin|Hin].
           ++ injection Hin as <- <-. exists x. rewrite Nat.sub_diag. auto.
           ++ destruct (Hcalls i name Hin) as (r & Hr & Hle & Hn & Hs).
              exists r. replace (i - k)%nat with (S (i - S k)) by lia.
              simpl. repeat split; auto; lia.
        -- destruct Hcb as [Hnone|(i & r & md & Hr & Hok & Hc & Ho & Hcbs & Hlast)];
             [left; exact Hnone|right].
           exists (S i), r, md. unfold callbacks in *. simpl. repeat split; auto.
           destruct log; [discriminate|exact Hlast].
    + specialize (IH (S k) tried).
      destruct (resolver_chain callback ctxDone req (S k) rs tried) as [o log].
      destruct IH as (Hinc & Hcalls & Hcb). simpl. split.
      { eapply increasing_from_weaken; [|exact Hinc]. lia. }
      split.
      * intros i name Hin. destruct (Hcalls i name Hin) as (r & Hr & Hle & Hn & Hs).
        exists r. replace (i - k)%nat with (S (i - S k)) by lia.
        simpl. repeat split; auto; lia.
      * destruct Hcb as [Hnone|(i & r & md & Hr & Hok & Hc & Ho & Hcbs & Hlast)];
          [left; exact Hnone|right].
        exists (S i), r, md. repeat split; auto.
Qed.

(** X1.  In every run of the resolver chain, whatever the resolvers, the
    request and the cancellation schedule: [Resolve] is called only on
    resolvers that support the request, in strictly increasing registration
    order (so on none twice); and the callback is delivered at most once,
    only when it is installed and the chain ends as resolved, with the
    result of a resolver of the list, as the last event. *)
Theorem resolver_chain_calls_supported_in_order
    (callback : bool) (ctxDone : nat -> bool) (req : FetchRequest)
    (rs : list Resolver) :
  increasing_from 0 (resolve_positions (snd (resolver_chain callback ctxDone req 0 rs [])))
  /\ (forall i name,
        In (EvResolve i name) (snd (resolver_chain callback ctxDone req 0 rs [])) ->
        exists r, rs !! i = Some r /\ Name r = name
                  /\ Supports r (Req_Source req) (Req_Platform req) = true)
  /\ (callbacks (snd (resolver_chain callback ctxDone req 0 rs [])) = []
      \/ exists i r md,
           rs !! i = Some r /\ Resolve r req = Ok md
           /\ callback = true
           /\ fst (resolver_chain callback ctxDone req 0 rs []) = Resolved
           /\ callbacks (snd (resolver_chain callback ctxDone req 0 rs []))
              = [EvCallback req md (Name r)]
           /\ last (snd (resolver_chain callback ctxDone req 0 rs []))
              = Some (EvCallback req md (Name r))).
Proof.
  pose proof (resolver_chain_log_shape callback ctxDone req rs 0 []) as H.
  destruct (resolver_chain callback ctxDone req 0 rs []) as [o log].
  destruct H as (Hinc & Hcalls & Hcb). simpl. split; [exact Hinc|]. split.
  - intros i name Hin. destruct (Hcalls i name Hin) as (r & Hr & _ & Hn & Hs).
    rewrite Nat.sub_0_r in Hr. eauto.
  - exact Hcb.
Qed.

Lemma resolver_chain_uncancelled (callback : bool) (ctxDone : nat -> bool)
    (req : FetchRequest) (rs : list Resolver) :
  (forall k, ctxDone k = false) ->
  forall (k : nat) (tried : list string),
    let '(o, log) := resolver_chain callback ctxDone req k rs tried in
    (if existsb (succeeds req) rs then o = Resolved
     else o = Exhausted /\ log = supported_calls req k rs).
Proof.
  intros Hlive. induction rs as [|x rs IH]; intros k tried; simpl; [auto|].
  unfold loop_body, succeeds at 1. rewrite Hlive.
  destruct (Supports x (Req_Source req) (Req_Platform req)); simpl.
  - destruct (Resolve x req) as [md|e]; simpl; [reflexivity|].
    specialize (IH (S k) (tried ++ [Name x])).
    destruct (resolver_chain callback ctxDone req (S k) rs (tried ++ [Name x]))
      as [o log].
    destruct (existsb (succeeds req) rs); [exact IH|].
    destruct IH as [-> ->]. auto.
  - specialize (IH (S k) tried).
    destruct (resolver_chain callback ctxDone req (S k) rs tried) as [o log].
    destruct (existsb (succeeds req) rs); [exact IH|].
    destruct IH as [-> ->]. auto.
Qed.

(** X2.  When the fetch is not cancelled, the chain ends as resolved
    exactly when some resolver of the list supports the request and
    succeeds, however many resolvers before it fail; otherwise it ends as
    exhausted, after one call of [Resolve] on each supporting resolver, in
    registration order, and without a callback. *)
Theorem resolver_chain_resolves_iff_some_success
    (callback : bool) (ctxDone : nat -> bool) (req : FetchRequest)
    (rs : list Resolver) :
  (forall k, ctxDone k = false) ->
  (fst (resolver_chain callback ctxDone req 0 rs []) = Resolved
   <-> existsb (succeeds req) rs = true)
  /\ (fst (resolver_chain callback ctxDone req 0 rs []) = Exhausted
      <-> existsb (succeeds req) rs = false)
  /\ (existsb (succeeds req) rs = false ->
      snd (resolver_chain callback ctxDone req 0 rs []) = supported_calls req 0 rs).
Proof.
  intros Hlive.
  pose proof (resolver_chain_uncancelled callback ctxDone req rs Hlive 0 []) as H.
  destruct (resolver_chain callback ctxDone req 0 rs []) as [o log]. simpl.
  destruct (existsb (succeeds req) rs).
  - subst o. repeat split; auto; discriminate.
  - destruct H as [-> ->]. repeat split; auto; discriminate.
Qed.

Lemma resolver_chain_resolves_iff_some_success_witness :
  let req := rom_request "i1" "Metroid" "nes" in
  fst (resolver_chain true (fun _ => false) req 0
         [LocalCacheResolver; LocalCacheResolver; catalogue "igdb" (named "Metroid")] [])
  = Resolved
  /\ resolver_chain true (fun _ => false) req 0 [LocalCacheResolver] []
     = (Exhausted, [EvResolve 0 "local_cache"]).
Proof.
  intros req. split.
  - apply (resolver_chain_resolves_iff_some_success true (fun _ => false) req
             [LocalCacheResolver; LocalCacheResolver; catalogue "igdb" (named "Metroid")]);
      reflexivity.
  - destruct (resolver_chain_resolves_iff_some_success true (fun _ => false) req
                [LocalCacheResolver] (fun _ => eq_refl)) as (_ & Hex & Hlog).
    apply injective_projections; [apply Hex|apply Hlog]; reflexivity.
Defined.

(** ** The fetcher: what the channel, the pool and [Stop] guarantee *)

(** The channel neither loses nor duplicates nor reorders: what was in it
    followed by what [Queue] accepted is what the workers received
    followed by what is still in it. *)
Lemma run_queue_conservation (tr : list Action) (f f' : Fetcher) :
  run tr f = Done f' ->
  queue f ++ accepted tr f = received tr f ++ queue f'.
Proof.
  revert f. induction tr as [|a tr IH]; intros f Hrun; simpl in *.
  - injection Hrun as <-. rewrite app_nil_r. reflexivity.
  - destruct (exec a f) as [f1| |msg] eqn:Hexec; try discriminate.
    specialize (IH f1 Hrun). rewrite <- app_assoc, <- IH.
    destruct a; simpl in Hexec;
      try (injection Hexec as <-; simpl; rewrite ?app_nil_r; reflexivity).
    + injection Hexec as <-. unfold Start. destruct (isRunning f); reflexivity.
    + injection Hexec as <-. unfold Stop_locked.
      destruct (negb (isRunning f)); reflexivity.
    + unfold Stop_close in Hexec. repeat case_match; simplify_eq. reflexivity.
    + unfold Stop_wait in Hexec. repeat case_match; simplify_eq. reflexivity.
    + unfold Queue in *. repeat case_match; simplify_eq; simpl;
        rewrite <- ?app_assoc; reflexivity.
    + injection Hexec as <-. unfold Cancel. case_match; reflexivity.
    + unfold worker_step in Hexec.
      repeat case_match; simplify_eq; simpl; try reflexivity;
      match goal with Hq : queue f = _ |- _ => rewrite Hq end; reflexivity.
Qed.

(** X3.  Between [NewFetcher] and any state the fetcher reaches, the
    requests [Queue] accepted are, in the order of acceptance, the
    requests the workers took from the channel followed by the ones still
    waiting in it: no accepted request is lost, duplicated or overtaken. *)
Theorem accepted_requests_received_in_order (n : Z) (tr : list Action) (f : Fetcher) :
  reaches n tr f ->
  accepted tr (NewFetcher n) = received tr (NewFetcher n) ++ queue f.
Proof.
  intros Hreach. exact (run_queue_conservation tr (NewFetcher n) f Hreach).
Qed.

Lemma accepted_requests_received_in_order_witness :
  let a := rom_request "a" "Metroid" "nes" in
  let b := rom_request "b" "Zelda" "nes" in
  let c := rom_request "c" "Contra" "nes" in
  exists f,
    reaches 2 [ActQueue a; ActStart; ActQueue a; ActQueue b; ActWorker 1;
               ActQueue c; ActWorker 0] f
    /\ received [ActQueue a; ActStart; ActQueue a; ActQueue b; ActWorker 1;
                 ActQueue c; ActWorker 0] (NewFetcher 2) = [a; b]
    /\ [a; b; c] = [a; b] ++ queue f.
Proof.
  intros a b c. eexists. split; [vm_compute; reflexivity|].
  split; [reflexivity|].
  refine (accepted_requests_received_in_order 2
            [ActQueue a; ActStart; ActQueue a; ActQueue b; ActWorker 1;
             ActQueue c; ActWorker 0] _ _).
  vm_compute. reflexivity.
Defined.

(** A worker leaves its loop only on a closed and drained channel, and a
    closed channel is never sent to again. *)

Lemma exec_drained_after_exit (a : Action) (f f' : Fetcher) :
  drained_after_exit f -> exec a f = Done f' -> drained_after_exit f'.
Proof.
  unfold drained_after_exit. intros Hinv Hexec. destruct a; simpl in Hexec.
  - injection Hexec as <-. exact Hinv.
  - injection Hexec as <-. exact Hinv.
  - injection Hexec as <-. unfold Start. destruct (isRunning f); [exact Hinv|].
    simpl. intros [w Hw]. apply Hinv.
    apply lookup_app_Some in Hw as [Hw|[_ Hw]]; [eauto|].
    apply lookup_replicate in Hw as [Hw _]. discriminate.
  - injection Hexec as <-. unfold Stop_locked.
    destruct (negb (isRunning f)); exact Hinv.
  - unfold Stop_close in Hexec. repeat case_match; simplify_eq. simpl.
    intros Hex. split; [|reflexivity]. apply Hinv, Hex.
  - unfold Stop_wait in Hexec. repeat case_match; simplify_eq. exact Hinv.
  - unfold Queue in Hexec.
    destruct (negb (isRunning f)); [injection Hexec as <-; exact Hinv|].
    destruct (queue_closed f) eqn:Hclosed; [discriminate|].
    destruct (length (queue f) <? queue_capacity)%nat;
      injection Hexec as <-; simpl; [|rewrite Hclosed; exact Hinv].
    intros Hex. destruct (Hinv Hex) as [_ ?]. congruence.
  - injection Hexec as <-. unfold Cancel. case_match; exact Hinv.
  - unfold worker_step in Hexec.
    destruct (pool f !! w) as [wk|] eqn:Hw; [|discriminate].
    assert (Hother : forall st w1, st <> WExited ->
              <[w := st]> (pool f) !! w1 = Some WExited -> pool f !! w1 = Some WExited).
    { intros st w1 Hst Hw1.
      apply pool_insert_lookup in Hw1 as [[_ ?]|[_ ?]]; [congruence|assumption]. }
    destruct wk as [|req|req ctx k rest tried|req ctx o|]; try discriminate.
    + destruct (queue f) as [|req q] eqn:Hq.
      * destruct (queue_closed f) eqn:Hc; [|discriminate].
        injection Hexec as <-. simpl. rewrite Hq, Hc. auto.
      * injection Hexec as <-. simpl. intros [w1 Hw1].
        apply Hother in Hw1; [|discriminate].
        destruct Hinv as [? _]; [eauto|discriminate].
    + injection Hexec as <-. simpl. intros [w1 Hw1].
      apply Hother in Hw1; [|discriminate]. eauto.
    + destruct rest as [|r rest].
      * injection Hexec as <-. simpl. intros [w1 Hw1].
        apply Hother in Hw1; [|discriminate]. eauto.
      * destruct (loop_body _ _ _ _ _ _); injection Hexec as <-; simpl;
          intros [w1 Hw1]; (apply Hother in Hw1; [|discriminate]); eauto.
    + injection Hexec as <-. simpl. intros [w1 Hw1].
      apply Hother in Hw1; [|discriminate]. eauto.
Qed.

(** [Start] has filled the pool by the time a [Stop] can be under way. *)

Lemma exec_pool_started (a : Action) (f f' : Fetcher) :
  pool_started f -> exec a f = Done f' -> pool_started f'.
Proof.
  unfold pool_started. intros [Hw Hinv] Hexec. destruct a; simpl in Hexec.
  - injection Hexec as <-. auto.
  - injection Hexec as <-. auto.
  - injection Hexec as <-. unfold Start. destruct (isRunning f) eqn:Hr; [auto|].
    simpl. split; [exact Hw|]. intros _. rewrite length_app, length_replicate. lia.
  - injection Hexec as <-. unfold Stop_locked.
    destruct (isRunning f) eqn:Hr; simpl; [|rewrite Hr; auto].
    split; [exact Hw|]. intros _. apply Hinv. auto.
  - unfold Stop_close in Hexec. destruct (closing f) eqn:Hc; [discriminate|].
    destruct (queue_closed f); [discriminate|]. injection Hexec as <-. simpl.
    split; [exact Hw|]. intros _. apply Hinv. right. left. lia.
  - unfold Stop_wait in Hexec. destruct (waiting f) eqn:Hc; [discriminate|].
    destruct (forallb exited (pool f)); [|discriminate]. injection Hexec as <-. simpl.
    split; [exact Hw|]. intros _. apply Hinv. right. right. lia.
  - unfold Queue in Hexec. repeat case_match; simplify_eq; auto.
  - injection Hexec as <-. unfold Cancel. case_match; auto.
  - pose proof (worker_step_frame w f f' Hexec) as (-> & _ & -> & -> & _).
    unfold worker_step in Hexec.
    repeat case_match; simplify_eq; simpl; rewrite ?length_insert; auto.
Qed.

(** X4.  When the wait at the end of [Stop] returns, every goroutine of
    the pool has left its loop, the channel is closed and empty, no handle
    is left in the registry, and every request that [Queue] ever accepted
    has been handed to a worker, in the order of acceptance: [Stop] drains
    the queue, it does not discard it. *)
Theorem Stop_returns_after_drain (n : Z) (tr : list Action) (f f' : Fetcher) :
  reaches n tr f ->
  Stop_wait f = Done f' ->
  pool f' <> []
  /\ (forall w wk, pool f' !! w = Some wk -> wk = WExited)
  /\ queue f' = [] /\ queue_closed f' = true
  /\ cancelMap f' = ∅
  /\ received tr (NewFetcher n) = accepted tr (NewFetcher n).
Proof.
  intros Hreach Hwait.
  pose proof (run_invariant drained_after_exit exec_drained_after_exit tr
                (NewFetcher n) f) as Hdr.
  pose proof (run_invariant pool_started exec_pool_started tr (NewFetcher n) f) as Hps.
  pose proof (reaches_registry_invariant n tr f Hreach) as Hreg.
  pose proof (run_queue_conservation tr (NewFetcher n) f Hreach) as Hcons.
  unfold Stop_wait in Hwait. destruct (waiting f) as [|k] eqn:Hk; [discriminate|].
  destruct (forallb exited (pool f)) eqn:Hall; [|discriminate].
  injection Hwait as <-. simpl.
  assert (Hex : forall w wk, pool f !! w = Some wk -> wk = WExited).
  { intros w wk Hw. rewrite forallb_forall in Hall.
    apply list_elem_of_lookup_2, list_elem_of_In, Hall in Hw.
    destruct wk; simpl in Hw; congruence. }
  assert (Hlen : (0 < length (pool f))%nat).
  { apply Hps; [|exact Hreach|right; right; lia].
    split; [|simpl; intros [?|[?|?]]; [discriminate|lia|lia]].
    simpl. destruct (n <=? 0)%Z eqn:Hn; lia. }
  assert (Hne : pool f <> []) by (intros E; rewrite E in Hlen; simpl in Hlen; lia).
  destruct (pool f) as [|wk0 rest] eqn:Hpool; [contradiction|].
  assert (wk0 = WExited) as -> by (apply (Hex 0%nat); reflexivity).
  destruct Hdr as [Hq Hc]; [| exact Hreach | exists 0%nat; rewrite Hpool; reflexivity |].
  { intros [w Hw]. simpl in Hw. rewrite lookup_nil in Hw. discriminate. }
  split; [discriminate|]. split; [exact Hex|]. split; [exact Hq|]. split; [exact Hc|].
  split.
  - apply map_eq. intros id. rewrite lookup_empty.
    destruct (cancelMap f !! id) as [ctx|] eqn:Hid; [|reflexivity].
    destruct (inv_handle f Hreg id ctx Hid) as (_ & w & wk & Hw & Hfl & _).
    rewrite Hpool in Hw. apply Hex in Hw. subst wk. destruct Hfl.
  - simpl in Hcons. rewrite Hq, app_nil_r in Hcons. auto.
Qed.

Lemma Stop_returns_after_drain_witness :
  let a := rom_request "a" "Metroid" "nes" in
  exists f f',
    reaches 1 [ActStart; ActQueue a; ActStop; ActStopClose; ActWorker 0; ActWorker 0;
               ActWorker 0; ActWorker 0; ActWorker 0] f
    /\ Stop_wait f = Done f'
    /\ pool f' = [WExited]
    /\ received [ActStart; ActQueue a; ActStop; ActStopClose; ActWorker 0; ActWorker 0;
                 ActWorker 0; ActWorker 0; ActWorker 0] (NewFetcher 1) = [a].
Proof.
  intros a. eexists. eexists.
  split; [vm_compute; reflexivity|]. split; [vm_compute; reflexivity|].
  split; [reflexivity|].
  refine (proj2 (proj2 (proj2 (proj2 (proj2 (Stop_returns_after_drain 1
    [ActStart; ActQueue a; ActStop; ActStopClose; ActWorker 0; ActWorker 0;
     ActWorker 0; ActWorker 0; ActWorker 0] _ _ _ _)))))).
  - vm_compute. reflexivity.
  - vm_compute. reflexivity.
Defined.

(** The size of the pool along the schedules that never start a stopped
    fetcher again. *)
Lemma exec_pool_size (n : Z) (a : Action) (ph : Phase) (f f' : Fetcher) :
  (workers f = workers (NewFetcher n)
   /\ isRunning f = running_phase ph
   /\ length (pool f) = match ph with BeforeStart => 0%nat | _ => worker_count n end) ->
  (a = ActStart -> ph <> AfterStop) ->
  exec a f = Done f' ->
  workers f' = workers (NewFetcher n)
  /\ isRunning f' = running_phase (phase_step ph a)
  /\ length (pool f')
     = match phase_step ph a with BeforeStart => 0%nat | _ => worker_count n end.
Proof.
  intros (Hw & Hrun & Hlen) Hok Hexec.
  split; [|split; [eapply exec_isRunning; eauto|]].
  - clear Hlen Hrun Hok.
    destruct a; simpl in Hexec; try (injection Hexec as <-; exact Hw).
    + injection Hexec as <-. unfold Start. destruct (isRunning f); exact Hw.
    + injection Hexec as <-. unfold Stop_locked.
      destruct (negb (isRunning f)); exact Hw.
    + unfold Stop_close in Hexec. repeat case_match; simplify_eq. exact Hw.
    + unfold Stop_wait in Hexec. repeat case_match; simplify_eq. exact Hw.
    + unfold Queue in Hexec. repeat case_match; simplify_eq; exact Hw.
    + injection Hexec as <-. unfold Cancel. case_match; exact Hw.
    + unfold worker_step in Hexec. repeat case_match; simplify_eq; exact Hw.
  - destruct a; simpl in Hexec.
    + injection Hexec as <-. destruct ph; exact Hlen.
    + injection Hexec as <-. destruct ph; exact Hlen.
    + injection Hexec as <-. unfold Start.
      destruct (isRunning f) eqn:Hr; destruct ph; simpl in *; try discriminate;
        try exact Hlen.
      * rewrite length_app, length_replicate, Hlen, Hw. reflexivity.
      * exfalso. apply Hok; reflexivity.
    + injection Hexec as <-. unfold Stop_locked.
      destruct (isRunning f) eqn:Hr; destruct ph; simpl in *; try discriminate;
        exact Hlen.
    + simpl. rewrite <- Hlen. clear Hlen Hrun Hok. unfold Stop_close in Hexec.
      repeat case_match; simplify_eq; reflexivity.
    + simpl. rewrite <- Hlen. clear Hlen Hrun Hok. unfold Stop_wait in Hexec.
      repeat case_match; simplify_eq; reflexivity.
    + simpl. rewrite <- Hlen. clear Hlen Hrun Hok. unfold Queue in Hexec.
      repeat case_match; simplify_eq; reflexivity.
    + simpl. rewrite <- Hlen. clear Hlen Hrun Hok. injection Hexec as <-.
      unfold Cancel. case_match; reflexivity.
    + simpl. rewrite <- Hlen. clear Hlen Hrun Hok. unfold worker_step in Hexec.
      repeat case_match; simplify_eq; simpl; rewrite ?length_insert; reflexivity.
Qed.

(** X5.  [NewFetcher] replaces a worker count that is not positive by 2.
    The first [Start] launches exactly that many goroutines and every
    further [Start] of the running fetcher launches none: until a stopped
    fetcher is started again the pool keeps that size, whatever else is
    called. *)
Theorem Start_launches_workers_once (n : Z) (tr : list Action) (f : Fetcher) :
  reaches n tr f ->
  restarts tr = false ->
  workers f = (if (n <=? 0)%Z then 2%Z else n)
  /\ length (pool f)
     = match lifecycle tr with
       | BeforeStart => 0%nat
       | _ => Z.to_nat (if (n <=? 0)%Z then 2%Z else n)
       end.
Proof.
  intros Hreach Hres.
  destruct (run_phase_invariant_no_restart
              (fun ph f => workers f = workers (NewFetcher n)
                           /\ isRunning f = running_phase ph
                           /\ length (pool f)
                              = match ph with
                                | BeforeStart => 0%nat
                                | _ => worker_count n
                                end)
              (exec_pool_size n) tr BeforeStart (NewFetcher n) f)
    as (Hw & _ & Hlen); auto.
Qed.

Lemma Start_launches_workers_once_witness :
  exists f,
    reaches 0 [ActStart; ActQueue (rom_request "a" "Metroid" "nes"); ActStart;
               ActWorker 1; ActStart] f
    /\ workers f = 2%Z /\ length (pool f) = 2%nat.
Proof.
  eexists. split; [vm_compute; reflexivity|].
  refine (Start_launches_workers_once 0
            [ActStart; ActQueue (rom_request "a" "Metroid" "nes"); ActStart;
             ActWorker 1; ActStart] _ _ _).
  - vm_compute. reflexivity.
  - reflexivity.
Defined.




(** X7.  [Cancel] touches the fetch of the named instance only: without a
    handle for the instance it changes nothing; otherwise the handle of the
    instance is gone afterwards, and the handle of every other instance is
    still registered and its context is still live. *)
Theorem Cancel_only_named_instance (n : Z) (tr : list Action) (f : Fetcher)
    (id : string) :
  reaches n tr f ->
  (cancelMap f !! id = None -> Cancel id f = f)
  /\ cancelMap (Cancel id f) !! id = None
  /\ forall id' ctx', id' <> id -> cancelMap f !! id' = Some ctx' ->
       cancelMap (Cancel id f) !! id' = Some ctx'
       /\ ctx' ∉ cancelled (Cancel id f).
Proof.
  intros Hreach.
  pose proof (reaches_registry_invariant n tr f Hreach) as Hreg.
  assert (Hreg' : registry_invariant (Cancel id f)).
  { apply (exec_registry_invariant (ActCancel id) f); [exact Hreg|reflexivity]. }
  split; [|split].
  - intros Hnone. unfold Cancel. rewrite Hnone. reflexivity.
  - unfold Cancel. destruct (cancelMap f !! id) eqn:Hid; simpl; [|exact Hid].
    apply lookup_delete_eq.
  - intros id' ctx' Hne Hid'.
    assert (Hkept : cancelMap (Cancel id f) !! id' = Some ctx').
    { unfold Cancel. destruct (cancelMap f !! id); simpl; [|exact Hid'].
      rewrite lookup_delete_ne by auto. exact Hid'. }
    split; [exact Hkept|]. apply (inv_handle _ Hreg' id' ctx' Hkept).
Qed.

Lemma Cancel_only_named_instance_witness :
  let a := rom_request "a" "Metroid" "nes" in
  let b := rom_request "b" "Zelda" "nes" in
  exists f,
    reaches 2 [ActRegister LocalCacheResolver; ActStart; ActQueue a; ActQueue b;
               ActWorker 0; ActWorker 1; ActWorker 0; ActWorker 1] f
    /\ cancelMap f !! "a" = Some 0%nat
    /\ cancelMap (Cancel "a" f) !! "a" = None
    /\ cancelMap (Cancel "a" f) !! "b" = Some 1%nat
    /\ 1%nat ∉ cancelled (Cancel "a" f).
Proof.
  intros a b. eexists. split; [vm_compute; reflexivity|]. split; [reflexivity|].
  destruct (Cancel_only_named_instance 2
    [ActRegister LocalCacheResolver; ActStart; ActQueue a; ActQueue b;
     ActWorker 0; ActWorker 1; ActWorker 0; ActWorker 1] _ "a"
    ltac:(vm_compute; reflexivity)) as (_ & H1 & H2).
  split; [exact H1|]. apply (H2 "b" 1%nat); [discriminate|reflexivity].
Defined.

(** ** Resolution and launch *)

(** The rows of the platform join pair an emulator of the database with
    one of its mappings for the platform, and with a core of that emulator
    named by the mapping. *)
Lemma platform_join_In (db : DB) (platform : string) (r : JoinRow) :
  In r (platform_join db platform) ->
  In (row_pe r) (platform_emulators db)
  /\ pe_platform (row_pe r) = platform
  /\ pe_emulator_id (row_pe r) = Emulator_ID (row_e r)
  /\ forall c, row_c r = Some c ->
       Core_CoreID c = pe_core_id (row_pe r)
       /\ Core_EmulatorID c = Emulator_ID (row_e r).
Proof.
  unfold platform_join. intros Hin.
  apply in_flat_map in Hin as (e & He & Hin).
  apply in_flat_map in Hin as (pe & Hpe & Hin).
  apply List.filter_In in Hpe as [Hpe Hc].
  apply andb_true_iff in Hc as [Hid Hp].
  apply String.eqb_eq in Hid, Hp.
  unfold left_join_cores in Hin.
  destruct (List.filter _ (emulator_cores db)) as [|c0 cs] eqn:Hf.
  - destruct Hin as [<-|[]]. simpl.
    split; [exact Hpe|]. split; [exact Hp|]. split; [auto|discriminate].
  - apply in_map_iff in Hin as (c & <- & Hc). simpl.
    split; [exact Hpe|]. split; [exact Hp|]. split; [auto|].
    intros c' [= <-]. rewrite <- Hf in Hc. apply List.filter_In in Hc as [_ Hc].
    apply andb_true_iff in Hc as [H1 H2]. apply String.eqb_eq in H1, H2. auto.
Qed.

Lemma GetEmulator_Ok (db : DB) (id : string) (e : Emulator) :
  GetEmulator db id = Ok e -> In e (emulators db) /\ Emulator_ID e = id.
Proof.
  unfold GetEmulator. intros H. apply QueryRow_Ok in H as [_ [rest Hrows]].
  assert (Hin : In e (List.filter (fun e => String.eqb (Emulator_ID e) id) (emulators db)))
    by (rewrite Hrows; left; reflexivity).
  apply List.filter_In in Hin as [Hin Hid]. apply String.eqb_eq in Hid. auto.
Qed.

Lemma GetCore_Ok (db : DB) (emulatorID coreID : string) (c : EmulatorCore) :
  GetCore db emulatorID coreID = Ok c ->
  In c (emulator_cores db) /\ Core_EmulatorID c = emulatorID /\ Core_CoreID c = coreID.
Proof.
  unfold GetCore. intros H. apply QueryRow_Ok in H as [_ [rest Hrows]].
  match type of Hrows with ?l = _ => assert (Hin : In c l) by (rewrite Hrows; left; reflexivity) end.
  apply List.filter_In in Hin as [Hin Hid].
  apply andb_true_iff in Hid as [H1 H2]. apply String.eqb_eq in H1, H2. auto.
Qed.

Lemma resolve_override_Some (db : DB) (instance : GameInstance)
    (e : Emulator) (c : option EmulatorCore) :
  resolve_override db instance = Some (e, c) ->
  Emulator_IsAvailable e = true
  /\ forall core, c = Some core ->
       Core_IsAvailable core = true /\ Core_EmulatorID core = Emulator_ID e.
Proof.
  unfold resolve_override, getEmulatorAndCore.
  destruct (GetInstanceEmulatorSettings db (Instance_ID instance)) as [s|?]; [|discriminate].
  destruct (GetEmulator db (Settings_EmulatorID s)) as [emu|?] eqn:He; [|discriminate].
  apply GetEmulator_Ok in He as [_ Hid].
  destruct (Emulator_IsAvailable emu) eqn:Ha; [|discriminate].
  destruct (String.eqb (Settings_CoreID s) EmptyString).
  { intros [= <- <-]. split; [exact Ha|discriminate]. }
  destruct (GetCore db (Settings_EmulatorID s) (Settings_CoreID s)) as [c0|?] eqn:Hc.
  - apply GetCore_Ok in Hc as (_ & Hce & _).
    destruct (Core_IsAvailable c0) eqn:Hca; [|discriminate].
    intros [= <- <-]. split; [exact Ha|]. intros core [= <-]. split; congruence.
  - intros [= <- <-]. split; [exact Ha|discriminate].
Qed.

(** What steps 2 and 3 return comes from an available row of the platform
    join. *)
Lemma ResolveEmulator_from_join (db : DB) (instance : GameInstance)
    (e : Emulator) (c : option EmulatorCore) :
  resolve_override db instance = None ->
  ResolveEmulator db instance = Ok (e, c) ->
  exists r, In r (platform_join db (Instance_Platform instance))
            /\ row_available r = true
            /\ e = scan_emulator (row_e r) /\ c = row_c r.
Proof.
  intros Hov. unfold ResolveEmulator. rewrite Hov.
  destruct (GetDefaultEmulatorForPlatform db (Instance_Platform instance) true)
    as [[e0 c0]|?] eqn:Hd.
  - intros [= <- <-].
    apply GetDefaultEmulatorForPlatform_available in Hd as (r & Hin & _ & Ha & -> & ->).
    eauto.
  - unfold GetAvailableEmulatorsForPlatform. destruct (conn_err db); [discriminate|].
    destruct (available_rows db (Instance_Platform instance)) as [|r rest] eqn:Hrows;
      [discriminate|].
    simpl. intros [= <- <-].
    assert (Hin : In r (available_rows db (Instance_Platform instance)))
      by (rewrite Hrows; left; reflexivity).
    unfold available_rows in Hin. apply (proj1 (order_by_priority_In _ _)) in Hin.
    apply List.filter_In in Hin as [Hin Ha]. eauto.
Qed.



(** The availability flag of a platform. *)
Lemma populate_lookup (g : string -> bool) (platforms : list string) :
  forall (cache : gmap string bool) (p : string),
    fold_left (fun c q => <[q := g q]> c) platforms cache !! p
    = if bool_decide (p ∈ platforms) then Some (g p) else cache !! p.
Proof.
  induction platforms as [|q l IH]; intros cache p; cbn [fold_left].
  - case_bool_decide as Hin; [|reflexivity]. apply elem_of_nil in Hin. destruct Hin.
  - rewrite IH. case_bool_decide as Hl; case_bool_decide as Hql; try reflexivity.
    + exfalso. apply Hql, elem_of_cons. auto.
    + apply elem_of_cons in Hql as [->|Hin]; [|contradiction].
      apply lookup_insert_eq.
    + apply lookup_insert_ne. intros ->. apply Hql, elem_of_cons. auto.
Qed.

(** A default that is available is one of the available pairs: the flag
    the cache stores is the one computed on demand. *)
Lemma platform_has_emulator_on_demand (db : DB) (platform : string) :
  platform_has_emulator db platform
  = match GetAvailableEmulatorsForPlatform db platform with
    | Ok (_ :: _) => true
    | _ => false
    end.
Proof.
  unfold platform_has_emulator.
  destruct (GetDefaultEmulatorForPlatform db platform true) as [[e c]|err] eqn:Hd;
    [|reflexivity].
  unfold GetDefaultEmulatorForPlatform in Hd.
  destruct (QueryRow db (default_rows db platform true)) as [r|?] eqn:Hq; [|discriminate].
  apply QueryRow_Ok in Hq as [Hconn [rest Hrows]].
  unfold GetAvailableEmulatorsForPlatform. rewrite Hconn.
  assert (Hin : In r (default_rows db platform true)) by (rewrite Hrows; left; reflexivity).
  unfold default_rows in Hin. apply List.filter_In in Hin as [Hin Hc].
  apply andb_true_iff in Hc as [_ Ha].
  assert (Hav : In r (available_rows db platform)).
  { unfold available_rows. apply order_by_priority_In, List.filter_In. auto. }
  destruct (available_rows db platform); [destruct Hav|reflexivity].
Qed.

Lemma ResolveEmulator_without_override (db : DB) (instance : GameInstance) :
  resolve_override db instance = None ->
  if platform_has_emulator db (Instance_Platform instance)
  then exists found, ResolveEmulator db instance = Ok found
  else exists err, ResolveEmulator db instance = Err err.
Proof.
  intros Hov. unfold ResolveEmulator, platform_has_emulator. rewrite Hov.
  destruct (GetDefaultEmulatorForPlatform db (Instance_Platform instance) true);
    [eauto|].
  destruct (GetAvailableEmulatorsForPlatform db (Instance_Platform instance))
    as [[|first rest]|?]; eauto.
Qed.

(** X9.  The availability flag the emulated source shows for a platform,
    cached by [populateEmulatorAvailabilityCache] or computed on demand,
    agrees with resolution on the same database: when the flag is true,
    [ResolveEmulator] succeeds for every instance of the platform; when it
    is false, [ResolveEmulator] fails for every instance of the platform
    that has no usable override. *)
Theorem availability_flag_agrees_with_resolution
    (db : DB) (platforms : list string) (cache : gmap string bool)
    (instance : GameInstance) :
  Instance_Platform instance ∈ platforms \/ cache !! Instance_Platform instance = None ->
  let flag :=
    getEmulatorAvailabilityForPlatform
      (populateEmulatorAvailabilityCache (Some db) platforms cache)
      (Some db) (Instance_Platform instance) in
  (flag = true -> exists found, ResolveEmulator db instance = Ok found)
  /\ (flag = false -> resolve_override db instance = None ->
      exists err, ResolveEmulator db instance = Err err).
Proof.
  intros Hfresh flag.
  assert (Hflag : flag = platform_has_emulator db (Instance_Platform instance)).
  { unfold flag, getEmulatorAvailabilityForPlatform, populateEmulatorAvailabilityCache.
    rewrite populate_lookup.
    destruct (bool_decide (Instance_Platform instance ∈ platforms)) eqn:Hin;
      [reflexivity|].
    destruct Hfresh as [Hp|Hnone].
    - apply bool_decide_eq_false in Hin. contradiction.
    - rewrite Hnone. symmetry. apply platform_has_emulator_on_demand. }
  rewrite Hflag. split.
  - intros Htrue. destruct (resolve_override db instance) as [found|] eqn:Hov.
    + exists found. unfold ResolveEmulator. rewrite Hov. reflexivity.
    + pose proof (ResolveEmulator_without_override db instance Hov) as H.
      rewrite Htrue in H. exact H.
  - intros Hfalse Hov.
    pose proof (ResolveEmulator_without_override db instance Hov) as H.
    rewrite Hfalse in H. exact H.
Qed.

Lemma availability_flag_agrees_with_resolution_witness :
  let db := Seed.seed_db ["dolphin"] [] [] in
  (exists found, ResolveEmulator db (Seed.rom_instance "i1" "wii" "/roms/a.iso") = Ok found)
  /\ (exists err, ResolveEmulator db (Seed.rom_instance "i2" "nes" "/roms/b.nes") = Err err).
Proof.
  intros db. split.
  - apply (availability_flag_agrees_with_resolution db ["wii"; "nes"] ∅
             (Seed.rom_instance "i1" "wii" "/roms/a.iso")).
    + left. apply elem_of_cons. left. reflexivity.
    + vm_compute. reflexivity.
  - apply (availability_flag_agrees_with_resolution db ["wii"] ∅
             (Seed.rom_instance "i2" "nes" "/roms/b.nes")).
    + right. reflexivity.
    + vm_compute. reflexivity.
    + vm_compute. reflexivity.
Defined.

Lemma ResolveEmulator_available (db : DB) (instance : GameInstance)
    (e : Emulator) (c : option EmulatorCore) :
  ResolveEmulator db instance = Ok (e, c) -> Emulator_IsAvailable e = true.
Proof.
  intros Hres. destruct (resolve_override db instance) as [[e0 c0]|] eqn:Hov.
  - unfold ResolveEmulator in Hres. rewrite Hov in Hres. injection Hres as <- <-.
    apply (resolve_override_Some db instance e0 c0 Hov).
  - destruct (ResolveEmulator_from_join db instance e c Hov Hres)
      as (r & _ & Ha & -> & _).
    unfold row_available in Ha. apply andb_true_iff in Ha as [Ha _]. exact Ha.
Qed.

Section LaunchFacts.
Import GoStrings.

Variable coreLibraryPath : string -> string.

(** [BuildCommand] on an available emulator returns the argument vector of
    the flatpak or of the native builder. *)
Lemma BuildCommand_available (emu : Emulator) (core : option EmulatorCore)
    (romPath customArgs : string) :
  Emulator_IsAvailable emu = true ->
  exists coreLibPath,
    BuildCommand coreLibraryPath (Some emu) core romPath customArgs
    = Ok (if String.eqb (Emulator_Type emu) EmulatorTypeFlatpak
          then buildFlatpakCommand emu coreLibPath romPath
                 (joined_args (Emulator_DefaultArgs emu) customArgs)
          else buildNativeCommand emu romPath
                 (joined_args (Emulator_DefaultArgs emu) customArgs)).
Proof.
  intros Ha. unfold BuildCommand, joined_args. rewrite Ha. simpl.
  eexists. destruct (String.eqb (Emulator_Type emu) EmulatorTypeFlatpak); reflexivity.
Qed.

(** X10.  Before it starts the process, [Launch] on a configured service
    returns an error exactly when [ResolveEmulator] fails, and the error
    wraps the one of [ResolveEmulator]: the checks for an emulator that is
    not installed and for a command that cannot be built never fire.
    After a successful resolution the command is built with the custom
    arguments of the settings of the instance, whichever step resolved
    the emulator, and [Launch] runs its first token; a blank command
    template leaves no token and [Launch] panics on [cmd[0]]. *)
Theorem Launch_fails_only_when_resolution_fails (db : DB) (instance : GameInstance) :
  (forall err,
     Launch coreLibraryPath (Some db) instance = LaunchError err
     <-> exists e, ResolveEmulator db instance = Err e
                   /\ err = Errorf_w ("no emulator available for "
                                      +:+ Instance_Platform instance +:+ ": ") e)
  /\ (forall emu core, ResolveEmulator db instance = Ok (emu, core) ->
        exists argv,
          BuildCommand coreLibraryPath (Some emu) core (Instance_Path instance)
            match GetInstanceEmulatorSettings db (Instance_ID instance) with
            | Ok settings => Settings_CustomArgs settings
            | Err _ => EmptyString
            end = Ok argv
          /\ Launch coreLibraryPath (Some db) instance
             = match argv with
               | [] => LaunchPanics "index out of range [0] with length 0"
               | name :: arguments => LaunchExec name arguments
               end
          /\ (Emulator_CommandTemplate emu = EmptyString -> argv = [])).
Proof.
  assert (Hok : forall emu core, ResolveEmulator db instance = Ok (emu, core) ->
            exists argv,
              BuildCommand coreLibraryPath (Some emu) core (Instance_Path instance)
                match GetInstanceEmulatorSettings db (Instance_ID instance) with
                | Ok settings => Settings_CustomArgs settings
                | Err _ => EmptyString
                end = Ok argv
              /\ Launch coreLibraryPath (Some db) instance
                 = match argv with
                   | [] => LaunchPanics "index out of range [0] with length 0"
                   | name :: arguments => LaunchExec name arguments
                   end
              /\ (Emulator_CommandTemplate emu = EmptyString -> argv = [])).
  { intros emu core Hres.
    pose proof (ResolveEmulator_available db instance emu core Hres) as Ha.
    destruct (BuildCommand_available emu core (Instance_Path instance)
                match GetInstanceEmulatorSettings db (Instance_ID instance) with
                | Ok settings => Settings_CustomArgs settings
                | Err _ => EmptyString
                end Ha) as [lib Hb].
    eexists. split; [exact Hb|]. split.
    - unfold Launch. rewrite Hres, Ha. cbn [negb]. rewrite Hb. reflexivity.
    - intros Htpl. unfold buildFlatpakCommand, buildNativeCommand. rewrite Htpl.
      destruct (String.eqb (Emulator_Type emu) EmulatorTypeFlatpak); reflexivity. }
  split; [|exact Hok].
  intros err. split.
  - intros HL. destruct (ResolveEmulator db instance) as [[emu core]|e] eqn:Hres.
    + destruct (Hok emu core eq_refl) as (argv & _ & HL' & _).
      rewrite HL' in HL. destruct argv; discriminate.
    + unfold Launch in HL. rewrite Hres in HL. injection HL as <-. eauto.
  - intros (e & Hres & ->). unfold Launch. rewrite Hres. reflexivity.
Qed.

(** A word of a template is copied by the replacement of a placeholder. *)
Lemma word_inert (w : string) : all_runes word_rune w = true -> inert w = true.
Proof.
  unfold inert. induction w as [|c w IH]; [reflexivity|]. cbn [all_runes].
  intros [Hc Hw]%andb_true_iff. unfold word_rune in Hc.
  apply andb_true_iff in Hc as [Hc _]. rewrite Hc, (IH Hw). reflexivity.
Qed.

Lemma ReplaceAll_word (w rest old' new : string) :
  all_runes word_rune w = true ->
  ReplaceAll (w +:+ String space rest) (String "{" old') new
  = w +:+ String space (ReplaceAll rest (String "{" old') new).
Proof.
  intros Hw. unfold ReplaceAll.
  rewrite (replace_from_inert w _ _ new (word_inert w Hw)).
  f_equal.
Qed.

(** The parser copies a word to the argument under construction. *)
Lemma parse_loop_word (w : string) :
  forall st, all_runes word_rune w = true -> inQuote st = false ->
    parse_loop st w
    = {| args := args st; currentArg := currentArg st +:+ w;
         inQuote := false; quoteChar := quoteChar st |}.
Proof.
  induction w as [|c w IH]; intros st Hw Hq.
  - rewrite append_nil_r. destruct st; simpl in *; subst; reflexivity.
  - cbn [all_runes] in Hw. apply andb_true_iff in Hw as [Hc Hw].
    unfold word_rune, inert_rune in Hc.
    apply andb_true_iff in Hc as [Hc Hsp]. apply andb_true_iff in Hc as [Hc _].
    apply andb_true_iff in Hc as [Hd Hs]. apply negb_true_iff in Hd, Hs, Hsp.
    assert (Hstep : parse_rune st c = WriteRune st c).
    { unfold parse_rune. rewrite Hd, Hs, Hsp. reflexivity. }
    cbn [parse_loop]. rewrite Hstep, (IH (WriteRune st c) Hw Hq). simpl.
    rewrite string_app_assoc. reflexivity.
Qed.

(** The parser only ever appends to the arguments it has. *)
Lemma parse_loop_args_grow (s : string) :
  forall st, exists more, args (parse_loop st s) = args st ++ more.
Proof.
  induction s as [|c s IH]; intros st; simpl.
  - exists []. rewrite app_nil_r. reflexivity.
  - destruct (IH (parse_rune st c)) as [more Hmore]. rewrite Hmore.
    unfold parse_rune, WriteRune. repeat case_match; simpl; eauto.
    rewrite <- app_assoc. eauto.
Qed.

Lemma parseCommandWithQuotes_first_word (w rest : string) :
  w <> EmptyString -> all_runes word_rune w = true ->
  exists arguments, parseCommandWithQuotes (w +:+ String space rest) = w :: arguments.
Proof.
  intros Hne Hw. unfold parseCommandWithQuotes.
  rewrite parse_loop_app, (parse_loop_word w parse_init Hw eq_refl).
  cbn [parse_loop Emulator.args Emulator.currentArg]. rewrite append_nil_l.
  set (st := parse_rune _ space).
  assert (Hst : args st = [w]).
  { unfold st, parse_rune. simpl. destruct w; [contradiction|reflexivity]. }
  destruct (parse_loop_args_grow rest st) as [more Hmore]. rewrite Hst in Hmore.
  rewrite Hmore. destruct (0 <? _)%nat; simpl; eauto.
Qed.

(** X11.  When the command template of the resolved emulator begins with
    a word (without quote characters, braces or spaces) followed by a
    space, [Launch] does not panic and the program it starts is that
    word, whatever the placeholders are replaced by: the path of the ROM,
    the arguments and the package id only ever supply arguments. *)
Theorem Launch_runs_first_word_of_template
    (db : DB) (instance : GameInstance) (emu : Emulator)
    (core : option EmulatorCore) (w rest : string) :
  ResolveEmulator db instance = Ok (emu, core) ->
  Emulator_CommandTemplate emu = w +:+ String space rest ->
  w <> EmptyString -> all_runes word_rune w = true ->
  exists arguments, Launch coreLibraryPath (Some db) instance = LaunchExec w arguments.
Proof.
  intros Hres Htpl Hne Hw.
  pose proof (ResolveEmulator_available db instance emu core Hres) as Ha.
  destruct (BuildCommand_available emu core (Instance_Path instance)
              match GetInstanceEmulatorSettings db (Instance_ID instance) with
              | Ok settings => Settings_CustomArgs settings
              | Err _ => EmptyString
              end Ha) as [lib Hb].
  unfold Launch. rewrite Hres, Ha. cbn [negb]. rewrite Hb.
  unfold buildFlatpakCommand, buildNativeCommand. rewrite Htpl.
  destruct (String.eqb (Emulator_Type emu) EmulatorTypeFlatpak).
  - rewrite (ReplaceAll_word w rest "flatpak_id}" _ Hw).
    rewrite (ReplaceAll_word w _ "core_lib_path}" _ Hw).
    rewrite (ReplaceAll_word w _ "args}" _ Hw).
    rewrite (ReplaceAll_word w _ "rom}" _ Hw).
    destruct (parseCommandWithQuotes_first_word w
                (ReplaceAll (ReplaceAll (ReplaceAll (ReplaceAll rest
                   "{flatpak_id}" (Emulator_FlatpakID emu))
                   "{core_lib_path}" (quotePathIfNeeded lib))
                   "{args}" (joined_args (Emulator_DefaultArgs emu)
                      match GetInstanceEmulatorSettings db (Instance_ID instance) with
                      | Ok settings => Settings_CustomArgs settings
                      | Err _ => EmptyString
                      end))
                   "{rom}" (quotePathIfNeeded (Instance_Path instance)))
                Hne Hw) as [arguments Hargv].
    rewrite Hargv. eauto.
  - rewrite (ReplaceAll_word w rest "executable}" _ Hw).
    rewrite (ReplaceAll_word w _ "args}" _ Hw).
    rewrite (ReplaceAll_word w _ "rom}" _ Hw).
    destruct (parseCommandWithQuotes_first_word w
                (ReplaceAll (ReplaceAll (ReplaceAll rest
                   "{executable}" (Emulator_ExecutablePath emu))
                   "{args}" (joined_args (Emulator_DefaultArgs emu)
                      match GetInstanceEmulatorSettings db (Instance_ID instance) with
                      | Ok settings => Settings_CustomArgs settings
                      | Err _ => EmptyString
                      end))
                   "{rom}" (quotePathIfNeeded (Instance_Path instance)))
                Hne Hw) as [arguments Hargv].
    rewrite Hargv. eauto.
Qed.

End LaunchFacts.

Lemma Launch_runs_first_word_of_template_witness :
  exists arguments,
    Launch (fun coreID => "/cores/" +:+ coreID +:+ ".so")
           (Some (Seed.seed_db ["dolphin"] [] []))
           (Seed.rom_instance "i1" "wii" "/roms/Wii Sports.iso")
    = LaunchExec "flatpak" arguments.
Proof.
  apply (Launch_runs_first_word_of_template
           (fun coreID => "/cores/" +:+ coreID +:+ ".so")
           (Seed.seed_db ["dolphin"] [] [])
           (Seed.rom_instance "i1" "wii" "/roms/Wii Sports.iso")
           (scan_emulator (Seed.dolphin true)) None
           "flatpak" "run {flatpak_id} {args} {rom}").
  - vm_compute. reflexivity.
  - reflexivity.
  - discriminate.
  - reflexivity.
Defined.

(** ** Discovery of the installed emulators and cores *)

Section DiscoveryFacts.
Variable flatpak_info : string -> bool.
Variable LookPath : string -> bool.
Variable core_file : string -> bool.

Local Abbreviation host := (host_has flatpak_info LookPath).

Lemma set_emulator_available_same (e : Emulator) :
  set_emulator_available e (Emulator_IsAvailable e) = e.
Proof. destruct e; reflexivity. Qed.

Lemma set_core_available_same (c : EmulatorCore) :
  set_core_available c (Core_IsAvailable c) = c.
Proof. destruct c; reflexivity. Qed.

Lemma eqb_negb_false (a b : bool) : negb (Bool.eqb a b) = false -> a = b.
Proof. destruct a, b; simpl; congruence. Qed.

(** An update by a key that no row has changes no row. *)
Lemma update_absent {A : Type} (key : A -> string) (upd : A -> A) (id : string)
    (l : list A) :
  ~ In id (List.map key l) ->
  List.map (fun x => if String.eqb (key x) id then upd x else x) l = l.
Proof.
  induction l as [|x l IH]; simpl; [reflexivity|].
  intros Hnin. destruct (String.eqb_spec (key x) id) as [Heq|Hne].
  - exfalso. apply Hnin. left. exact Heq.
  - f_equal. apply IH. intros Hin. apply Hnin. right. exact Hin.
Qed.

(** An update by the key of one row of a table with distinct keys changes
    that row only. *)
Lemma update_one {A : Type} (key : A -> string) (upd : A -> A)
    (before after : list A) (x : A) :
  List.NoDup (List.map key (before ++ x :: after)) ->
  List.map (fun y => if String.eqb (key y) (key x) then upd y else y)
           (before ++ x :: after)
  = before ++ upd x :: after.
Proof.
  rewrite List.map_app. simpl. intros Hnd.
  apply List.NoDup_remove_2 in Hnd.
  rewrite List.map_app. simpl. rewrite String.eqb_refl.
  rewrite !update_absent; [reflexivity| |];
    intros Hin; apply Hnd, List.in_or_app; auto.
Qed.

Lemma discover_emulators_spec (todo : list Emulator) :
  forall (before : list Emulator) (db : DB),
    conn_err db = None ->
    emulators db = before ++ todo ->
    List.NoDup (List.map Emulator_ID (before ++ todo)) ->
    discover_emulators flatpak_info LookPath todo db
    = (set_emulators
         (before ++ List.map (fun e => set_emulator_available e (host e)) todo) db,
       List.map (fun e => set_emulator_available e (host e)) todo).
Proof.
  induction todo as [|emu rest IH]; intros before db Hconn Hems Hnd.
  - simpl. rewrite <- Hems. destruct db; reflexivity.
  - cbn [discover_emulators List.map].
    destruct (negb (Bool.eqb (host emu) (Emulator_IsAvailable emu))) eqn:Hchg.
    + assert (Hup : UpdateEmulatorAvailability db (Emulator_ID emu) (host emu)
                    = set_emulators
                        ((before ++ [set_emulator_available emu (host emu)]) ++ rest) db).
      { unfold UpdateEmulatorAvailability. rewrite Hconn, Hems.
        rewrite (update_one Emulator_ID (fun e => set_emulator_available e (host emu))
                   before rest emu Hnd).
        rewrite <- app_assoc. reflexivity. }
      rewrite Hup.
      rewrite (IH (before ++ [set_emulator_available emu (host emu)])).
      * rewrite <- app_assoc. reflexivity.
      * exact Hconn.
      * reflexivity.
      * rewrite <- app_assoc. simpl.
        rewrite List.map_app in *. simpl in *. exact Hnd.
    + apply eqb_negb_false in Hchg.
      rewrite (IH (before ++ [emu]) db Hconn).
      * rewrite Hchg, set_emulator_available_same, <- app_assoc. reflexivity.
      * rewrite <- app_assoc. exact Hems.
      * rewrite <- app_assoc. exact Hnd.
Qed.

Local Abbreviation is_retroarch c := (String.eqb (Core_EmulatorID c) "retroarch").

Lemma discover_cores_spec (todo : list EmulatorCore) :
  forall (before : list EmulatorCore) (db : DB),
    conn_err db = None ->
    emulator_cores db = before ++ todo ->
    List.NoDup (List.map Core_ID (before ++ todo)) ->
    discover_cores core_file (List.filter (fun c => is_retroarch c) todo) db
    = set_emulator_cores (before ++ List.map (found_core core_file) todo) db.
Proof.
  induction todo as [|core rest IH]; intros before db Hconn Hcores Hnd.
  - simpl. rewrite <- Hcores. destruct db; reflexivity.
  - cbn [List.filter List.map]. unfold found_core at 1.
    destruct (is_retroarch core) eqn:Hra.
    + cbn [discover_cores].
      destruct (negb (Bool.eqb (core_file (Core_CoreID core)) (Core_IsAvailable core)))
        eqn:Hchg.
      * assert (Hup : UpdateEmulatorCoreAvailability db (Core_ID core)
                        (core_file (Core_CoreID core))
                      = set_emulator_cores
                          ((before ++ [set_core_available core
                                         (core_file (Core_CoreID core))]) ++ rest) db).
        { unfold UpdateEmulatorCoreAvailability. rewrite Hconn, Hcores.
          rewrite (update_one Core_ID
                     (fun c => set_core_available c (core_file (Core_CoreID core)))
                     before rest core Hnd).
          rewrite <- app_assoc. reflexivity. }
        rewrite Hup.
        rewrite (IH (before ++ [set_core_available core (core_file (Core_CoreID core))])).
        -- rewrite <- app_assoc. reflexivity.
        -- exact Hconn.
        -- reflexivity.
        -- rewrite <- app_assoc. simpl.
           rewrite List.map_app in *. simpl in *. exact Hnd.
      * apply eqb_negb_false in Hchg.
        rewrite (IH (before ++ [core]) db Hconn).
        -- rewrite Hchg, set_core_available_same, <- app_assoc. reflexivity.
        -- rewrite <- app_assoc. exact Hcores.
        -- rewrite <- app_assoc. exact Hnd.
    + rewrite (IH (before ++ [core]) db Hconn).
      * rewrite <- app_assoc. reflexivity.
      * rewrite <- app_assoc. exact Hcores.
      * rewrite <- app_assoc. exact Hnd.
Qed.

Lemma find_retroarch (l : list Emulator) :
  List.NoDup (List.map Emulator_ID l) ->
  match getEmulatorByID (List.map (fun e => set_emulator_available e (host e)) l)
                        "retroarch" with
  | Some r => Emulator_IsAvailable r
  | None => false
  end
  = existsb (fun e => String.eqb (Emulator_ID e) "retroarch" && host e) l.
Proof.
  unfold getEmulatorByID. induction l as [|e l IH]; [reflexivity|].
  intros Hnd. apply List.NoDup_cons_iff in Hnd as [Hnin Hnd].
  cbn [List.map List.find existsb set_emulator_available Emulator_ID].
  destruct (String.eqb_spec (Emulator_ID e) "retroarch") as [Heq|Hne].
  - cbn [Emulator_IsAvailable andb].
    assert (Hrest : existsb (fun e0 => String.eqb (Emulator_ID e0) "retroarch" && host e0) l
                    = false).
    { apply not_true_is_false. intros Hex.
      apply existsb_exists in Hex as (e0 & Hin & Hc).
      apply andb_true_iff in Hc as [Hid _]. apply String.eqb_eq in Hid.
      apply Hnin. rewrite Heq, <- Hid. apply List.in_map. exact Hin. }
    rewrite Hrest, orb_false_r. reflexivity.
  - cbn [andb orb]. apply IH, Hnd.
Qed.

Lemma DiscoverAvailable_discovered (db : DB) :
  conn_err db = None ->
  List.NoDup (emulator_ids db) -> List.NoDup (core_ids db) ->
  DiscoverAvailable flatpak_info LookPath core_file db
  = (None, discovered flatpak_info LookPath core_file db).
Proof.
  intros Hconn Hne Hnc. unfold DiscoverAvailable, GetEmulators. rewrite Hconn.
  rewrite (discover_emulators_spec (emulators db) [] db Hconn eq_refl Hne).
  cbn [List.app]. f_equal.
  pose proof (find_retroarch (emulators db) Hne) as Hfind.
  unfold discovered, retroarch_found. rewrite <- Hfind.
  assert (Hcores :
    discoverRetroArchCores core_file
      (set_emulators (List.map (fun e => set_emulator_available e (host e)) (emulators db)) db)
    = {| emulators := found_emulators flatpak_info LookPath db;
         emulator_cores := List.map (found_core core_file) (emulator_cores db);
         platform_emulators := platform_emulators db;
         instance_emulator_settings := instance_emulator_settings db;
         conn_err := conn_err db |}).
  { unfold discoverRetroArchCores, GetEmulatorCores. cbn [conn_err set_emulators].
    rewrite Hconn. cbn [String.eqb Ascii.eqb].
    change (String.eqb "retroarch" EmptyString) with false. cbv iota.
    rewrite (discover_cores_spec (emulator_cores db) [] (set_emulators _ db)
               Hconn eq_refl Hnc).
    unfold set_emulator_cores, set_emulators, found_emulators.
    cbn [emulators emulator_cores platform_emulators instance_emulator_settings
         conn_err List.app].
    rewrite Hconn. reflexivity. }
  destruct (getEmulatorByID _ "retroarch") as [r|].
  - destruct (Emulator_IsAvailable r); [exact Hcores|reflexivity].
  - reflexivity.
Qed.

Lemma host_has_set (e : Emulator) (a : bool) : host (set_emulator_available e a) = host e.
Proof. reflexivity. Qed.

Lemma host_has_scan (e : Emulator) : host (scan_emulator e) = host e.
Proof. reflexivity. Qed.

Lemma found_core_idem (c : EmulatorCore) :
  found_core core_file (found_core core_file c) = found_core core_file c.
Proof.
  unfold found_core. destruct (is_retroarch c) eqn:Hra; simpl; rewrite Hra; reflexivity.
Qed.

Lemma discovered_idem (db : DB) :
  discovered flatpak_info LookPath core_file
    (discovered flatpak_info LookPath core_file db)
  = discovered flatpak_info LookPath core_file db.
Proof.
  assert (Hrf : retroarch_found flatpak_info LookPath
                  (discovered flatpak_info LookPath core_file db)
                = retroarch_found flatpak_info LookPath db).
  { unfold retroarch_found, discovered, found_emulators. cbn [emulators].
    induction (emulators db) as [|e l IH]; [reflexivity|].
    cbn [List.map existsb]. rewrite IH. reflexivity. }
  unfold discovered at 1. rewrite Hrf. unfold discovered, found_emulators.
  cbn [emulators emulator_cores platform_emulators instance_emulator_settings conn_err].
  f_equal.
  - rewrite List.map_map. apply List.map_ext. intros e. reflexivity.
  - destruct (retroarch_found flatpak_info LookPath db); [|reflexivity].
    rewrite List.map_map. apply List.map_ext. intros c. apply found_core_idem.
Qed.

Lemma discovered_ids (db : DB) :
  emulator_ids (discovered flatpak_info LookPath core_file db) = emulator_ids db
  /\ core_ids (discovered flatpak_info LookPath core_file db) = core_ids db.
Proof.
  unfold emulator_ids, core_ids, discovered, found_emulators.
  cbn [emulators emulator_cores]. split.
  - rewrite List.map_map. reflexivity.
  - destruct (retroarch_found flatpak_info LookPath db); [|reflexivity].
    rewrite List.map_map. apply List.map_ext. intros c. unfold found_core.
    destruct (is_retroarch c); reflexivity.
Qed.

(** X12.  On a working connection, and with the primary keys of the two
    tables distinct, [DiscoverAvailable] returns no error and leaves every
    emulator with the availability the host reports for it now (false for
    an emulator that is neither a flatpak nor native, or whose package id
    or executable path is empty).  The cores are refreshed only when
    RetroArch itself was found: then each core of RetroArch carries the
    answer of the host for its library, and otherwise every core keeps the
    flag it had.  Mappings, instance settings and all other columns are
    left as they were. *)
Theorem DiscoverAvailable_records_host_answers (db : DB) :
  conn_err db = None ->
  List.NoDup (emulator_ids db) -> List.NoDup (core_ids db) ->
  fst (DiscoverAvailable flatpak_info LookPath core_file db) = None
  /\ emulators (snd (DiscoverAvailable flatpak_info LookPath core_file db))
     = List.map (fun e => set_emulator_available e (host e)) (emulators db)
  /\ emulator_cores (snd (DiscoverAvailable flatpak_info LookPath core_file db))
     = (if existsb (fun e => String.eqb (Emulator_ID e) "retroarch" && host e)
                   (emulators db)
        then List.map (fun c => if is_retroarch c
                                then set_core_available c (core_file (Core_CoreID c))
                                else c)
                      (emulator_cores db)
        else emulator_cores db)
  /\ platform_emulators (snd (DiscoverAvailable flatpak_info LookPath core_file db))
     = platform_emulators db
  /\ instance_emulator_settings
       (snd (DiscoverAvailable flatpak_info LookPath core_file db))
     = instance_emulator_settings db.
Proof.
  intros Hconn Hne Hnc.
  rewrite (DiscoverAvailable_discovered db Hconn Hne Hnc).
  repeat split; reflexivity.
Qed.

(** X13.  Under the same conditions a second discovery on the same host
    changes nothing: [DiscoverAvailable] is idempotent. *)
Theorem DiscoverAvailable_idempotent (db : DB) :
  conn_err db = None ->
  List.NoDup (emulator_ids db) -> List.NoDup (core_ids db) ->
  DiscoverAvailable flatpak_info LookPath core_file
    (snd (DiscoverAvailable flatpak_info LookPath core_file db))
  = DiscoverAvailable flatpak_info LookPath core_file db.
Proof.
  intros Hconn Hne Hnc.
  rewrite (DiscoverAvailable_discovered db Hconn Hne Hnc). cbn [snd].
  destruct (discovered_ids db) as [He Hc].
  rewrite DiscoverAvailable_discovered.
  - rewrite discovered_idem. reflexivity.
  - exact Hconn.
  - rewrite He. exact Hne.
  - rewrite Hc. exact Hnc.
Qed.

(** The pair [ResolveEmulator] returns is read from the two tables. *)
Lemma platform_join_rows (db : DB) (platform : string) (r : JoinRow) :
  In r (platform_join db platform) ->
  In (row_e r) (emulators db)
  /\ forall c, row_c r = Some c -> In c (emulator_cores db).
Proof.
  unfold platform_join. intros Hin.
  apply in_flat_map in Hin as (e & He & Hin).
  apply in_flat_map in Hin as (pe & _ & Hin).
  unfold left_join_cores in Hin.
  destruct (List.filter _ (emulator_cores db)) as [|c0 cs] eqn:Hf.
  - destruct Hin as [<-|[]]. simpl. split; [exact He|discriminate].
  - apply in_map_iff in Hin as (c & <- & Hc). simpl. split; [exact He|].
    intros c' [= <-]. rewrite <- Hf in Hc. apply List.filter_In in Hc as [Hc _].
    exact Hc.
Qed.

Lemma ResolveEmulator_rows (db : DB) (instance : GameInstance)
    (e : Emulator) (c : option EmulatorCore) :
  ResolveEmulator db instance = Ok (e, c) ->
  (exists e0, In e0 (emulators db) /\ (e = e0 \/ e = scan_emulator e0))
  /\ (forall core, c = Some core ->
        In core (emulator_cores db)
        /\ Core_IsAvailable core = true
        /\ Core_EmulatorID core = Emulator_ID e).
Proof.
  intros Hres. destruct (resolve_override db instance) as [[e0 c0]|] eqn:Hov.
  - unfold ResolveEmulator in Hres. rewrite Hov in Hres. injection Hres as <- <-.
    pose proof (resolve_override_Some db instance e0 c0 Hov) as [_ Hcore].
    unfold resolve_override, getEmulatorAndCore in Hov.
    destruct (GetInstanceEmulatorSettings db (Instance_ID instance)) as [s|?];
      [|discriminate].
    destruct (GetEmulator db (Settings_EmulatorID s)) as [emu|?] eqn:He; [|discriminate].
    apply GetEmulator_Ok in He as [Hin _].
    destruct (Emulator_IsAvailable emu); [|discriminate].
    destruct (String.eqb (Settings_CoreID s) EmptyString).
    { injection Hov as <- <-. split; [eauto|discriminate]. }
    destruct (GetCore db (Settings_EmulatorID s) (Settings_CoreID s)) as [c1|?] eqn:Hc.
    + apply GetCore_Ok in Hc as (Hcin & _).
      destruct (Core_IsAvailable c1); [|discriminate].
      injection Hov as <- <-. split; [eauto|].
      intros core Hcore'. destruct (Hcore core Hcore'). injection Hcore' as <-. auto.
    + injection Hov as <- <-. split; [eauto|discriminate].
  - destruct (ResolveEmulator_from_join db instance e c Hov Hres)
      as (r & Hin & Ha & -> & ->).
    destruct (platform_join_rows db _ r Hin) as [He Hc].
    destruct (platform_join_In db _ r Hin) as (_ & _ & _ & Hcore).
    split; [eauto|]. intros core Hcore'.
    unfold row_available in Ha. apply andb_true_iff in Ha as [_ Ha].
    rewrite Hcore' in Ha. split; [auto|]. split; [exact Ha|].
    apply Hcore, Hcore'.
Qed.

(** X14.  After a discovery, resolution follows the host: the emulator
    [ResolveEmulator] returns is one the host reported as installed during
    that discovery, and a core of RetroArch it returns is one whose library
    the host found. *)
Theorem ResolveEmulator_after_discovery (db : DB) (instance : GameInstance)
    (e : Emulator) (c : option EmulatorCore) :
  conn_err db = None ->
  List.NoDup (emulator_ids db) -> List.NoDup (core_ids db) ->
  ResolveEmulator (snd (DiscoverAvailable flatpak_info LookPath core_file db)) instance
  = Ok (e, c) ->
  host e = true
  /\ forall core, c = Some core -> Emulator_ID e = "retroarch" ->
       core_file (Core_CoreID core) = true.
Proof.
  intros Hconn Hne Hnc.
  rewrite (DiscoverAvailable_discovered db Hconn Hne Hnc). cbn [snd]. intros Hres.
  pose proof (ResolveEmulator_available _ _ _ _ Hres) as Ha.
  destruct (ResolveEmulator_rows _ _ _ _ Hres) as [(e0 & Hin & He) Hcore].
  unfold discovered in Hin. cbn [emulators] in Hin. unfold found_emulators in Hin.
  apply in_map_iff in Hin as (e1 & <- & Hin1).
  assert (Hhost : host e = host e1) by (destruct He as [->| ->]; reflexivity).
  assert (Hav : Emulator_IsAvailable e = host e1) by (destruct He as [->| ->]; reflexivity).
  assert (Hid : Emulator_ID e = Emulator_ID e1) by (destruct He as [->| ->]; reflexivity).
  split; [congruence|].
  intros core Hc Hra. destruct (Hcore core Hc) as (Hcin & Hca & Hce).
  assert (Hfound : retroarch_found flatpak_info LookPath db = true).
  { unfold retroarch_found. apply existsb_exists. exists e1. split; [exact Hin1|].
    apply andb_true_iff. split; [apply String.eqb_eq; congruence|congruence]. }
  unfold discovered in Hcin. cbn [emulator_cores] in Hcin. rewrite Hfound in Hcin.
  apply in_map_iff in Hcin as (c1 & <- & _).
  unfold found_core in *. destruct (is_retroarch c1) eqn:Hc1.
  - exact Hca.
  - apply String.eqb_neq in Hc1. congruence.
Qed.

End DiscoveryFacts.

Lemma DiscoverAvailable_records_host_answers_witness :
  let host_flatpak := fun id => String.eqb id "org.libretro.RetroArch" in
  let host_core := fun id => String.eqb id "mesen_libretro" in
  let db := Seed.seed_db ["dolphin"] ["snes9x_libretro"] [] in
  let db' := snd (DiscoverAvailable host_flatpak (fun _ => false) host_core db) in
  List.map Emulator_IsAvailable (emulators db') = [true; false; false]
  /\ List.map Core_IsAvailable (emulator_cores db') = [true; false; false; false].
Proof.
  intros host_flatpak host_core db db'.
  destruct (DiscoverAvailable_records_host_answers host_flatpak (fun _ => false)
              host_core db) as (_ & He & Hc & _).
  - reflexivity.
  - apply NoDup_ListNoDup, (bool_decide_unpack _). vm_compute. exact I.
  - apply NoDup_ListNoDup, (bool_decide_unpack _). vm_compute. exact I.
  - unfold db'. rewrite He, Hc. vm_compute. split; reflexivity.
Defined.

Lemma DiscoverAvailable_idempotent_witness :
  let host_flatpak := fun id => String.eqb id "org.libretro.RetroArch" in
  let host_core := fun id => String.eqb id "mesen_libretro" in
  let db := Seed.seed_db ["dolphin"] ["snes9x_libretro"] [] in
  DiscoverAvailable host_flatpak (fun _ => false) host_core
    (snd (DiscoverAvailable host_flatpak (fun _ => false) host_core db))
  = DiscoverAvailable host_flatpak (fun _ => false) host_core db.
Proof.
  intros host_flatpak host_core db.
  apply (DiscoverAvailable_idempotent host_flatpak (fun _ => false) host_core db).
  - reflexivity.
  - apply NoDup_ListNoDup, (bool_decide_unpack _). vm_compute. exact I.
  - apply NoDup_ListNoDup, (bool_decide_unpack _). vm_compute. exact I.
Defined.

Lemma ResolveEmulator_after_discovery_witness :
  let host_flatpak := fun id => String.eqb id "org.libretro.RetroArch" in
  let host_core := fun id => String.eqb id "mesen_libretro" in
  let db := Seed.seed_db ["dolphin"] ["snes9x_libretro"] [] in
  ResolveEmulator (snd (DiscoverAvailable host_flatpak (fun _ => false) host_core db))
                  (Seed.rom_instance "i1" "nes" "/roms/Metroid.nes")
  = Ok (scan_emulator (Seed.retroarch true), Some (Seed.mesen true))
  /\ host_has host_flatpak (fun _ => false) (scan_emulator (Seed.retroarch true)) = true.
Proof.
  intros host_flatpak host_core db. split; [vm_compute; reflexivity|].
  refine (proj1 (ResolveEmulator_after_discovery host_flatpak (fun _ => false)
            host_core db (Seed.rom_instance "i1" "nes" "/roms/Metroid.nes")
            (scan_emulator (Seed.retroarch true)) (Some (Seed.mesen true)) _ _ _ _)).
  - reflexivity.
  - apply NoDup_ListNoDup, (bool_decide_unpack _). vm_compute. exact I.
  - apply NoDup_ListNoDup, (bool_decide_unpack _). vm_compute. exact I.
  - vm_compute. reflexivity.
Defined.

(** ** The process monitor: the events it can emit *)

Section MonitorEvents.
Variable instance : GameInstance.

Local Abbreviation running := (status_update instance LaunchStatusRunning).
Local Abbreviation stopped := (status_update instance LaunchStatusStopped).

(** The events of the loop from any state. *)
Lemma monitor_loop_events (ticks : list Tick) :
  forall st,
    let out := monitor_loop true instance st ticks in
    if hasBeenRunning st
    then out = ([], false) \/ out = ([stopped], true)
    else out = ([], false) \/ out = ([running], false)
         \/ out = ([running; stopped], true).
Proof.
  induction ticks as [|t ticks IH]; intros st; cbn zeta.
  - simpl. destruct (hasBeenRunning st); auto.
  - cbn [monitor_loop]. unfold monitor_tick.
    destruct (isProcessRunningInPath (Instance_InstallPath instance) (tick_processes t))
      as [[|]|err].
    + specialize (IH {| lastSeenRunning := tick_now t; hasBeenRunning := true |}).
      cbn zeta in IH. cbn [hasBeenRunning] in IH.
      destruct (monitor_loop true instance _ ticks) as [ev r].
      destruct (hasBeenRunning st); simpl.
      * destruct IH as [[= -> ->]|[= -> ->]]; auto.
      * destruct IH as [[= -> ->]|[= -> ->]]; auto.
    + destruct (hasBeenRunning st) eqn:Hb; simpl.
      * destruct (stopThreshold <? tick_now t - lastSeenRunning st)%Z; simpl; [auto|].
        specialize (IH st). cbn zeta in IH. rewrite Hb in IH.
        destruct (monitor_loop true instance st ticks) as [ev r]. exact IH.
      * specialize (IH st). cbn zeta in IH. rewrite Hb in IH.
        destruct (monitor_loop true instance st ticks) as [ev r]. exact IH.
    + specialize (IH st). cbn zeta in IH.
      destruct (monitor_loop true instance st ticks) as [ev r]. exact IH.
Qed.

(** X15.  Whatever the probes find and whatever the clock reads, the
    monitor emits at most two events and in one order only: nothing,
    or "running", or "running" followed by "stopped".  "stopped" is never
    emitted without "running" before it, neither is emitted twice, and
    the function returns exactly when it has emitted "stopped".  Without
    an application to emit to, no event is emitted at all. *)
Theorem monitorGameProcess_event_order (ticks : list Tick) :
  (monitorGameProcess true instance ticks = ([], false)
   \/ monitorGameProcess true instance ticks = ([running], false)
   \/ monitorGameProcess true instance ticks = ([running; stopped], true))
  /\ fst (monitorGameProcess false instance ticks) = [].
Proof.
  split.
  - exact (monitor_loop_events ticks monitor_init).
  - unfold monitorGameProcess. generalize monitor_init.
    induction ticks as [|t ticks IH]; intros st; [reflexivity|].
    cbn [monitor_loop]. unfold monitor_tick, emitLaunchStatus.
    destruct (isProcessRunningInPath _ _) as [[|]|err].
    + specialize (IH {| lastSeenRunning := tick_now t; hasBeenRunning := true |}).
      destruct (monitor_loop false instance _ ticks) as [ev r]. simpl in *.
      rewrite IH. destruct (negb (hasBeenRunning st)); reflexivity.
    + destruct (hasBeenRunning st && _); [reflexivity|].
      specialize (IH st). destruct (monitor_loop false instance st ticks). exact IH.
    + specialize (IH st). destruct (monitor_loop false instance st ticks). exact IH.
Qed.

(** X16.  The monitor has no timeout of its own: as long as no probe
    detects a process under the install path (the probe fails or finds
    none), it emits nothing and does not return, however many ticks
    pass. *)
Theorem monitorGameProcess_never_detected (app : bool) (ticks : list Tick) :
  (forall t, In t ticks ->
     isProcessRunningInPath (Instance_InstallPath instance) (tick_processes t)
     <> Ok true) ->
  monitorGameProcess app instance ticks = ([], false).
Proof.
  unfold monitorGameProcess. generalize (eq_refl (hasBeenRunning monitor_init)).
  generalize monitor_init at 1 3. intros st Hst.
  induction ticks as [|t ticks IH]; intros Hnot; [reflexivity|].
  cbn [monitor_loop]. unfold monitor_tick.
  pose proof (Hnot t (or_introl eq_refl)) as Ht.
  destruct (isProcessRunningInPath _ _) as [[|]|err]; [congruence| |].
  - rewrite Hst. simpl. rewrite IH; [reflexivity|].
    intros t' Hin. apply Hnot. right. exact Hin.
  - rewrite IH; [reflexivity|]. intros t' Hin. apply Hnot. right. exact Hin.
Qed.
End MonitorEvents.

Lemma monitorGameProcess_never_detected_witness :
  monitorGameProcess true
    {| Instance_ID := "steam_620"; Instance_GameID := "game_620";
       Instance_Source := "steam"; Instance_Platform := "pc";
       Instance_Path := EmptyString;
       Instance_InstallPath := "/games/Portal 2" |}
    (ticks_from 0 1 [Ok []; Err (errorString "permission denied");
                     Ok [game_process "/usr/bin/steam"]])
  = ([], false).
Proof.
  apply monitorGameProcess_never_detected.
  intros t [<-|[<-|[<-|[]]]]; vm_compute; discriminate.
Defined.

(** ** Matching a process against the install path *)

Section PathMatching.
Import GoStrings.

Lemma HasPrefix_trans (q : string) :
  forall s p, HasPrefix s p = true -> HasPrefix p q = true -> HasPrefix s q = true.
Proof.
  induction q as [|c q IH]; intros s p Hsp Hpq.
  - destruct s; reflexivity.
  - destruct p as [|b p]; [discriminate|]. destruct s as [|a s]; [discriminate|].
    simpl in *. destruct (Ascii.eqb c b) eqn:Hcb; [|discriminate].
    destruct (Ascii.eqb b a) eqn:Hba; [|discriminate].
    apply Ascii.eqb_eq in Hcb, Hba. subst. rewrite Ascii.eqb_refl. eauto.
Qed.

Lemma Contains_prefix (s : string) :
  forall p q, Contains s p = true -> HasPrefix p q = true -> Contains s q = true.
Proof.
  induction s as [|a s IH]; intros p q Hsp Hpq.
  - cbn [Contains] in *. rewrite orb_false_r in *.
    apply (HasPrefix_trans q _ p Hsp Hpq).
  - cbn [Contains] in *. apply orb_true_iff in Hsp as [Hsp|Hsp].
    + rewrite (HasPrefix_trans q _ p Hsp Hpq). reflexivity.
    + rewrite (IH p q Hsp Hpq). apply orb_true_r.
Qed.

(** X17.  Detection is monotone in the install path: a process table in
    which a process is detected under an install path is also detected
    under every prefix of that path.  In particular, with an empty install
    path every process whose executable or command line can be read counts
    as the game. *)
Theorem isProcessRunningInPath_shorter_path (installPath shorter : string)
    (processes : result (list Process)) :
  HasPrefix installPath shorter = true ->
  isProcessRunningInPath installPath processes = Ok true ->
  isProcessRunningInPath shorter processes = Ok true.
Proof.
  intros Hpre. destruct processes as [ps|err]; [|discriminate]. simpl.
  intros [= Hscan]. f_equal. induction ps as [|p ps IH]; [discriminate|].
  cbn [scan_processes] in *.
  apply orb_true_iff in Hscan as [Hscan|Hscan]; [|rewrite (IH Hscan); apply orb_true_r].
  apply orb_true_iff in Hscan as [Hexe|Hcmd].
  - destruct (Exe p) as [exe|?]; [|discriminate].
    rewrite (HasPrefix_trans shorter exe installPath Hexe Hpre). reflexivity.
  - destruct (Cmdline p) as [cmdline|?]; [|discriminate].
    rewrite (Contains_prefix _ installPath shorter Hcmd Hpre).
    rewrite orb_true_r. reflexivity.
Qed.

Lemma ReplaceAll_backslash (s : string) :
  Contains (ReplaceAll s (String backslash EmptyString) "/")
           (String backslash EmptyString) = false.
Proof.
  unfold ReplaceAll. induction s as [|c s IH]; [reflexivity|].
  rewrite replace_from_cons. cbn [HasPrefix].
  destruct (Ascii.eqb backslash c) eqn:Hc.
  - destruct s; cbn [HasPrefix String.length Nat.sub].
    + reflexivity.
    + change ("/" +:+ ?x) with (String "/" x). cbn [Contains HasPrefix].
      rewrite IH. reflexivity.
  - cbn [Contains HasPrefix]. rewrite Hc, IH. reflexivity.
Qed.

Lemma ReplaceAll_absent (s : string) (c : ascii) (new : string) :
  all_runes (fun x => negb (Ascii.eqb c x)) s = true ->
  ReplaceAll s (String c EmptyString) new = s.
Proof.
  unfold ReplaceAll. induction s as [|a s IH]; [reflexivity|].
  cbn [all_runes]. intros [Ha Hs]%andb_true_iff. apply negb_true_iff in Ha.
  rewrite replace_from_cons. cbn [HasPrefix]. rewrite Ha, (IH Hs). reflexivity.
Qed.

(** X18.  [normalizeWinePath] never returns a backslash.  It leaves a
    path without backslashes and without a colon in second position as it
    is, and of a path with a drive prefix it drops the first two bytes
    before converting the backslashes. *)
Theorem normalizeWinePath_no_backslash (path : string) :
  Contains (normalizeWinePath path) (String backslash EmptyString) = false
  /\ (all_runes (fun x => negb (Ascii.eqb backslash x)) path = true ->
      String.get 1 path <> Some ":"%char ->
      normalizeWinePath path = path)
  /\ (forall drive rest,
        rest <> EmptyString ->
        normalizeWinePath (String drive (String ":" rest))
        = ReplaceAll rest (String backslash EmptyString) "/").
Proof.
  split; [|split].
  - unfold normalizeWinePath. apply ReplaceAll_backslash.
  - intros Hplain Hdrive. unfold normalizeWinePath.
    destruct path as [|a [|b rest]]; try (apply ReplaceAll_absent; exact Hplain).
    destruct (Ascii.eqb_spec b ":") as [->|Hne]; [exfalso; apply Hdrive; reflexivity|].
    rewrite andb_false_r. apply ReplaceAll_absent. exact Hplain.
  - intros drive rest Hne. unfold normalizeWinePath.
    destruct rest as [|c rest]; [contradiction|]. reflexivity.
Qed.
End PathMatching.

Lemma isProcessRunningInPath_shorter_path_witness :
  isProcessRunningInPath "/games"
    (Ok [game_process "/usr/bin/steam"; game_process "/games/Portal 2/portal2.sh"])
  = Ok true
  /\ isProcessRunningInPath EmptyString (Ok [game_process "/usr/bin/steam"]) = Ok true.
Proof.
  split.
  - apply (isProcessRunningInPath_shorter_path "/games/Portal 2" "/games");
      reflexivity.
  - apply (isProcessRunningInPath_shorter_path "/usr" EmptyString); reflexivity.
Defined.

(** ** The resolvers of the service *)

(** X19.  With the resolvers [NewGamesService] registers, a fetch that
    is not cancelled first calls the local cache, which never resolves.
    The fetch ends as resolved exactly when the IGDB credentials are
    configured, the request comes from the emulated source, its platform
    (in lower case) is one of [PlatformIDs] and the IGDB client answers.
    A request from any other source, such as Steam, is never resolved and
    never reaches the callback: only the local cache is called for it. *)
Theorem service_fetch_resolves_only_through_igdb
    (ToLower : string -> string)
    (remote : FetchRequest -> Z -> result ResolvedMetadata)
    (credentials callback : bool) (ctxDone : nat -> bool) (req : FetchRequest) :
  (forall k, ctxDone k = false) ->
  let out := resolver_chain callback ctxDone req 0
               (IGDB.service_resolvers ToLower remote credentials) [] in
  head (snd out) = Some (EvResolve 0 "local_cache")
  /\ (fst out = Resolved
      <-> credentials = true /\ Req_Source req = "emulated"
          /\ exists platformID resolved,
               IGDB.PlatformIDs !! ToLower (Req_Platform req) = Some platformID
               /\ remote req platformID = Ok resolved)
  /\ (Req_Source req <> "emulated" ->
      out = (Exhausted, [EvResolve 0 "local_cache"])).
Proof.
  intros Hlive out. unfold out, IGDB.service_resolvers.
  cbn [resolver_chain]. unfold loop_body at 1. rewrite Hlive.
  cbn [Supports Resolve Name LocalCacheResolver negb List.app].
  destruct credentials; cbn [resolver_chain].
  - unfold loop_body. rewrite Hlive.
    cbn [Supports Resolve Name IGDB.Resolver]. unfold IGDB.Supports, IGDB.Resolve.
    destruct (String.eqb_spec (Req_Source req) "emulated") as [Hsrc|Hsrc]; cbn [negb].
    + destruct (IGDB.PlatformIDs !! ToLower (Req_Platform req)) as [pid|] eqn:Hpid;
        cbn [negb].
      * destruct (remote req pid) as [md|e] eqn:Hrem; cbn [fst snd List.app head].
        -- split; [reflexivity|]. split; [|contradiction].
           split; [intros _|reflexivity]. eauto 6.
        -- split; [reflexivity|]. split; [|contradiction].
           split; [discriminate|]. intros (_ & _ & p & md & [= <-] & Hok). congruence.
      * cbn [fst snd List.app head]. split; [reflexivity|]. split; [|contradiction].
        split; [discriminate|]. intros (_ & _ & p & md & Hp & _). discriminate.
    + cbn [fst snd List.app head]. split; [reflexivity|]. split; [|reflexivity].
      split; [discriminate|]. intros (_ & Hs & _). contradiction.
  - cbn [fst snd List.app head]. split; [reflexivity|]. split; [|reflexivity].
    split; [discriminate|]. intros (Hc & _). discriminate.
Qed.

Lemma service_fetch_resolves_only_through_igdb_witness :
  resolver_chain true (fun _ => false)
    {| Req_GameID := "game_620"; Req_InstanceID := "steam_620"; Req_Priority := 1;
       Req_Platforms := ["pc"]; Req_Name := "Portal 2"; Req_FileHash := EmptyString;
       Req_Source := "steam"; Req_Platform := "pc" |}
    0 (IGDB.service_resolvers (fun s => s) (fun _ _ => Ok (named "Portal 2")) true) []
  = (Exhausted, [EvResolve 0 "local_cache"]).
Proof.
  refine (proj2 (proj2 (service_fetch_resolves_only_through_igdb (fun s => s)
            (fun _ _ => Ok (named "Portal 2")) true true (fun _ => false) _ _)) _).
  - reflexivity.
  - discriminate.
Defined.

(** ** A stopped fetcher *)

(** The channel is never reopened. *)
Lemma exec_queue_closed (a : Action) (f f' : Fetcher) :
  queue_closed f = true -> exec a f = Done f' -> queue_closed f' = true.
Proof.
  intros Hc Hexec. destruct a; simpl in Hexec;
    try (injection Hexec as <-; exact Hc).
  - injection Hexec as <-. unfold Start. destruct (isRunning f); exact Hc.
  - injection Hexec as <-. unfold Stop_locked.
    destruct (negb (isRunning f)); exact Hc.
  - unfold Stop_close in Hexec. repeat case_match; simplify_eq; reflexivity.
  - unfold Stop_wait in Hexec. repeat case_match; simplify_eq; exact Hc.
  - unfold Queue in Hexec. repeat case_match; simplify_eq; exact Hc.
  - injection Hexec as <-. unfold Cancel. case_match; exact Hc.
  - apply worker_step_frame in Hexec as (_ & -> & _). exact Hc.
Qed.

Lemma run_queue_closed (tr : list Action) :
  forall f f', In ActStopClose tr -> run tr f = Done f' -> queue_closed f' = true.
Proof.
  induction tr as [|a tr IH]; intros f f' Hin Hrun; [destruct Hin|].
  simpl in Hrun. destruct (exec a f) as [f1| |msg] eqn:Hexec; try discriminate.
  destruct Hin as [->|Hin]; [|eauto].
  assert (Hc : queue_closed f1 = true).
  { simpl in Hexec. unfold Stop_close in Hexec.
    repeat case_match; simplify_eq. reflexivity. }
  exact (run_invariant (fun g => queue_closed g = true) exec_queue_closed
           tr f1 f' Hc Hrun).
Qed.

(** X20.  A fetcher cannot be started again after a [Stop]: once [Stop]
    has closed the channel it stays closed, [Start] creates no new one, and
    so on the restarted fetcher every call of [Queue] panics with a send on
    a closed channel, the workers [Start] launched leave their loop at
    once, and the next [Stop] panics when it closes the channel again. *)
Theorem stopped_fetcher_cannot_restart (n : Z) (tr : list Action) (f : Fetcher) :
  reaches n tr f ->
  In ActStopClose tr ->
  queue_closed f = true
  /\ (isRunning f = true ->
      forall req, Queue req f = QueuePanics "send on closed channel")
  /\ (forall w, pool f !! w = Some WReceiving -> queue f = [] ->
        worker_step w f = Done (set_worker w WExited f))
  /\ (isRunning f = true ->
      Stop_close (snd (Stop_locked f)) = Panic "close of closed channel").
Proof.
  intros Hreach Hin.
  pose proof (run_queue_closed tr (NewFetcher n) f Hin Hreach) as Hc.
  split; [exact Hc|]. split; [|split].
  - intros Hr req. unfold Queue. rewrite Hr, Hc. reflexivity.
  - intros w Hw Hq. unfold worker_step. rewrite Hw, Hq, Hc. reflexivity.
  - intros Hr. unfold Stop_locked. rewrite Hr. simpl. unfold Stop_close. simpl.
    rewrite Hc. reflexivity.
Qed.

Lemma stopped_fetcher_cannot_restart_witness :
  exists f,
    reaches 1 [ActStart; ActStop; ActStopClose; ActWorker 0; ActStopWait; ActStart] f
    /\ isRunning f = true
    /\ Queue (rom_request "a" "Metroid" "nes") f = QueuePanics "send on closed channel".
Proof.
  eexists. split; [vm_compute; reflexivity|]. split; [reflexivity|].
  refine (proj1 (proj2 (stopped_fetcher_cannot_restart 1
    [ActStart; ActStop; ActStopClose; ActWorker 0; ActStopWait; ActStart] _ _ _))
    _ _).
  - vm_compute. reflexivity.
  - right. right. left. reflexivity.
  - reflexivity.
Defined.

(** ** The default emulator of a platform *)

Section PlatformDefaultFacts.
Variable db : DB.
Variables platform emulatorID coreID : string.
Hypothesis Hconn : conn_err db = None.

Local Abbreviation db' := (snd (SetPlatformDefaultEmulator db platform emulatorID coreID)).

Lemma SetPlatformDefaultEmulator_rows :
  platform_emulators db'
  = List.map (fun pe => mark_default platform emulatorID coreID (clear_default platform pe))
             (platform_emulators db)
  /\ emulators db' = emulators db /\ emulator_cores db' = emulator_cores db
  /\ instance_emulator_settings db' = instance_emulator_settings db
  /\ conn_err db' = None.
Proof.
  unfold SetPlatformDefaultEmulator. rewrite Hconn. cbn [snd].
  unfold set_platform_emulators.
  cbn [platform_emulators emulators emulator_cores instance_emulator_settings conn_err].
  rewrite List.map_map. auto.
Qed.

Lemma mark_clear_fields (pe : PlatformEmulatorRow) :
  let pe' := mark_default platform emulatorID coreID (clear_default platform pe) in
  pe_id pe' = pe_id pe /\ pe_platform pe' = pe_platform pe
  /\ pe_emulator_id pe' = pe_emulator_id pe /\ pe_core_id pe' = pe_core_id pe
  /\ pe_priority pe' = pe_priority pe
  /\ pe_is_default pe'
     = if String.eqb (pe_platform pe) platform
       then String.eqb (pe_emulator_id pe) emulatorID && String.eqb (pe_core_id pe) coreID
       else pe_is_default pe.
Proof.
  unfold mark_default, clear_default.
  destruct (String.eqb (pe_platform pe) platform) eqn:Hp; simpl; rewrite Hp; simpl.
  - destruct (String.eqb (pe_emulator_id pe) emulatorID && String.eqb (pe_core_id pe) coreID);
      simpl; auto 10.
  - auto 10.
Qed.

Lemma GetDefaultEmulatorForPlatform_row (d : DB) (p : string) (ra : bool)
    (em : Emulator) (co : option EmulatorCore) :
  GetDefaultEmulatorForPlatform d p ra = Ok (em, co) ->
  exists r, In r (platform_join d p) /\ pe_is_default (row_pe r) = true
            /\ em = scan_emulator (row_e r) /\ co = row_c r.
Proof.
  unfold GetDefaultEmulatorForPlatform.
  destruct (QueryRow d (default_rows d p ra)) as [r|e] eqn:Hq; [|discriminate].
  intros [= <- <-]. apply QueryRow_Ok in Hq as [_ [rest Hrows]].
  assert (Hin : In r (default_rows d p ra)) by (rewrite Hrows; left; reflexivity).
  unfold default_rows in Hin. apply List.filter_In in Hin as [Hin Hc].
  apply andb_true_iff in Hc as [Hd _]. eauto.
Qed.

(** X21.  On a working connection [SetPlatformDefaultEmulator] returns
    no error and leaves the platform with the given pair as its only
    default: a mapping of the platform is a default exactly when it is the
    mapping of the given emulator and core.  The mappings of other
    platforms are left as they were.  From then on the default query for
    the platform can only answer with that emulator and core.  When the
    platform has no mapping for the pair, the call still returns no error
    and leaves the platform without any default. *)
Theorem SetPlatformDefaultEmulator_single_default :
  fst (SetPlatformDefaultEmulator db platform emulatorID coreID) = None
  /\ (forall pe, In pe (platform_emulators db') -> pe_platform pe = platform ->
        (pe_is_default pe = true
         <-> pe_emulator_id pe = emulatorID /\ pe_core_id pe = coreID))
  /\ (forall other, other <> platform ->
        List.filter (fun pe => String.eqb (pe_platform pe) other) (platform_emulators db')
        = List.filter (fun pe => String.eqb (pe_platform pe) other) (platform_emulators db))
  /\ (forall requireAvailable em co,
        GetDefaultEmulatorForPlatform db' platform requireAvailable = Ok (em, co) ->
        Emulator_ID em = emulatorID
        /\ forall core, co = Some core -> Core_CoreID core = coreID)
  /\ (mapped db platform emulatorID coreID = false ->
      forall requireAvailable,
        GetDefaultEmulatorForPlatform db' platform requireAvailable = Err ErrNoRows).
Proof.
  destruct SetPlatformDefaultEmulator_rows as (Hrows & _ & _ & _ & Hconn').
  assert (Hdef : forall pe, In pe (platform_emulators db') -> pe_platform pe = platform ->
            (pe_is_default pe = true
             <-> pe_emulator_id pe = emulatorID /\ pe_core_id pe = coreID)).
  { intros pe Hin Hp. rewrite Hrows in Hin. apply in_map_iff in Hin as (pe0 & <- & _).
    destruct (mark_clear_fields pe0) as (_ & Hp0 & He & Hc & _ & Hd).
    cbn zeta in *. rewrite Hp0 in Hp. rewrite Hd, He, Hc, Hp, String.eqb_refl.
    rewrite andb_true_iff, !String.eqb_eq. tauto. }
  split; [unfold SetPlatformDefaultEmulator; rewrite Hconn; reflexivity|].
  split; [exact Hdef|]. split; [|split].
  - intros other Hne. rewrite Hrows. clear Hrows Hdef.
    induction (platform_emulators db) as [|pe l IH]; [reflexivity|].
    cbn [List.map List.filter].
    destruct (mark_clear_fields pe) as (_ & Hp & _ & _ & _ & Hd). cbn zeta in *.
    rewrite Hp, IH.
    destruct (String.eqb_spec (pe_platform pe) other) as [Ho|Ho]; [|reflexivity].
    f_equal. unfold mark_default, clear_default.
    destruct (String.eqb_spec (pe_platform pe) platform) as [Heq|Hneq]; [congruence|].
    destruct (String.eqb_spec (pe_platform pe) platform); [contradiction|].
    reflexivity.
  - intros ra em co Hq.
    apply GetDefaultEmulatorForPlatform_row in Hq as (r & Hin & Hd & -> & ->).
    apply platform_join_In in Hin as (Hpe & Hp & Hid & Hcore).
    apply (Hdef _ Hpe Hp) in Hd as [He Hc].
    split; [simpl; congruence|]. intros core Hco.
    destruct (Hcore core Hco) as [Hcid _]. congruence.
  - intros Hunmapped ra. unfold GetDefaultEmulatorForPlatform.
    assert (Hnone : default_rows db' platform ra = []).
    { destruct (default_rows db' platform ra) as [|r rest] eqn:Hrs; [reflexivity|].
      exfalso.
      assert (Hin : In r (default_rows db' platform ra)) by (rewrite Hrs; left; reflexivity).
      unfold default_rows in Hin. apply List.filter_In in Hin as [Hin Hc].
      apply andb_true_iff in Hc as [Hd _].
      apply platform_join_In in Hin as (Hpe & Hp & _).
      apply (Hdef _ Hpe Hp) in Hd as [He Hc].
      rewrite Hrows in Hpe. apply in_map_iff in Hpe as (pe0 & Heq & Hin0).
      destruct (mark_clear_fields pe0) as (_ & Hp0 & He0 & Hc0 & _). cbn zeta in *.
      rewrite Heq in *.
      apply not_true_iff_false in Hunmapped. apply Hunmapped.
      unfold mapped. apply existsb_exists. exists pe0. split; [exact Hin0|].
      rewrite !andb_true_iff, !String.eqb_eq. split; [split|]; congruence. }
    rewrite Hnone. unfold QueryRow. rewrite Hconn'. reflexivity.
Qed.
End PlatformDefaultFacts.

Lemma SetPlatformDefaultEmulator_single_default_witness :
  let db := Seed.seed_db ["retroarch"; "nestopia"] ["mesen_libretro"] [] in
  GetDefaultEmulatorForPlatform db "nes" true
  = Ok (scan_emulator (Seed.retroarch true), Some (Seed.mesen true))
  /\ GetDefaultEmulatorForPlatform
       (snd (SetPlatformDefaultEmulator db "nes" "nestopia" EmptyString)) "nes" true
     = Ok (scan_emulator (Seed.nestopia true), None)
  /\ Emulator_ID (scan_emulator (Seed.nestopia true)) = "nestopia"
  /\ GetDefaultEmulatorForPlatform
       (snd (SetPlatformDefaultEmulator db "nes" "mame" EmptyString)) "nes" true
     = Err ErrNoRows.
Proof.
  intros db. split; [vm_compute; reflexivity|]. split; [vm_compute; reflexivity|].
  split.
  - refine (proj1 (proj1 (proj2 (proj2 (proj2
              (SetPlatformDefaultEmulator_single_default db "nes" "nestopia"
                 EmptyString eq_refl)))) true _ None _)).
    vm_compute. reflexivity.
  - refine (proj2 (proj2 (proj2 (proj2
              (SetPlatformDefaultEmulator_single_default db "nes" "mame"
                 EmptyString eq_refl)))) _ true).
    vm_compute. reflexivity.
Defined.

(** ** Round trips through the command parser *)

Section ParserRoundTrips.
Import GoStrings.









End ParserRoundTrips.



(** ** Where a delivered callback comes from *)

Lemma loop_body_callback (callback done : bool) (req : FetchRequest) (k : nat)
    (r : Resolver) (tried : list string) (req' : FetchRequest)
    (resolved : ResolvedMetadata) (name : string) :
  In (EvCallback req' resolved name)
     match loop_body callback done req k r tried with
     | Continue _ ev => ev
     | Return _ ev => ev
     end ->
  req' = req /\ Name r = name
  /\ Supports r (Req_Source req) (Req_Platform req) = true
  /\ Resolve r req = Ok resolved.
Proof.
  unfold loop_body. destruct done; [intros []|].
  destruct (Supports r (Req_Source req) (Req_Platform req)); simpl; [|intros []].
  destruct (Resolve r req) as [md|e]; simpl.
  - intros [H|H]; [discriminate|]. destruct callback; [|destruct H].
    destruct H as [[= <- <- <-]|[]]. auto.
  - intros [H|[]]. discriminate.
Qed.

Lemma exec_resolvers_registered (a : Action) (f f' : Fetcher) :
  resolvers_registered f -> exec a f = Done f' -> resolvers_registered f'.
Proof.
  intros [Hrest Hlog] Hexec. destruct a; simpl in Hexec.
  - injection Hexec as <-. split; simpl.
    + intros w req ctx k rest tried Hw r1 Hr. apply in_or_app. left. eauto.
    + intros req md name Hin. destruct (Hlog req md name Hin) as (r1 & Hr & H).
      exists r1. split; [apply in_or_app; auto|exact H].
  - injection Hexec as <-. split; simpl; eauto.
  - injection Hexec as <-. unfold Start. destruct (isRunning f); [split; auto|].
    split; simpl; [|exact Hlog].
    intros w req ctx k rest tried Hw. apply lookup_app_Some in Hw as [Hw|[_ Hw]]; [eauto|].
    apply lookup_replicate in Hw as [Hw _]. discriminate.
  - injection Hexec as <-. unfold Stop_locked.
    destruct (negb (isRunning f)); split; simpl; auto.
  - unfold Stop_close in Hexec. repeat case_match; simplify_eq. split; simpl; auto.
  - unfold Stop_wait in Hexec. repeat case_match; simplify_eq. split; simpl; auto.
  - unfold Queue in Hexec. repeat case_match; simplify_eq; split; simpl; auto.
  - injection Hexec as <-. unfold Cancel. case_match; split; simpl; auto.
  - unfold worker_step in Hexec.
    destruct (pool f !! w) as [wk|] eqn:Hw; [|discriminate].
    assert (Hother : forall st w1 req ctx k rest tried,
              <[w := st]> (pool f) !! w1 = Some (WResolving req ctx k rest tried) ->
              (st = WResolving req ctx k rest tried)
              \/ pool f !! w1 = Some (WResolving req ctx k rest tried)).
    { intros st w1 req ctx k rest tried H1.
      apply pool_insert_lookup in H1 as [[_ ?]|[_ ?]]; auto. }
    destruct wk as [|req0|req0 ctx0 k0 rest0 tried0|req0 ctx0 o0|]; try discriminate.
    + destruct (queue f) as [|rq q].
      * destruct (queue_closed f); [|discriminate]. injection Hexec as <-.
        split; simpl; [|exact Hlog].
        intros w1 req ctx k rest tried H1.
        apply Hother in H1 as [?|?]; [discriminate|eauto].
      * injection Hexec as <-. split; simpl; [|exact Hlog].
        intros w1 req ctx k rest tried H1.
        apply Hother in H1 as [?|?]; [discriminate|eauto].
    + injection Hexec as <-. split; simpl; [|exact Hlog].
      intros w1 req ctx k rest tried H1.
      apply Hother in H1 as [[= <- <- <- <- <-]|?]; [auto|eauto].
    + destruct rest0 as [|r0 rest0].
      * injection Hexec as <-. split; simpl; [|exact Hlog].
        intros w1 req ctx k rest tried H1.
        apply Hother in H1 as [?|?]; [discriminate|eauto].
      * pose proof (loop_body_callback (onResolve f) (bool_decide (ctx0 ∈ cancelled f))
                      req0 k0 r0 tried0) as Hcb.
        assert (Hr0 : In r0 (resolvers f)) by (eapply Hrest; [exact Hw|left; reflexivity]).
        destruct (loop_body _ _ _ _ _ _) as [tried' ev|o ev];
          injection Hexec as <-; split; simpl.
        -- intros w1 req ctx k rest tried H1.
           apply Hother in H1 as [[= <- <- <- <- <-]|?]; [|eauto].
           intros r Hr. eapply Hrest; [exact Hw|right; exact Hr].
        -- intros req md name [Hin|Hin]%in_app_or; [auto|].
           destruct (Hcb req md name Hin) as (-> & Hn & Hs & Hres).
           exists r0. auto.
        -- intros w1 req ctx k rest tried H1.
           apply Hother in H1 as [?|?]; [discriminate|eauto].
        -- intros req md name [Hin|Hin]%in_app_or; [auto|].
           destruct (Hcb req md name Hin) as (-> & Hn & Hs & Hres).
           exists r0. auto.
    + injection Hexec as <-. split; simpl; [|exact Hlog].
      intros w1 req ctx k rest tried H1.
      apply Hother in H1 as [?|?]; [discriminate|eauto].
Qed.

(** A step brings no request into the fetcher except the one [Queue]
    accepts. *)
Lemma exec_origin (a : Action) (f f' : Fetcher) (req : FetchRequest) :
  exec a f = Done f' -> origin f' req ->
  origin f req \/ In req (accepted [a] f).
Proof.
  intros Hexec Ho. cbn [accepted]. rewrite Hexec. rewrite app_nil_r.
  destruct a; simpl in Hexec.
  - injection Hexec as <-. left. exact Ho.
  - injection Hexec as <-. left. exact Ho.
  - injection Hexec as <-. left. unfold Start in Ho.
    destruct (isRunning f); [exact Ho|].
    destruct Ho as [Hl|[(w & wk & Hw & Hp)|Hq]]; [left; exact Hl| |right; right; exact Hq].
    simpl in Hw. apply lookup_app_Some in Hw as [Hw|[_ Hw]].
    + right. left. eauto.
    + apply lookup_replicate in Hw as [-> _]. destruct Hp.
  - injection Hexec as <-. left. unfold Stop_locked in Ho.
    destruct (negb (isRunning f)); exact Ho.
  - left. unfold Stop_close in Hexec. repeat case_match; simplify_eq. exact Ho.
  - left. unfold Stop_wait in Hexec. repeat case_match; simplify_eq. exact Ho.
  - unfold Queue in *. destruct (negb (isRunning f)); [injection Hexec as <-; auto|].
    destruct (queue_closed f); [discriminate|].
    destruct (length (queue f) <? queue_capacity)%nat; injection Hexec as <-; [|auto].
    destruct Ho as [Hl|[Hw|Hq]]; [left; left; exact Hl|left; right; left; exact Hw|].
    simpl in Hq. apply in_app_or in Hq as [Hq|[<-|[]]].
    + left. right. right. exact Hq.
    + right. left. reflexivity.
  - injection Hexec as <-. left. unfold Cancel in Ho. case_match; exact Ho.
  - left. unfold worker_step in Hexec.
    destruct (pool f !! w) as [wk|] eqn:Hw; [|discriminate].
    assert (Hother : forall st g,
              pool g = <[w := st]> (pool f) ->
              (exists w1 wk1, pool g !! w1 = Some wk1 /\ processing req wk1) ->
              processing req st
              \/ exists w1 wk1, pool f !! w1 = Some wk1 /\ processing req wk1).
    { intros st g Hg (w1 & wk1 & H1 & Hp). rewrite Hg in H1.
      apply pool_insert_lookup in H1 as [[_ ->]|[_ H1]]; eauto. }
    destruct wk as [|req0|req0 ctx0 k0 rest0 tried0|req0 ctx0 o0|]; try discriminate.
    + destruct (queue f) as [|rq q] eqn:Hq.
      * destruct (queue_closed f); [|discriminate]. injection Hexec as <-.
        destruct Ho as [Hl|[Hp|Hin]]; [left; exact Hl| |right; right; simpl in Hin; congruence].
        apply (Hother WExited) in Hp as [[]|Hp]; [|reflexivity]. right. left. exact Hp.
      * injection Hexec as <-.
        destruct Ho as [Hl|[Hp|Hin]]; [left; exact Hl| |].
        -- apply (Hother (WStarting rq)) in Hp as [Hp|Hp]; [| |reflexivity].
           ++ simpl in Hp. subst. right. right. rewrite Hq. left. reflexivity.
           ++ right. left. exact Hp.
        -- right. right. rewrite Hq. right. exact Hin.
    + injection Hexec as <-.
      destruct Ho as [Hl|[Hp|Hin]]; [left; exact Hl| |right; right; exact Hin].
      apply (Hother (WResolving req0 (next_ctx f) 0 (resolvers f) [])) in Hp
        as [Hp|Hp]; [| |reflexivity].
      * right. left. exists w, (WStarting req0). auto.
      * right. left. exact Hp.
    + destruct rest0 as [|r0 rest0].
      * injection Hexec as <-.
        destruct Ho as [Hl|[Hp|Hin]]; [left; exact Hl| |right; right; exact Hin].
        apply (Hother (WReturning req0 ctx0 Exhausted)) in Hp as [Hp|Hp]; [| |reflexivity].
        -- right. left. exists w, (WResolving req0 ctx0 k0 [] tried0). auto.
        -- right. left. exact Hp.
      * pose proof (loop_body_callback (onResolve f) (bool_decide (ctx0 ∈ cancelled f))
                      req0 k0 r0 tried0 req) as Hcb.
        assert (Hme : exists w1 wk1, pool f !! w1 = Some wk1 /\ processing req0 wk1).
        { exists w, (WResolving req0 ctx0 k0 (r0 :: rest0) tried0).
          split; [exact Hw|reflexivity]. }
        destruct (loop_body _ _ _ _ _ _) as [tried' ev|o ev]; injection Hexec as <-.
        -- destruct Ho as [(md & name & Hl)|[Hp|Hin]]; [| |right; right; exact Hin].
           ++ simpl in Hl. apply in_app_or in Hl as [Hl|Hl]; [left; eauto|].
              destruct (Hcb md name Hl) as (-> & _). right. left. exact Hme.
           ++ apply (Hother (WResolving req0 ctx0 (S k0) rest0 tried')) in Hp
                as [Hp|Hp]; [| |reflexivity].
              ** simpl in Hp. subst. right. left. exact Hme.
              ** right. left. exact Hp.
        -- destruct Ho as [(md & name & Hl)|[Hp|Hin]]; [| |right; right; exact Hin].
           ++ simpl in Hl. apply in_app_or in Hl as [Hl|Hl]; [left; eauto|].
              destruct (Hcb md name Hl) as (-> & _). right. left. exact Hme.
           ++ apply (Hother (WReturning req0 ctx0 o)) in Hp as [Hp|Hp]; [| |reflexivity].
              ** simpl in Hp. subst. right. left. exact Hme.
              ** right. left. exact Hp.
    + injection Hexec as <-.
      destruct Ho as [Hl|[Hp|Hin]]; [left; exact Hl| |right; right; exact Hin].
      apply (Hother WReceiving) in Hp as [[]|Hp]; [|reflexivity]. right. left. exact Hp.
Qed.

Lemma accepted_cons (a : Action) (tr : list Action) (f f1 : Fetcher) :
  exec a f = Done f1 -> accepted (a :: tr) f = accepted [a] f ++ accepted tr f1.
Proof.
  intros Hexec. cbn [accepted]. rewrite Hexec, app_nil_r. reflexivity.
Qed.

Lemma run_origin (tr : list Action) (req : FetchRequest) :
  forall f f', run tr f = Done f' -> origin f' req ->
    origin f req \/ In req (accepted tr f).
Proof.
  induction tr as [|a tr IH]; intros f f' Hrun Ho.
  - injection Hrun as <-. left. exact Ho.
  - simpl in Hrun. destruct (exec a f) as [f1| |msg] eqn:Hexec; try discriminate.
    rewrite (accepted_cons a tr f f1 Hexec).
    destruct (IH f1 f' Hrun Ho) as [Ho1|Hin]; [|right; apply in_or_app; auto].
    destruct (exec_origin a f f1 req Hexec Ho1) as [?|?]; [auto|].
    right. apply in_or_app. auto.
Qed.

(** X24.  The callback is only ever invoked for a request that [Queue]
    accepted, under the name of a registered resolver that supports the
    request, and with the metadata that resolver returned for that very
    request. *)
Theorem callback_only_for_accepted_requests (n : Z) (tr : list Action) (f : Fetcher)
    (req : FetchRequest) (resolved : ResolvedMetadata) (name : string) :
  reaches n tr f ->
  In (EvCallback req resolved name) (log f) ->
  In req (accepted tr (NewFetcher n))
  /\ answered_by (resolvers f) req resolved name.
Proof.
  intros Hreach Hin. split.
  - destruct (run_origin tr req (NewFetcher n) f Hreach) as [Ho|Hacc]; [left; eauto| |exact Hacc].
    destruct Ho as [(md & nm & [])|[(w & wk & Hw & _)|[]]].
    simpl in Hw. rewrite lookup_nil in Hw. discriminate.
  - assert (Hinv : resolvers_registered f).
    { refine (run_invariant resolvers_registered exec_resolvers_registered tr
                (NewFetcher n) f _ Hreach).
      split; simpl.
      - intros w r ctx k rest tried Hw. rewrite lookup_nil in Hw. discriminate.
      - intros r md nm []. }
    apply Hinv. exact Hin.
Qed.

Lemma callback_only_for_accepted_requests_witness :
  let a := rom_request "a" "Metroid" "nes" in
  let tr := [ActRegister LocalCacheResolver;
             ActRegister (catalogue "igdb" (named "Metroid"));
             ActSetCallback; ActStart; ActQueue a; ActWorker 0; ActWorker 0;
             ActWorker 0; ActWorker 0] in
  exists f,
    reaches 2 tr f
    /\ log f = [EvResolve 0 "local_cache"; EvResolve 1 "igdb";
                EvCallback a (named "Metroid") "igdb"]
    /\ In a (accepted tr (NewFetcher 2)).
Proof.
  intros a tr. eexists. split; [vm_compute; reflexivity|]. split; [reflexivity|].
  refine (proj1 (callback_only_for_accepted_requests 2 tr _ a (named "Metroid") "igdb"
                   _ _)).
  - vm_compute. reflexivity.
  - right. right. left. reflexivity.
Defined.

(** ** The configuration manager *)

Section ConfigManagerFacts.
Import ConfigManager.

Lemma Save_fatal (p : Process) :
  exists p', Save unlocked p = Fatal "sync: RUnlock of unlocked RWMutex" p'
             /\ data p' = data p
             /\ (create_err (disk p) = None -> file (disk p') = Holds (data p)).
Proof.
  unfold Save. simpl. destruct (create_err (disk p)); simpl.
  - exists p. split; [reflexivity|]. split; [reflexivity|discriminate].
  - eexists. split; [reflexivity|]. split; reflexivity.
Qed.

(** X25.  Used by one goroutine, the configuration manager never
    deadlocks, and [Load] and [Get] leave its lock free; but [Save] takes
    the write lock and releases a read lock, which the runtime answers with
    a fatal error.  So a sequence of calls runs to its end exactly when it
    contains neither [Save] nor [SetFilters]: the first of these writes the
    file and then stops the process.  [NewManager] on a disk without a
    configuration file ends the same way, after writing the defaults; on a
    disk that holds a configuration it returns a manager with that
    configuration loaded. *)
Theorem config_Save_stops_the_process (cs : list Call) (p : Process) :
  match calls cs unlocked p with
  | Returns _ mu p' => existsb saves cs = false /\ mu = unlocked
  | Deadlock => False
  | Fatal msg p' =>
      existsb saves cs = true /\ msg = "sync: RUnlock of unlocked RWMutex"
  end
  /\ (mkdir_err (disk p) = None -> file (disk p) = Missing ->
      exists p', NewManager p = Fatal "sync: RUnlock of unlocked RWMutex" p'
                 /\ (create_err (disk p) = None -> file (disk p') = Holds (data p)))
  /\ (forall c, mkdir_err (disk p) = None -> file (disk p) = Holds c ->
        NewManager p = Returns (Ok tt) unlocked (set_data c p)).
Proof.
  split; [|split].
  - revert p. induction cs as [|c cs IH]; intros p; [simpl; auto|].
    cbn [calls existsb]. destruct c; cbn [call saves orb].
    + unfold Load. simpl. destruct (file (disk p)); simpl; apply IH.
    + destruct (Save_fatal p) as (p' & -> & _). auto.
    + unfold Get. simpl. apply IH.
    + unfold SetFilters. simpl.
      destruct (Save_fatal (set_data filters p)) as (p' & Hs & _).
      change {| readers := 0; writer := false |} with unlocked. rewrite Hs. auto.
  - intros Hmk Hfile. unfold NewManager, Load. rewrite Hmk, Hfile. simpl.
    change {| readers := 0; writer := false |} with unlocked.
    destruct (Save_fatal p) as (p' & -> & _ & Hf). eauto.
  - intros c Hmk Hfile. unfold NewManager, Load. rewrite Hmk, Hfile. reflexivity.
Qed.

End ConfigManagerFacts.

Example config_survives_the_crash :
  let d := {| ConfigManager.mkdir_err := None; ConfigManager.create_err := None;
              ConfigManager.file := ConfigManager.Missing |} in
  exists p1 p2,
    ConfigManager.NewManager (ConfigManager.start d)
    = ConfigManager.Fatal "sync: RUnlock of unlocked RWMutex" p1
    /\ ConfigManager.NewManager (ConfigManager.start (ConfigManager.disk p1))
       = ConfigManager.Returns (Ok tt) ConfigManager.unlocked p2
    /\ ConfigManager.data p2 = ConfigManager.defaultConfig.
Proof. eexists. eexists. split; [reflexivity|]. split; reflexivity. Qed.

(** ** The fallback candidates *)

Section FallbackOrderFacts.

Local Abbreviation prio r := (pe_priority (row_pe r)).





End FallbackOrderFacts.